(** * CookieJar (ako-deno/cookies, mod.ts): a shallow embedding

    The repository ships one class, [CookieJar], a [Map<string, string>]
    that mirrors the cookies of one request/response exchange.  The source
    holds two revisions of [mod.ts]:

    - the first one (imports std@v0.57.0), embedded as module [Mod1];
    - the second one (imports std@v0.86.0, [ms] and [SameSite]),
      embedded as module [Mod2].

    Conventions of the embedding.

    - A JS string is a Rocq [string]: code units 0..255.  Code units above
      255 (which [FIELD_CONTENT_REGEXP] rejects) are not representable.
    - The inherited [Map] is an association list in insertion order, the
      order [Map.prototype.keys] iterates in.
    - A method is a function from the jar to an outcome (a returned value
      or a thrown exception) and the jar as the call leaves it: a JS
      exception does not roll anything back.
    - The transport ([setCookie], [deleteCookie] of std/http) is modelled
      as the sequence of calls made on the response; Keygrip as a keyed
      hash taken as a parameter; [ms], [Date.now] and [Date.parse] as
      parameters.  A JS number is a whole number ([Z]) wherever the code
      only passes it on or adds whole numbers below 2^53; where the code
      divides, and where [ms] yields a number that is not whole, the
      double arithmetic is written out (rounding to 53 bits).
    - A cookie value is [string | null | undefined], the declared type of
      the first revision; the second revision declares [any] and is
      embedded on the same three shapes. *)

From Stdlib Require Import String Ascii List ZArith NArith Bool Lia Permutation Sorted.
Import ListNotations.
Local Open Scope string_scope.
Local Open Scope Z_scope.

(** ** JavaScript values and strings *)

(** [string | null | undefined], the declared type of a cookie value. *)
Inductive JsValue : Type :=
| JsNull
| JsUndefined
| JsString (s : string).

(** [!!v] *)
Definition truthy (v : JsValue) : bool :=
  match v with
  | JsString s => negb (s =? "")%string
  | _ => false
  end.

(** The string a template literal [`${v}`] inserts. *)
Definition toStr (v : JsValue) : string :=
  match v with
  | JsNull => "null"
  | JsUndefined => "undefined"
  | JsString s => s
  end.

(** [Map.prototype.get] returns [string | undefined]. *)
Definition ofLookup (o : option string) : JsValue :=
  match o with
  | Some s => JsString s
  | None => JsUndefined
  end.

(** [value && String(value)] on the three shapes of a value. *)
Definition andString (v : JsValue) : JsValue :=
  if truthy v then JsString (toStr v) else v.

(** Truthiness of a [string | undefined] option field. *)
Definition nonEmpty (o : option string) : bool :=
  match o with
  | Some s => negb (s =? "")%string
  | None => false
  end.

(** Truthiness of a [boolean | undefined] option field. *)
Definition isTrue (o : option bool) : bool :=
  match o with
  | Some b => b
  | None => false
  end.

(** [a ?? b] *)
Definition nullish {A : Type} (o : option A) (d : A) : A :=
  match o with
  | Some a => a
  | None => d
  end.

(** ** Validator: FIELD_CONTENT_REGEXP

    [/^[\u0009\u0020-\u007e\u0080-\u00ff]+$/]: one or more characters,
    each a tab, a printable ASCII character or an obs-text byte. *)

Definition field_char (c : ascii) : bool :=
  let n := Z.of_N (N_of_ascii c) in
  (n =? 9) || ((32 <=? n) && (n <=? 126)) || ((128 <=? n) && (n <=? 255)).

Fixpoint all_field_chars (s : string) : bool :=
  match s with
  | EmptyString => true
  | String c s' => field_char c && all_field_chars s'
  end.

Definition FIELD_CONTENT_REGEXP_test (s : string) : bool :=
  negb (s =? "")%string && all_field_chars s.

(** ** CookieStore: the inherited [Map<string, string>] *)

Definition Store : Type := list (string * string).

Fixpoint map_get (k : string) (m : Store) : option string :=
  match m with
  | [] => None
  | (k', v) :: m' => if (k' =? k)%string then Some v else map_get k m'
  end.

Definition map_has (k : string) (m : Store) : bool :=
  match map_get k m with
  | Some _ => true
  | None => false
  end.

(** [Map.prototype.set]: an existing key keeps its place, a new one goes
    to the end. *)
Fixpoint map_set (k v : string) (m : Store) : Store :=
  match m with
  | [] => [(k, v)]
  | (k', v') :: m' =>
      if (k' =? k)%string then (k, v) :: m' else (k', v') :: map_set k v m'
  end.

(** [Map.prototype.delete]: the store after the call. *)
Fixpoint map_delete (k : string) (m : Store) : Store :=
  match m with
  | [] => []
  | (k', v) :: m' =>
      if (k' =? k)%string then map_delete k m' else (k', v) :: map_delete k m'
  end.

Definition map_keys (m : Store) : list string := map fst m.

(** Keys are unique in a [Map]. *)
Definition store_wf (m : Store) : Prop := NoDup (map_keys m).

(** ** SigningEngine: Keygrip *)

(** Modelled from the spec: Keygrip (deno.land/x/keygrip) is a third-party
    module.  The keyring is an ordered, non-empty sequence of keys, most
    recent first; the keyed hash itself is a parameter ([kg_hmac key data]). *)
Record Keygrip : Type := mkKeygrip {
  kg_hmac : string -> string -> string;
  kg_current : string;
  kg_older : list string
}.

Definition kg_keys (kg : Keygrip) : list string :=
  kg_current kg :: kg_older kg.

(** Modelled from the spec: [sign(data)] always signs with the current
    (position-0) key. *)
Definition sign (kg : Keygrip) (data : string) : string :=
  kg_hmac kg (kg_current kg) data.

Fixpoint index_from (h : string -> string -> string) (ks : list string)
  (data digest : string) (i : Z) : Z :=
  match ks with
  | [] => -1
  | k :: ks' =>
      if (digest =? h k data)%string then i
      else index_from h ks' data digest (i + 1)
  end.

(** Modelled from the spec: [index(data, digest)] checks the signature
    against each key in order and returns the first matching position,
    or -1. *)
Definition index (kg : Keygrip) (data digest : string) : Z :=
  index_from (kg_hmac kg) (kg_keys kg) data digest 0.

(** ** Cookie records and options *)

(** [number | string] *)
Inductive MaxAge : Type :=
| MaxAgeNum (n : Z)
| MaxAgeStr (s : string).

(** A [Date] object: its time value, or Invalid Date. *)
Inductive Date : Type :=
| DateMs (t : Z)
| InvalidDate.

(** [Date | number | string] *)
Inductive Expires : Type :=
| ExpDate (d : Date)
| ExpNum (n : Z)
| ExpStr (s : string).

(** The [sameSite] option as a caller passes it. *)
Inductive SameSiteOpt : Type :=
| SameSiteBool (b : bool)
| SameSiteStr (s : string).

(** What [SAME_SITE[key]] evaluates to when it is not [undefined]: one of
    the three table values, or a member inherited from [Object.prototype]. *)
Inductive SameSiteAttr : Type :=
| Strict
| Lax
| NoneAttr
| Inherited (key : string).

Module CookieOptions.
Record t : Type := mk {
  maxAge : option MaxAge;
  expires : option Expires;
  path : option string;
  domain : option string;
  secure : option bool;
  httpOnly : option bool;
  signed : option bool;
  overwrite : option bool;
  sameSite : option SameSiteOpt
}.

(** [{}] *)
Definition empty : t :=
  mk None None None None None None None None None.

(** [{ signed: b }] *)
Definition only_signed (b : bool) : t :=
  mk None None None None None None (Some b) None None.

(** [{ overwrite: b }] *)
Definition only_overwrite (b : bool) : t :=
  mk None None None None None None None (Some b) None.

(** [{ sameSite: s }] *)
Definition only_sameSite (s : SameSiteOpt) : t :=
  mk None None None None None None None None (Some s).

(** [opts.maxAge = m; opts.expires = e] *)
Definition expire (m : MaxAge) (e : Expires) (o : t) : t :=
  mk (Some m) (Some e) (path o) (domain o) (secure o) (httpOnly o)
     (signed o) (overwrite o) (sameSite o).
End CookieOptions.

(** The object handed to the transport. *)
Module Cookie.
Record t : Type := mk {
  name : string;
  value : JsValue;
  secure : option bool;
  domain : option string;
  path : string;
  httpOnly : bool;
  sameSite : option SameSiteAttr;
  maxAge : option MaxAge;
  expires : option Expires
}.

(** [cookie.name = n; cookie.value = v] *)
Definition rename (n : string) (v : JsValue) (c : t) : t :=
  mk n v (secure c) (domain c) (path c) (httpOnly c) (sameSite c)
     (maxAge c) (expires c).
End Cookie.

(** ** Transport and jar state *)

(** One call on the response object. *)
Inductive HeaderCall : Type :=
| SetCookieCall (c : Cookie.t)
| DeleteCookieCall (name : string).

Record CookieJar : Type := mkJar {
  jar_store : Store;
  jar_res : list HeaderCall;
  jar_secure : bool;
  jar_keys : option Keygrip
}.

Definition with_store (f : Store -> Store) (j : CookieJar) : CookieJar :=
  mkJar (f (jar_store j)) (jar_res j) (jar_secure j) (jar_keys j).

Definition with_res (h : HeaderCall) (j : CookieJar) : CookieJar :=
  mkJar (jar_store j) (jar_res j ++ [h]) (jar_secure j) (jar_keys j).

Record CookieJarOptions : Type := mkJarOptions {
  jo_keys : option Keygrip;
  jo_secure : option bool
}.

Inductive Exn : Type :=
| TypeError (msg : string)
| Error (msg : string).

Inductive Outcome (A : Type) : Type :=
| Return (a : A)
| Throw (e : Exn).
Arguments Return {A} a.
Arguments Throw {A} e.

(** A method body: state passing with exceptions that keep the state. *)
Definition M (A : Type) : Type := CookieJar -> Outcome A * CookieJar.

Definition ret {A : Type} (a : A) : M A := fun j => (Return a, j).

Definition throw {A : Type} (e : Exn) : M A := fun j => (Throw e, j).

Definition bind {A B : Type} (m : M A) (k : A -> M B) : M B :=
  fun j =>
    match m j with
    | (Return a, j') => k a j'
    | (Throw e, j') => (Throw e, j')
    end.

Declare Scope jar_scope.
Delimit Scope jar_scope with jar.
Notation "x <- m ;; k" := (bind m (fun x => k))
  (at level 61, m at next level, right associativity) : jar_scope.
Notation "m ;; k" := (bind m (fun _ => k))
  (at level 61, right associativity) : jar_scope.
Local Open Scope jar_scope.

(** [if (b) throw e] *)
Definition throw_if (b : bool) (e : Exn) : M unit :=
  if b then throw e else ret tt.

(** [this.#keys], [this.#secure] *)
Definition this_keys : M (option Keygrip) := fun j => (Return (jar_keys j), j).
Definition this_secure : M bool := fun j => (Return (jar_secure j), j).

(** [super.get], [super.has], [super.set], [super.delete], [super.clear],
    [this.keys()] *)
Definition super_get (k : string) : M (option string) :=
  fun j => (Return (map_get k (jar_store j)), j).
Definition super_has (k : string) : M bool :=
  fun j => (Return (map_has k (jar_store j)), j).
Definition super_set (k v : string) : M unit :=
  fun j => (Return tt, with_store (map_set k v) j).
Definition super_delete (k : string) : M bool :=
  fun j => (Return (map_has k (jar_store j)), with_store (map_delete k) j).
Definition super_clear : M unit :=
  fun j => (Return tt, with_store (fun _ => []) j).
Definition this_keys_iter : M (list string) :=
  fun j => (Return (map_keys (jar_store j)), j).

(** std/http [setCookie(res, cookie)] and [deleteCookie(res, name)] *)
Module Http.
Definition setCookie (c : Cookie.t) : M unit :=
  fun j => (Return tt, with_res (SetCookieCall c) j).
Definition deleteCookie (name : string) : M unit :=
  fun j => (Return tt, with_res (DeleteCookieCall name) j).
End Http.

(** ** Object.keys

    [getCookies(req)] returns a plain object.  [Object.keys] lists its
    array-index names first, in ascending numeric order, and then the
    other names in the order they were created. *)

Definition digit (c : ascii) : option N :=
  let n := N_of_ascii c in
  if ((48 <=? n) && (n <=? 57))%N then Some (n - 48)%N else None.

Fixpoint digits_value (s : string) (acc : N) : option N :=
  match s with
  | EmptyString => Some acc
  | String c s' =>
      match digit c with
      | Some d => digits_value s' (10 * acc + d)%N
      | None => None
      end
  end.

(** An array index: the canonical decimal form of an integer from 0 to
    2^32 - 2. *)
Definition array_index (s : string) : option N :=
  match s with
  | EmptyString => None
  | String c s' =>
      if (c =? "0")%char then
        if (s' =? "")%string then Some 0%N else None
      else
        match digits_value s 0 with
        | Some n => if (n <=? 4294967294)%N then Some n else None
        | None => None
        end
  end.

Fixpoint insert_index (n : N) (k : string) (l : list (N * string))
  : list (N * string) :=
  match l with
  | [] => [(n, k)]
  | (m, k') :: l' =>
      if (n <=? m)%N then (n, k) :: l else (m, k') :: insert_index n k l'
  end.

(** The array-index names of a list of names, in ascending order. *)
Fixpoint index_keys (ks : list string) : list (N * string) :=
  match ks with
  | [] => []
  | k :: ks' =>
      match array_index k with
      | Some n => insert_index n k (index_keys ks')
      | None => index_keys ks'
      end
  end.

Definition is_plain_name (k : string) : bool :=
  match array_index k with
  | Some _ => false
  | None => true
  end.

(** [Object.keys(o)] for an object given by its properties in creation
    order. *)
Definition Object_keys (o : Store) : list string :=
  (map snd (index_keys (map_keys o)) ++ filter is_plain_name (map_keys o))%list.

(** The pairs [key, o[key]] for [key] of [Object.keys(o)]. *)
Definition Object_entries (o : Store) : list (string * string) :=
  map (fun k => (k, nullish (map_get k o) "")) (Object_keys o).

(** The constructor: [#secure], [#keys], then one [super.set(key,
    cookies[key])] per [key] of [Object.keys(cookies)], where [cookies] is
    the object [getCookies(req)] returns, given by its properties in
    creation order. *)
Definition new_CookieJar (cookies : list (string * string))
  (res : list HeaderCall) (opts : option CookieJarOptions) : CookieJar :=
  let secure := match opts with Some o => isTrue (jo_secure o) | None => false end in
  let keys := match opts with Some o => jo_keys o | None => None end in
  fold_left (fun j kv => with_store (map_set (fst kv) (snd kv)) j)
    (Object_entries cookies)
    (mkJar [] res secure keys).

(** Truthiness of the [sameSite] option. *)
Definition sameSite_truthy (o : option SameSiteOpt) : bool :=
  match o with
  | Some (SameSiteBool b) => b
  | Some (SameSiteStr s) => negb (s =? "")%string
  | None => false
  end.

(** * First revision of mod.ts *)

Module Mod1.

(** [const SAME_SITE = [ true, 'strict', 'lax', 'none' ]] and
    [SAME_SITE.includes(x)] *)
Definition SAME_SITE_includes (x : SameSiteOpt) : bool :=
  match x with
  | SameSiteBool b => b
  | SameSiteStr s => ((s =? "strict") || (s =? "lax") || (s =? "none"))%string
  end.

(** [delete(name)] *)
Definition delete (name : string) : M bool :=
  throw_if (negb (FIELD_CONTENT_REGEXP_test name))
    (TypeError "argument name is invalid") ;;
  Http.deleteCookie name ;;
  super_delete name.

(** The private [setCookie(cookie, opts)]: "Only sets cookie if overwrite
    is false or doesn't already exist".  The value stored is a string on
    every path that reaches it. *)
Definition setCookie (cookie : Cookie.t) (opts : CookieOptions.t) : M unit :=
  has <- super_has (Cookie.name cookie) ;;
  if isTrue (CookieOptions.overwrite opts) || negb has then
    Http.setCookie cookie ;;
    super_set (Cookie.name cookie) (toStr (Cookie.value cookie))
  else ret tt.

(** [set(name, value, opts = {})] *)
Definition set (name : string) (value : JsValue)
  (options : option CookieOptions.t) : M unit :=
  let opts := nullish options CookieOptions.empty in
  if negb (truthy value) then
    delete name ;; ret tt
  else
    throw_if (negb (FIELD_CONTENT_REGEXP_test name))
      (TypeError "argument name is invalid") ;;
    throw_if (negb (FIELD_CONTENT_REGEXP_test (toStr value)))
      (TypeError "argument value is invalid") ;;
    throw_if (nonEmpty (CookieOptions.path opts) &&
              negb (FIELD_CONTENT_REGEXP_test (nullish (CookieOptions.path opts) "")))
      (TypeError "option path is invalid") ;;
    throw_if (nonEmpty (CookieOptions.domain opts) &&
              negb (FIELD_CONTENT_REGEXP_test (nullish (CookieOptions.domain opts) "")))
      (TypeError "option domain is invalid") ;;
    throw_if (sameSite_truthy (CookieOptions.sameSite opts) &&
              negb (match CookieOptions.sameSite opts with
                    | Some x => SAME_SITE_includes x
                    | None => false
                    end))
      (TypeError "option sameSite is invalid") ;;
    let secure := isTrue (CookieOptions.secure opts) in
    jar_is_secure <- this_secure ;;
    throw_if (negb jar_is_secure && secure)
      (Error "Cannot send secure cookie over unencrypted connection") ;;
    let cookie :=
      Cookie.mk name value (Some secure) None
        (nullish (CookieOptions.path opts) "/")
        (nullish (CookieOptions.httpOnly opts) true)
        None (CookieOptions.maxAge opts) None in
    setCookie cookie opts ;;
    keys <- this_keys ;;
    let signed :=
      nullish (CookieOptions.signed opts)
        (match keys with Some _ => true | None => false end) in
    if signed then
      match keys with
      | None => throw (Error ".keys required for signed cookies")
      | Some kg =>
          let name' := Cookie.name cookie ++ ".sig" in
          let value' := sign kg (name' ++ "=" ++ toStr (Cookie.value cookie)) in
          setCookie (Cookie.rename name' (JsString value') cookie) opts
      end
    else ret tt.

(** [get(name, opts?)] *)
Definition get (name : string) (opts : option CookieOptions.t)
  : M (option string) :=
  keys <- this_keys ;;
  let signed :=
    nullish (match opts with Some o => CookieOptions.signed o | None => None end)
      (match keys with Some _ => true | None => false end) in
  value <- super_get name ;;
  if negb signed then ret value
  else
    let signedName := name ++ ".sig" in
    remote <- super_get signedName ;;
    if nonEmpty remote then
      let data := name ++ "=" ++ toStr (ofLookup value) in
      match keys with
      | None => throw (Error "Keys required for signed cookies")
      | Some kg =>
          let idx := index kg data (nullish remote "") in
          if idx =? -1 then
            delete signedName ;; ret None
          else
            (if idx =? 0 then ret tt
             else set signedName (JsString (sign kg data))
                    (Some (CookieOptions.only_signed false))) ;;
            ret value
      end
    else ret None.

(** The loop of [clear()]: one [deleteCookie] per key. *)
Fixpoint clear_loop (ks : list string) : M unit :=
  match ks with
  | [] => ret tt
  | key :: ks' => Http.deleteCookie key ;; clear_loop ks'
  end.

(** [clear()] *)
Definition clear : M unit :=
  ks <- this_keys_iter ;;
  clear_loop ks ;;
  super_clear.

(** [has] is inherited from [Map]. *)
Definition has (name : string) : M bool := super_has name.

End Mod1.

(** * Second revision of mod.ts *)

(** ** String helpers of the second revision *)

(** [String.prototype.toLowerCase] on code units 0..255. *)
Definition lower_char (c : ascii) : ascii :=
  let n := Z.of_N (N_of_ascii c) in
  if ((65 <=? n) && (n <=? 90)) ||
     ((192 <=? n) && (n <=? 222) && negb (n =? 215))
  then ascii_of_N (Z.to_N (n + 32)) else c.

Fixpoint toLowerCase (s : string) : string :=
  match s with
  | EmptyString => EmptyString
  | String c s' => String (lower_char c) (toLowerCase s')
  end.

(** [s.lastIndexOf(pat)]: scans [s] from position [i], remembering in
    [acc] the last position where [pat] starts. *)
Fixpoint lastIndexOf_from (pat s : string) (i acc : Z) : Z :=
  let acc' := if String.prefix pat s then i else acc in
  match s with
  | EmptyString => acc'
  | String _ s' => lastIndexOf_from pat s' (i + 1) acc'
  end.

Definition lastIndexOf (s pat : string) : Z := lastIndexOf_from pat s 0 (-1).

(** [x | 0] *)
Definition to_int32 (z : Z) : Z := (z + 2 ^ 31) mod 2 ^ 32 - 2 ^ 31.

(** ** Arithmetic of doubles

    A JS number is a double.  The result of a division or of an addition
    is the exact result rounded to 53 significant bits, ties to even.  The
    exact result is a ratio [a / b] of two positive integers here, and the
    rounded one is kept as a mantissa [m] and an exponent [e], of value
    [m * 2^e].  Exponents below the normal range are not cut off: such
    results are below 1 in size, and only the whole part is used. *)

(** Numerator and denominator of [a / (b * 2^e)]. *)
Definition scaled (a b e : Z) : Z * Z :=
  if 0 <=? e then (a, b * 2 ^ e) else (a * 2 ^ (- e), b).

(** The exponent [e] for which [a / (b * 2^e)] lies in [2^52, 2^53). *)
Definition quotient_exponent (a b : Z) : Z :=
  let e0 := Z.log2 a - Z.log2 b - 52 in
  let (n, d) := scaled a b e0 in
  if n / d <? 2 ^ 52 then e0 - 1 else e0.

(** Round to nearest, ties to even. *)
Definition round_nearest_even (n d : Z) : Z :=
  let q := n / d in
  let r := n mod d in
  if (d <? 2 * r) || ((d =? 2 * r) && Z.odd q) then q + 1 else q.

(** The double nearest to [a / b], for [0 < a] and [0 < b]: mantissa and
    exponent. *)
Definition double_div (a b : Z) : Z * Z :=
  let e := quotient_exponent a b in
  let (n, d) := scaled a b e in
  (round_nearest_even n d, e).

(** The whole part of a non-negative double [m * 2^e]. *)
Definition whole_part (me : Z * Z) : Z :=
  let (m, e) := me in
  if 0 <=? e then m * 2 ^ e else m / 2 ^ (- e).

(** The double nearest to [n / d], for [0 < d], cut to its whole part
    (toward zero): what [ToInt32] and [new Date] keep of a number. *)
Definition whole_of_ratio (n d : Z) : Z :=
  if n =? 0 then 0 else Z.sgn n * whole_part (double_div (Z.abs n) d).

(** [(res / 1000) | 0] for the double [res = n / d], [d] a power of two:
    the double division, the truncation toward zero of [ToInt32], and its
    wrap to 32 bits. *)
Definition seconds_of_ms (n d : Z) : Z :=
  to_int32 (whole_of_ratio n (1000 * d)).

(** What [ms(str)] returns: a finite number, [NaN] or [undefined].  The
    number is a double: [MsNum n] is the whole number [n], [MsFraction n k]
    is [n / 2^k] when that is not whole ([n] odd, below 2^53 in size). *)
Inductive MsResult : Type :=
| MsNum (n : Z)
| MsFraction (n : Z) (k : positive)
| MsNaN
| MsUndefined.

(** [new Date(n)] for a number: time values beyond 8.64e15 ms are invalid.
    A number that is not whole is cut to its whole part first; doubles
    beyond 8.64e15 are whole. *)
Definition Date_of_number (n : Z) : Date :=
  if Z.abs n <=? 8640000000000000 then DateMs n else InvalidDate.

Module Mod2.

(** Names of the members a plain object inherits from [Object.prototype]. *)
Definition Object_prototype_keys : list string :=
  [ "constructor"; "__defineGetter__"; "__defineSetter__"; "hasOwnProperty";
    "__lookupGetter__"; "__lookupSetter__"; "isPrototypeOf";
    "propertyIsEnumerable"; "toString"; "valueOf"; "__proto__";
    "toLocaleString" ].

(** [SAME_SITE[key]] for
    [{ true: "Strict", strict: "Strict", lax: "Lax", none: "None" }];
    [None] is [undefined]. *)
Definition SAME_SITE (key : string) : option SameSiteAttr :=
  if (key =? "true")%string then Some Strict
  else if (key =? "strict")%string then Some Strict
  else if (key =? "lax")%string then Some Lax
  else if (key =? "none")%string then Some NoneAttr
  else if existsb (String.eqb key) Object_prototype_keys
       then Some (Inherited key)
  else None.

(** [String(sameSite)] *)
Definition String_of_sameSite (x : SameSiteOpt) : string :=
  match x with
  | SameSiteBool true => "true"
  | SameSiteBool false => "false"
  | SameSiteStr s => s
  end.

(** [typeof x == "string"] *)
Definition is_string (x : SameSiteOpt) : bool :=
  match x with
  | SameSiteStr _ => true
  | SameSiteBool _ => false
  end.

Section Ambient.

(** The collaborators the second revision calls besides the transport. *)
Variable ms : string -> MsResult.
Variable Date_now : Z.
Variable Date_parse : string -> Date.

(** "Parse sameSite".  A falsy input ([undefined], [false], the empty
    string) goes to the cookie as it is; the cookie field holds [None]
    for all three. *)
Definition parse_sameSite (o : option SameSiteOpt)
  : M (option SameSiteAttr) :=
  match o with
  | Some x =>
      if sameSite_truthy o then
        let key := toLowerCase (String_of_sameSite x) in
        let sameSite := SAME_SITE key in
        throw_if (negb (is_string x)) (TypeError "option sameSite is invalid") ;;
        ret sameSite
      else ret None
  | None => ret None
  end.

(** "Parse maxAge" *)
Definition parse_maxAge (o : option MaxAge) : M (option MaxAge) :=
  match o with
  | Some (MaxAgeStr s) =>
      if negb (s =? "")%string then
        match ms s with
        | MsNum res => ret (Some (MaxAgeNum (seconds_of_ms res 1)))
        | MsFraction n k =>
            ret (Some (MaxAgeNum (seconds_of_ms n (2 ^ Z.pos k))))
        | _ => throw (TypeError "maxAge string invalid")
        end
      else ret o
  | _ => ret o
  end.

(** "Parse expires" *)
Definition parse_expires (o : option Expires) : option Expires :=
  match o with
  | Some (ExpDate d) => Some (ExpDate d)
  | Some (ExpNum n) =>
      if n =? 0 then o else Some (ExpDate (Date_of_number n))
  | Some (ExpStr s) =>
      if (s =? "")%string then o
      else
        match ms s with
        | MsNum time => Some (ExpDate (Date_of_number (Date_now + time)))
        | MsFraction n k =>
            let sum := whole_of_ratio (Date_now * 2 ^ Z.pos k + n) (2 ^ Z.pos k) in
            Some (ExpDate (Date_of_number sum))
        | MsNaN => Some (ExpDate InvalidDate)
        | MsUndefined => Some (ExpDate (Date_parse s))
        end
  | None => None
  end.

(** The private [setCookie(name, value, opts)] *)
Definition setCookie (name : string) (value : JsValue)
  (opts : CookieOptions.t) : M bool :=
  let secure := CookieOptions.secure opts in
  let domain := CookieOptions.domain opts in
  let path := nullish (CookieOptions.path opts) "/" in
  let httpOnly := nullish (CookieOptions.httpOnly opts) true in
  jar_is_secure <- this_secure ;;
  throw_if (negb jar_is_secure && isTrue secure)
    (Error "Cannot send secure cookie over unencrypted connection") ;;
  sameSite <- parse_sameSite (CookieOptions.sameSite opts) ;;
  maxAge <- parse_maxAge (CookieOptions.maxAge opts) ;;
  let expires := parse_expires (CookieOptions.expires opts) in
  let cookie :=
    Cookie.mk name value secure domain path httpOnly sameSite maxAge expires in
  Http.setCookie cookie ;;
  keys <- this_keys ;;
  let signed :=
    nullish (CookieOptions.signed opts)
      (match keys with Some _ => true | None => false end) in
  if signed then
    match keys with
    | None => throw (Error ".keys required for signed cookies")
    | Some kg =>
        let name' := Cookie.name cookie ++ ".sig" in
        let value' := sign kg (name' ++ "=" ++ toStr (Cookie.value cookie)) in
        Http.setCookie (Cookie.rename name' (JsString value') cookie) ;;
        ret true
    end
  else ret true.

(** [delete(name, opts?)] *)
Definition delete (name : string) (opts : option CookieOptions.t) : M bool :=
  throw_if (negb (FIELD_CONTENT_REGEXP_test name))
    (TypeError "argument name is invalid") ;;
  match opts with
  | Some o =>
      let o' := CookieOptions.expire (MaxAgeStr "") (ExpDate (DateMs 0)) o in
      ok <- setCookie name (JsString "") o' ;;
      if ok then super_delete name else ret false
  | None =>
      Http.deleteCookie name ;;
      super_delete name
  end.

(** [set(name, value, options?)] *)
Definition set (name : string) (value : JsValue)
  (options : option CookieOptions.t) : M unit :=
  if negb (truthy value) &&
     match options with Some _ => false | None => true end
  then delete name None ;; ret tt
  else
    let opts := nullish options CookieOptions.empty in
    let value := andString value in
    has <- super_has name ;;
    if negb (isTrue (CookieOptions.overwrite opts)) && has then ret tt
    else
      throw_if (negb (FIELD_CONTENT_REGEXP_test name))
        (TypeError "argument name is invalid") ;;
      throw_if (truthy value && negb (FIELD_CONTENT_REGEXP_test (toStr value)))
        (TypeError "argument value is invalid") ;;
      throw_if (nonEmpty (CookieOptions.path opts) &&
                negb (FIELD_CONTENT_REGEXP_test (nullish (CookieOptions.path opts) "")))
        (TypeError "option path is invalid") ;;
      throw_if (nonEmpty (CookieOptions.domain opts) &&
                negb (FIELD_CONTENT_REGEXP_test (nullish (CookieOptions.domain opts) "")))
        (TypeError "option domain is invalid") ;;
      setCookie name value opts ;;
      keys <- this_keys ;;
      let signed :=
        nullish (CookieOptions.signed opts)
          (match keys with Some _ => true | None => false end) in
      if signed then
        match keys with
        | None => throw (Error ".keys required for signed cookies")
        | Some kg =>
            let name' := name ++ ".sig" in
            let value' := sign kg (name' ++ "=" ++ toStr value) in
            setCookie name' (JsString value') opts ;;
            ret tt
        end
      else ret tt.

(** [get(name, opts?)] *)
Definition get (name : string) (opts : option CookieOptions.t)
  : M (option string) :=
  keys <- this_keys ;;
  let signed :=
    nullish (match opts with Some o => CookieOptions.signed o | None => None end)
      (match keys with Some _ => true | None => false end) in
  value <- super_get name ;;
  if signed then
    let signatureName := name ++ ".sig" in
    signature <- super_get signatureName ;;
    if nonEmpty signature then
      match keys with
      | None => throw (Error "Keys required for signed cookies")
      | Some kg =>
          let data := name ++ "=" ++ toStr (ofLookup value) in
          let idx := index kg data (nullish signature "") in
          if idx =? -1 then
            delete signatureName None ;; ret None
          else
            (if idx =? 0 then ret tt
             else set signatureName (JsString (sign kg data))
                    (Some (CookieOptions.only_signed false))) ;;
            ret value
      end
    else ret value
  else ret value.

(** The loop of [clear()]: a key that contains ".sig" and whose prefix up
    to the last ".sig" is a key of the store is skipped. *)
Fixpoint clear_loop (ks : list string) : M unit :=
  match ks with
  | [] => ret tt
  | key :: ks' =>
      let idx := lastIndexOf key ".sig" in
      has <- super_has (substring 0 (Z.to_nat idx) key) ;;
      (if negb (idx =? -1) && has then ret tt
       else Http.deleteCookie key) ;;
      clear_loop ks'
  end.

(** [clear()] *)
Definition clear : M unit :=
  ks <- this_keys_iter ;;
  clear_loop ks ;;
  super_clear.

(** [has] is inherited from [Map]. *)
Definition has (name : string) : M bool := super_has name.

End Ambient.

End Mod2.

(** * Derived notions used in the statements *)

(** The jar after [deleteCookie(res, name); super.delete(name)]. *)
Definition deleted (name : string) (j : CookieJar) : CookieJar :=
  with_store (map_delete name) (with_res (DeleteCookieCall name) j).

(** The jar after [setCookie(res, cookie); super.set(name, value)]. *)
Definition stored (c : Cookie.t) (j : CookieJar) : CookieJar :=
  with_store (map_set (Cookie.name c) (toStr (Cookie.value c)))
    (with_res (SetCookieCall c) j).

(** Whether a call signs: [opts.signed ?? !!this.#keys]. *)
Definition signs (opts : option CookieOptions.t) (j : CookieJar) : bool :=
  nullish (match opts with Some o => CookieOptions.signed o | None => None end)
    (match jar_keys j with Some _ => true | None => false end).

Ltac run :=
  unfold bind, ret, throw, throw_if, this_keys, this_secure, super_get,
    super_has, super_set, super_delete, super_clear, this_keys_iter,
    Http.setCookie, Http.deleteCookie; simpl.

(** The jar after a loop of [deleteCookie] calls. *)
Definition with_calls (hs : list HeaderCall) (j : CookieJar) : CookieJar :=
  mkJar (jar_store j) (jar_res j ++ hs) (jar_secure j) (jar_keys j).

(** The error of a signing request on a jar without keys. *)
Definition keys_error : Exn := Error ".keys required for signed cookies".

(** ** Sample collaborators for concrete runs *)

(** A keyed hash that keeps key and data apart, so that two digests agree
    only on the same key and data. *)
Definition sample_hmac (key data : string) : string := key ++ "/" ++ data.

Definition sample_keygrip (current : string) (older : list string) : Keygrip :=
  mkKeygrip sample_hmac current older.

Definition sample_ms (s : string) : MsResult :=
  if (s =? "1s")%string then MsNum 1000
  else if (s =? "2500.5")%string then MsFraction 5001 1
  else MsUndefined.

Definition sample_Date_parse (s : string) : Date := InvalidDate.

(** The DEL character, outside the field-content grammar. *)
Definition DEL : string := String "127"%char "".

(** ** Notions for the properties beyond the claims *)

(** The cookie name a call on the response carries. *)
Definition call_name (h : HeaderCall) : string :=
  match h with
  | SetCookieCall c => Cookie.name c
  | DeleteCookieCall n => n
  end.

(** A call whose cookie name passes the field-content grammar. *)
Definition valid_call (h : HeaderCall) : Prop :=
  FIELD_CONTENT_REGEXP_test (call_name h) = true.

(** [j'] continues [j]: same [#secure] and [#keys], the calls made on the
    response so far are kept and the new ones satisfy [P], and unique keys
    stay unique. *)
Definition grows (P : HeaderCall -> Prop) (j j' : CookieJar) : Prop :=
  jar_secure j' = jar_secure j
  /\ jar_keys j' = jar_keys j
  /\ (exists hs, jar_res j' = (jar_res j ++ hs)%list /\ Forall P hs)
  /\ (store_wf (jar_store j) -> store_wf (jar_store j')).

(** A method body every run of which continues the jar it starts from,
    whether it returns or throws. *)
Definition steady (P : HeaderCall -> Prop) {A : Type} (m : M A) : Prop :=
  forall j, grows P j (snd (m j)).

(** The test of the loop of the second revision's [clear()]: the key
    contains ".sig" and its prefix up to the last ".sig" is in the store. *)
Definition clear_skips (st : Store) (key : string) : bool :=
  negb (lastIndexOf key ".sig" =? -1) &&
  map_has (substring 0 (Z.to_nat (lastIndexOf key ".sig")) key) st.

(** A method body every run of which relates the jar it leaves to the jar
    it starts from by [R], whether it returns or throws. *)
Definition keeps (R : CookieJar -> CookieJar -> Prop) {A : Type} (m : M A)
  : Prop :=
  forall j, R j (snd (m j)).

(** The store is the same. *)
Definition same_store (j j' : CookieJar) : Prop :=
  jar_store j' = jar_store j.

(** Every key outside [K] has the value it had. *)
Definition same_outside (K : string -> Prop) (j j' : CookieJar) : Prop :=
  forall k, ~ K k -> map_get k (jar_store j') = map_get k (jar_store j).

(** Every entry of the store was there before, with the same value. *)
Definition shrinks (j j' : CookieJar) : Prop :=
  forall k v, map_get k (jar_store j') = Some v ->
              map_get k (jar_store j) = Some v.

(** Every name in the store passes the field-content grammar.  The names
    of a [Cookie] request header that follows RFC 6265 do, and every
    method keeps it so. *)
Definition names_valid (st : Store) : bool :=
  forallb FIELD_CONTENT_REGEXP_test (map_keys st).

(** The names of the store pass the grammar after, if they do before. *)
Definition keeps_names (j j' : CookieJar) : Prop :=
  names_valid (jar_store j) = true -> names_valid (jar_store j') = true.

(** * Facts about the store and the validator *)

Lemma map_get_set_eq (k v : string) (m : Store) :
  map_get k (map_set k v m) = Some v.
Proof.
  induction m as [|[k' v'] m IH]; simpl.
  - now rewrite String.eqb_refl.
  - destruct (k' =? k)%string eqn:E; simpl.
    + now rewrite String.eqb_refl.
    + now rewrite E.
Qed.

Lemma map_get_set_neq (k k' v : string) (m : Store) :
  k <> k' -> map_get k' (map_set k v m) = map_get k' m.
Proof.
  intros Hne. induction m as [|[k0 v0] m IH]; simpl.
  - destruct (k =? k')%string eqn:E; [apply String.eqb_eq in E; contradiction | reflexivity].
  - destruct (k0 =? k)%string eqn:E; simpl.
    + apply String.eqb_eq in E. subst k0.
      destruct (k =? k')%string eqn:E'; [apply String.eqb_eq in E'; contradiction | reflexivity].
    + now rewrite IH.
Qed.

Lemma map_get_delete_eq (k : string) (m : Store) :
  map_get k (map_delete k m) = None.
Proof.
  induction m as [|[k' v'] m IH]; simpl; [reflexivity|].
  destruct (k' =? k)%string eqn:E; simpl; [assumption | now rewrite E].
Qed.

Lemma map_get_delete_neq (k k' : string) (m : Store) :
  k <> k' -> map_get k' (map_delete k m) = map_get k' m.
Proof.
  intros Hne. induction m as [|[k0 v0] m IH]; simpl; [reflexivity|].
  destruct (k0 =? k)%string eqn:E; simpl.
  - apply String.eqb_eq in E. subst k0.
    destruct (k =? k')%string eqn:E'; [apply String.eqb_eq in E'; contradiction | assumption].
  - now rewrite IH.
Qed.

Lemma map_has_set_eq (k v : string) (m : Store) :
  map_has k (map_set k v m) = true.
Proof. unfold map_has. now rewrite map_get_set_eq. Qed.

Lemma map_has_set_neq (k k' v : string) (m : Store) :
  k <> k' -> map_has k' (map_set k v m) = map_has k' m.
Proof. intros H. unfold map_has. now rewrite map_get_set_neq. Qed.

Lemma map_has_delete_eq (k : string) (m : Store) :
  map_has k (map_delete k m) = false.
Proof. unfold map_has. now rewrite map_get_delete_eq. Qed.

Lemma map_has_delete_neq (k k' : string) (m : Store) :
  k <> k' -> map_has k' (map_delete k m) = map_has k' m.
Proof. intros H. unfold map_has. now rewrite map_get_delete_neq. Qed.

Lemma map_has_get (k : string) (m : Store) (v : string) :
  map_get k m = Some v -> map_has k m = true.
Proof. unfold map_has. now intros ->. Qed.

Lemma map_has_false_get (k : string) (m : Store) :
  map_has k m = false -> map_get k m = None.
Proof. unfold map_has. destruct (map_get k m); [discriminate | reflexivity]. Qed.

Lemma map_keys_has (k : string) (m : Store) :
  In k (map_keys m) <-> map_has k m = true.
Proof.
  unfold map_has. induction m as [|[k' v'] m IH]; simpl.
  - split; [tauto | discriminate].
  - destruct (String.eqb_spec k' k) as [->|Hne].
    + split; auto.
    + rewrite <- IH. split; [intros [H|H]; [contradiction | exact H] | auto].
Qed.

Lemma names_valid_has (st : Store) :
  names_valid st = true
  <-> forall k, map_has k st = true -> FIELD_CONTENT_REGEXP_test k = true.
Proof.
  unfold names_valid. rewrite forallb_forall.
  split; intros H k Hk; apply H; now apply map_keys_has.
Qed.

(** A key that is absent is appended by [map_set]. *)
Lemma map_set_fresh (k v : string) (m : Store) :
  map_has k m = false -> map_set k v m = (m ++ [(k, v)])%list.
Proof.
  unfold map_has. induction m as [|[k' v'] m IH]; simpl; [reflexivity|].
  destruct (k' =? k)%string; [discriminate|].
  intros H. now rewrite IH.
Qed.

(** [Map.prototype.set] and [Map.prototype.delete] keep keys unique. *)
Lemma map_keys_set_in (k v k0 : string) (m : Store) :
  In k0 (map_keys (map_set k v m)) -> k0 = k \/ In k0 (map_keys m).
Proof.
  induction m as [|[k' v'] m IH]; simpl.
  - intros [H|[]]; auto.
  - destruct (k' =? k)%string eqn:E; simpl.
    + intros [H|H]; auto.
    + intros [H|H]; auto. destruct (IH H); auto.
Qed.

Lemma map_set_wf (k v : string) (m : Store) :
  store_wf m -> store_wf (map_set k v m).
Proof.
  unfold store_wf. induction m as [|[k' v'] m IH]; simpl; intros Hwf.
  - constructor; [intros [] | constructor].
  - inversion Hwf as [|? ? Hnin Hnd]; subst.
    destruct (k' =? k)%string eqn:E; simpl.
    + apply String.eqb_eq in E. subst k'. now constructor.
    + constructor; [|now apply IH].
      intros Hin. apply map_keys_set_in in Hin. destruct Hin as [->|Hin].
      * now rewrite String.eqb_refl in E.
      * contradiction.
Qed.

Lemma map_keys_delete_in (k k0 : string) (m : Store) :
  In k0 (map_keys (map_delete k m)) -> In k0 (map_keys m).
Proof.
  induction m as [|[k' v'] m IH]; simpl; [tauto|].
  destruct (k' =? k)%string; simpl; intros H; [auto|].
  destruct H; auto.
Qed.

Lemma map_delete_wf (k : string) (m : Store) :
  store_wf m -> store_wf (map_delete k m).
Proof.
  unfold store_wf. induction m as [|[k' v'] m IH]; simpl; intros Hwf; [constructor|].
  inversion Hwf as [|? ? Hnin Hnd]; subst.
  destruct (k' =? k)%string; simpl; [now apply IH|].
  constructor; [|now apply IH].
  intros Hin. now apply map_keys_delete_in in Hin.
Qed.

Lemma length_append (a b : string) :
  String.length (a ++ b) = (String.length a + String.length b)%nat.
Proof. induction a as [|c a IH]; simpl; [reflexivity | now rewrite IH]. Qed.

(** Appending ".sig" gives another name. *)
Lemma append_sig_neq (s : string) : (s ++ ".sig")%string <> s.
Proof.
  intros H. apply (f_equal String.length) in H.
  rewrite length_append in H. simpl in H. lia.
Qed.

Lemma all_field_chars_app (a b : string) :
  all_field_chars (a ++ b) = all_field_chars a && all_field_chars b.
Proof.
  induction a as [|c a IH]; simpl; [reflexivity|].
  now rewrite IH, andb_assoc.
Qed.

(** A shadow name passes the grammar exactly when every character of the
    base name does. *)
Lemma FIELD_CONTENT_sig (name : string) :
  FIELD_CONTENT_REGEXP_test (name ++ ".sig") = all_field_chars name.
Proof.
  unfold FIELD_CONTENT_REGEXP_test.
  rewrite all_field_chars_app. simpl all_field_chars at 2.
  destruct (name ++ ".sig" =? "")%string eqn:E.
  - apply String.eqb_eq in E. destruct name; discriminate.
  - simpl. unfold field_char. simpl. now rewrite andb_true_r.
Qed.

Lemma FIELD_CONTENT_sig_of_valid (name : string) :
  FIELD_CONTENT_REGEXP_test name = true ->
  FIELD_CONTENT_REGEXP_test (name ++ ".sig") = true.
Proof.
  rewrite FIELD_CONTENT_sig. unfold FIELD_CONTENT_REGEXP_test.
  now intros [_ H]%andb_true_iff.
Qed.

Lemma FIELD_CONTENT_nonempty (s : string) :
  FIELD_CONTENT_REGEXP_test s = true -> (s =? "")%string = false.
Proof.
  unfold FIELD_CONTENT_REGEXP_test.
  intros [H _]%andb_true_iff. now apply negb_true_iff in H.
Qed.

(** * How single calls run *)

Lemma Mod1_delete_valid (name : string) (j : CookieJar) :
  FIELD_CONTENT_REGEXP_test name = true ->
  Mod1.delete name j = (Return (map_has name (jar_store j)), deleted name j).
Proof. intros H. unfold Mod1.delete. run. now rewrite H. Qed.

Lemma Mod1_delete_invalid (name : string) (j : CookieJar) :
  FIELD_CONTENT_REGEXP_test name = false ->
  Mod1.delete name j = (Throw (TypeError "argument name is invalid"), j).
Proof. intros H. unfold Mod1.delete. run. now rewrite H. Qed.

Lemma Mod1_setCookie_writes (c : Cookie.t) (opts : CookieOptions.t) (j : CookieJar) :
  isTrue (CookieOptions.overwrite opts) || negb (map_has (Cookie.name c) (jar_store j)) = true ->
  Mod1.setCookie c opts j = (Return tt, stored c j).
Proof. intros H. unfold Mod1.setCookie. run. now rewrite H. Qed.

Lemma Mod1_setCookie_skips (c : Cookie.t) (opts : CookieOptions.t) (j : CookieJar) :
  isTrue (CookieOptions.overwrite opts) = false ->
  map_has (Cookie.name c) (jar_store j) = true ->
  Mod1.setCookie c opts j = (Return tt, j).
Proof. intros H1 H2. unfold Mod1.setCookie. run. now rewrite H1, H2. Qed.

Section Mod2_runs.

Variable ms : string -> MsResult.
Variable Date_now : Z.
Variable Date_parse : string -> Date.

Lemma Mod2_delete_valid (name : string) (j : CookieJar) :
  FIELD_CONTENT_REGEXP_test name = true ->
  Mod2.delete ms Date_now Date_parse name None j
  = (Return (map_has name (jar_store j)), deleted name j).
Proof. intros H. unfold Mod2.delete. run. now rewrite H. Qed.

Lemma Mod2_delete_invalid (name : string) (opts : option CookieOptions.t)
  (j : CookieJar) :
  FIELD_CONTENT_REGEXP_test name = false ->
  Mod2.delete ms Date_now Date_parse name opts j
  = (Throw (TypeError "argument name is invalid"), j).
Proof. intros H. unfold Mod2.delete. run. now rewrite H. Qed.

(** Without [overwrite], [set] returns at once on a name the store has,
    whenever it does not take the delete branch. *)
Lemma Mod2_set_present (name : string) (value : JsValue)
  (options : option CookieOptions.t) (j : CookieJar) :
  truthy value = true \/ options <> None ->
  isTrue (CookieOptions.overwrite (nullish options CookieOptions.empty)) = false ->
  map_has name (jar_store j) = true ->
  Mod2.set ms Date_now Date_parse name value options j = (Return tt, j).
Proof.
  intros Hv Ho Hp. unfold Mod2.set.
  assert (negb (truthy value) &&
          match options with Some _ => false | None => true end = false) as ->.
  { destruct Hv as [-> | Hv]; [reflexivity|].
    destruct options; [apply andb_false_r | contradiction]. }
  run. now rewrite Ho, Hp.
Qed.

End Mod2_runs.

(** Second revision: the private [setCookie] under options that set none
    of [secure], [sameSite], [maxAge] and [expires]. *)
Lemma Mod2_setCookie_plain (ms : string -> MsResult) (Date_now : Z)
  (Date_parse : string -> Date) (name : string) (value : JsValue)
  (opts : CookieOptions.t) (j : CookieJar) :
  CookieOptions.secure opts = None ->
  CookieOptions.sameSite opts = None ->
  CookieOptions.maxAge opts = None ->
  CookieOptions.expires opts = None ->
  let c := Cookie.mk name value None (CookieOptions.domain opts)
             (nullish (CookieOptions.path opts) "/")
             (nullish (CookieOptions.httpOnly opts) true) None None None in
  Mod2.setCookie ms Date_now Date_parse name value opts j
  = if signs (Some opts) j then
      match jar_keys j with
      | Some kg =>
          (Return true,
           with_res (SetCookieCall
                       (Cookie.rename (name ++ ".sig")
                          (JsString (sign kg ((name ++ ".sig") ++ "=" ++ toStr value))) c))
             (with_res (SetCookieCall c) j))
      | None =>
          (Throw (Error ".keys required for signed cookies"),
           with_res (SetCookieCall c) j)
      end
    else (Return true, with_res (SetCookieCall c) j).
Proof.
  intros H1 H2 H3 H4 c. unfold Mod2.setCookie, signs. run.
  rewrite H1, H2, H3, H4. simpl. rewrite andb_false_r. simpl.
  destruct (nullish (CookieOptions.signed opts) _); [|reflexivity].
  destruct (jar_keys j); reflexivity.
Qed.

(** Second revision: a signed [set] on a valid name the store lacks emits
    four directives and writes nothing to the store. *)
Lemma Mod2_signed_set_run (ms : string -> MsResult) (Date_now : Z)
  (Date_parse : string -> Date) (kg : Keygrip) (name v : string)
  (j : CookieJar) :
  jar_keys j = Some kg ->
  FIELD_CONTENT_REGEXP_test name = true ->
  FIELD_CONTENT_REGEXP_test v = true ->
  map_has name (jar_store j) = false ->
  let c := fun n x => Cookie.mk n (JsString x) None None "/" true None None None in
  let sg := sign kg ((name ++ ".sig") ++ "=" ++ v) in
  let sg2 := sign kg (((name ++ ".sig") ++ ".sig") ++ "=" ++ sg) in
  Mod2.set ms Date_now Date_parse name (JsString v)
    (Some (CookieOptions.only_signed true)) j
  = (Return tt,
     with_calls [SetCookieCall (c name v);
                 SetCookieCall (c (name ++ ".sig") sg);
                 SetCookieCall (c (name ++ ".sig") sg);
                 SetCookieCall (c ((name ++ ".sig") ++ ".sig") sg2)] j).
Proof.
  intros Hk Hn Hv Hp c sg sg2. unfold Mod2.set. simpl.
  rewrite (FIELD_CONTENT_nonempty _ Hv). simpl.
  unfold andString. simpl. rewrite (FIELD_CONTENT_nonempty _ Hv). simpl.
  unfold bind, super_has, throw_if, this_keys, ret. rewrite Hp, Hn, Hv. simpl.
  rewrite andb_false_r. simpl.
  rewrite Mod2_setCookie_plain by reflexivity.
  unfold signs. simpl. rewrite Hk. simpl. rewrite Hk.
  rewrite Mod2_setCookie_plain by reflexivity.
  unfold signs. simpl. rewrite Hk.
  unfold with_calls, with_res. simpl. rewrite <- !app_assoc. simpl.
  now rewrite ?Hk.
Qed.

(** * C8: a nullish value deletes *)

(** C8, counterexample.  Second revision: with an options object,
    [set("n", null, {})] on a jar that holds "n" returns without touching
    anything, and on a jar that does not hold "n" asks the transport for a
    cookie whose value is [null]; [delete("n")] removes the entry and
    emits an expiring directive. *)
Lemma nullish_set_with_options_counterexample :
  let j := new_CookieJar [("n", "v")] [] None in
  let j0 := new_CookieJar [] [] None in
  Mod2.set sample_ms 0 sample_Date_parse "n" JsNull (Some CookieOptions.empty) j
  = (Return tt, j)
  /\ Mod2.delete sample_ms 0 sample_Date_parse "n" None j
     = (Return true, mkJar [] [DeleteCookieCall "n"] false None)
  /\ Mod2.set sample_ms 0 sample_Date_parse "n" JsNull (Some CookieOptions.empty) j0
     = (Return tt,
        mkJar [] [SetCookieCall
                    (Cookie.mk "n" JsNull None None "/" true None None None)]
          false None).
Proof. repeat split. Qed.

(** C8, amended.  [set(name, null)] and [set(name, undefined)] run
    [delete(name)]: in the first revision whatever the options are, in the
    second revision when no options object is passed.  For a name that
    passes the grammar the entry is removed and one expiring directive is
    emitted; for any other name the [TypeError] of [delete] is raised and
    nothing changes. *)
Theorem nullish_set_is_delete (ms : string -> MsResult) (Date_now : Z)
  (Date_parse : string -> Date) (name : string) (value : JsValue)
  (options : option CookieOptions.t) (j : CookieJar) :
  value = JsNull \/ value = JsUndefined ->
  Mod1.set name value options j = (Mod1.delete name ;; ret tt) j
  /\ Mod2.set ms Date_now Date_parse name value None j
     = (Mod2.delete ms Date_now Date_parse name None ;; ret tt) j
  /\ Mod1.set name value options j
     = Mod2.set ms Date_now Date_parse name value None j
  /\ Mod1.set name value options j
     = (if FIELD_CONTENT_REGEXP_test name
        then (Return tt, deleted name j)
        else (Throw (TypeError "argument name is invalid"), j))
  /\ map_has name (jar_store (deleted name j)) = false.
Proof.
  intros Hv.
  assert (truthy value = false) as Ht by (destruct Hv; subst; reflexivity).
  assert (Mod1.set name value options j = (Mod1.delete name ;; ret tt) j) as E1.
  { unfold Mod1.set. now rewrite Ht. }
  assert (Mod2.set ms Date_now Date_parse name value None j
          = (Mod2.delete ms Date_now Date_parse name None ;; ret tt) j) as E2.
  { unfold Mod2.set. now rewrite Ht. }
  assert (Mod1.set name value options j
          = (if FIELD_CONTENT_REGEXP_test name
             then (Return tt, deleted name j)
             else (Throw (TypeError "argument name is invalid"), j))) as E3.
  { rewrite E1. unfold bind.
    destruct (FIELD_CONTENT_REGEXP_test name) eqn:E.
    - now rewrite Mod1_delete_valid.
    - now rewrite Mod1_delete_invalid. }
  repeat split; try assumption.
  - rewrite E3, E2. unfold bind.
    destruct (FIELD_CONTENT_REGEXP_test name) eqn:E.
    + now rewrite Mod2_delete_valid.
    + now rewrite Mod2_delete_invalid.
  - apply map_has_delete_eq.
Qed.

Lemma nullish_set_is_delete_witness :
  let j := new_CookieJar [("n", "v"); ("m", "w")] [] None in
  Mod1.set "n" JsNull (Some CookieOptions.empty) j
  = (Return tt, mkJar [("m", "w")] [DeleteCookieCall "n"] false None).
Proof.
  intros j.
  destruct (nullish_set_is_delete sample_ms 0 sample_Date_parse "n" JsNull
              (Some CookieOptions.empty) j (or_introl eq_refl))
    as (_ & _ & _ & E & _).
  exact E.
Defined.

(** * C4: a forged signature *)

(** C4.  Forged signature.  On a jar whose stored names pass the
    field-content grammar (as the names of a request do, and as every
    method keeps them, see [names_stay_valid]): when signing is in effect
    and no key matches the stored signature (position -1), [get] returns
    absent and removes the shadow entry, with one expiring directive for
    it; [has("<name>.sig")] is false afterwards, and the base entry is as
    it was. *)
Theorem forged_signature_removes_shadow (ms : string -> MsResult)
  (Date_now : Z) (Date_parse : string -> Date) (name sg : string)
  (kg : Keygrip) (opts : option CookieOptions.t) (j : CookieJar) :
  names_valid (jar_store j) = true ->
  signs opts j = true ->
  jar_keys j = Some kg ->
  map_get (name ++ ".sig") (jar_store j) = Some sg ->
  sg <> ""%string ->
  index kg (name ++ "=" ++ toStr (ofLookup (map_get name (jar_store j)))) sg = -1 ->
  let j' := deleted (name ++ ".sig") j in
  Mod1.get name opts j = (Return None, j')
  /\ Mod2.get ms Date_now Date_parse name opts j = (Return None, j')
  /\ Mod1.has (name ++ ".sig") j' = (Return false, j')
  /\ Mod2.has (name ++ ".sig") j' = (Return false, j')
  /\ map_get name (jar_store j') = map_get name (jar_store j).
Proof.
  intros Hnames Hs Hk Hg Hne Hi j'.
  assert (FIELD_CONTENT_REGEXP_test (name ++ ".sig") = true) as Hv.
  { apply (proj1 (names_valid_has (jar_store j)) Hnames).
    exact (map_has_get _ _ _ Hg). }
  assert ((sg =? "")%string = false) as Hsg by now apply String.eqb_neq.
  unfold signs in Hs. simpl in Hi.
  split; [|split; [|split; [|split]]].
  - unfold Mod1.get. run. rewrite Hk in *. rewrite Hs. simpl.
    rewrite Hg. simpl. rewrite Hsg. simpl. rewrite Hi. simpl.
    unfold bind. now rewrite Mod1_delete_valid.
  - unfold Mod2.get. run. rewrite Hk in *. rewrite Hs.
    rewrite Hg. simpl. rewrite Hsg. simpl. rewrite Hi. simpl.
    unfold bind. now rewrite Mod2_delete_valid.
  - unfold Mod1.has. run. unfold j'. simpl. now rewrite map_has_delete_eq.
  - unfold Mod2.has. run. unfold j'. simpl. now rewrite map_has_delete_eq.
  - unfold j'. simpl. apply map_get_delete_neq, append_sig_neq.
Qed.

Lemma forged_signature_removes_shadow_witness :
  let kg := sample_keygrip "k" [] in
  let j := new_CookieJar [("n", "v"); ("n.sig", "forged")] []
             (Some (mkJarOptions (Some kg) None)) in
  let j' := mkJar [("n", "v")] [DeleteCookieCall "n.sig"] false (Some kg) in
  Mod1.get "n" None j = (Return None, j')
  /\ Mod2.get sample_ms 0 sample_Date_parse "n" None j = (Return None, j')
  /\ Mod1.has "n.sig" j' = (Return false, j').
Proof.
  intros kg j j'.
  assert ("forged"%string <> ""%string) as Hne by discriminate.
  destruct (forged_signature_removes_shadow sample_ms 0 sample_Date_parse
              "n" "forged" kg None j eq_refl eq_refl eq_refl eq_refl Hne eq_refl)
    as (E1 & E2 & E3 & _).
  split; [exact E1|]. split; [exact E2 | exact E3].
Defined.

(** * C3: key rotation *)

(** A signature found at a later position is not the current key's. *)
Lemma index_positive_not_current (kg : Keygrip) (data sg : string) :
  0 < index kg data sg -> sg <> sign kg data.
Proof.
  unfold index, sign, kg_keys. simpl. intros H E.
  apply String.eqb_eq in E. rewrite E in H. lia.
Qed.

(** [set] on a name the store has, with a valid non-empty value, without
    [overwrite] and with [signed: false], changes nothing (first revision). *)
Lemma Mod1_set_unsigned_present (name v : string) (j : CookieJar) :
  FIELD_CONTENT_REGEXP_test name = true ->
  FIELD_CONTENT_REGEXP_test v = true ->
  map_has name (jar_store j) = true ->
  Mod1.set name (JsString v) (Some (CookieOptions.only_signed false)) j
  = (Return tt, j).
Proof.
  intros Hn Hv Hp. unfold Mod1.set. simpl.
  rewrite (FIELD_CONTENT_nonempty _ Hv). simpl.
  run. rewrite Hn, Hv. simpl. rewrite andb_false_r. simpl.
  unfold bind. rewrite Mod1_setCookie_skips by (simpl; auto). reflexivity.
Qed.

(** C3.  A cookie whose signature matches an older key (position > 0):
    [get] returns the value, and its call of [set] for the shadow name is
    dropped by the overwrite policy, because the shadow name is in the
    store and [overwrite] is not passed.  The jar is left exactly as it
    was: the old signature stays, no directive is emitted, and the next
    [get] finds the signature at the same position again. *)
Theorem rotation_resign_is_dropped (ms : string -> MsResult) (Date_now : Z)
  (Date_parse : string -> Date) (name sg : string) (kg : Keygrip)
  (opts : option CookieOptions.t) (j : CookieJar) :
  signs opts j = true ->
  jar_keys j = Some kg ->
  map_get (name ++ ".sig") (jar_store j) = Some sg ->
  sg <> ""%string ->
  0 < index kg (name ++ "=" ++ toStr (ofLookup (map_get name (jar_store j)))) sg ->
  FIELD_CONTENT_REGEXP_test (name ++ ".sig") = true ->
  FIELD_CONTENT_REGEXP_test
    (sign kg (name ++ "=" ++ toStr (ofLookup (map_get name (jar_store j))))) = true ->
  Mod1.get name opts j = (Return (map_get name (jar_store j)), j)
  /\ Mod2.get ms Date_now Date_parse name opts j
     = (Return (map_get name (jar_store j)), j)
  /\ sg <> sign kg (name ++ "=" ++ toStr (ofLookup (map_get name (jar_store j)))).
Proof.
  intros Hs Hk Hg Hne Hi Hv Hf.
  assert ((sg =? "")%string = false) as Hsg by now apply String.eqb_neq.
  pose proof (index_positive_not_current _ _ _ Hi) as Hold.
  pose proof (map_has_get _ _ _ Hg) as Hp.
  unfold signs in Hs. simpl in Hi, Hf.
  repeat split.
  - unfold Mod1.get. run. rewrite Hk in *. rewrite Hs. simpl.
    rewrite Hg. simpl. rewrite Hsg. simpl.
    destruct (Z.eqb_spec (index kg (name ++ String "=" (toStr (ofLookup (map_get name (jar_store j))))) sg) (-1)) as [E|_]; [lia|].
    destruct (Z.eqb_spec (index kg (name ++ String "=" (toStr (ofLookup (map_get name (jar_store j))))) sg) 0) as [E|_]; [lia|].
    rewrite Mod1_set_unsigned_present by assumption. reflexivity.
  - unfold Mod2.get. run. rewrite Hk in *. rewrite Hs.
    rewrite Hg. simpl. rewrite Hsg. simpl.
    destruct (Z.eqb_spec (index kg (name ++ String "=" (toStr (ofLookup (map_get name (jar_store j))))) sg) (-1)) as [E|_]; [lia|].
    destruct (Z.eqb_spec (index kg (name ++ String "=" (toStr (ofLookup (map_get name (jar_store j))))) sg) 0) as [E|_]; [lia|].
    rewrite Mod2_set_present; auto.
    right; discriminate.
  - simpl. exact Hold.
Qed.

Lemma rotation_resign_is_dropped_witness :
  let kg := sample_keygrip "k2" ["k1"] in
  let j := new_CookieJar [("n", "v"); ("n.sig", sample_hmac "k1" "n=v")] []
             (Some (mkJarOptions (Some kg) None)) in
  index kg "n=v" (sample_hmac "k1" "n=v") = 1
  /\ Mod1.get "n" None j = (Return (Some "v"), j)
  /\ Mod2.get sample_ms 0 sample_Date_parse "n" None j = (Return (Some "v"), j).
Proof.
  intros kg j. split; [reflexivity|].
  destruct (rotation_resign_is_dropped sample_ms 0 sample_Date_parse
              "n" (sample_hmac "k1" "n=v") kg None j) as (E1 & E2 & _);
    try reflexivity; [discriminate|].
  split; [exact E1 | exact E2].
Defined.

(** * C7: base and shadow entries *)

Lemma map_set_fresh_pair (k1 v1 k2 v2 : string) (m : Store) :
  map_has k1 m = false -> map_has k2 m = false -> k1 <> k2 ->
  (m ++ [(k1, v1); (k2, v2)])%list = map_set k2 v2 (map_set k1 v1 m).
Proof.
  intros H1 H2 Hne.
  rewrite (map_set_fresh k2) by (rewrite map_has_set_neq; assumption).
  rewrite (map_set_fresh k1) by assumption.
  now rewrite <- app_assoc.
Qed.

Lemma Mod1_clear_loop_run (ks : list string) (j : CookieJar) :
  Mod1.clear_loop ks j = (Return tt, with_calls (map DeleteCookieCall ks) j).
Proof.
  revert j. induction ks as [|k ks IH]; intros j; simpl.
  - unfold ret, with_calls. rewrite app_nil_r. now destruct j.
  - run. unfold bind in IH. rewrite IH. unfold with_calls, with_res. simpl.
    now rewrite <- app_assoc.
Qed.

Lemma Mod2_clear_loop_run (ks : list string) (j : CookieJar) :
  exists hs, Mod2.clear_loop ks j = (Return tt, with_calls hs j).
Proof.
  revert j. induction ks as [|k ks IH]; intros j; simpl.
  - exists []. unfold ret, with_calls. rewrite app_nil_r. now destruct j.
  - run.
    destruct (negb (lastIndexOf k ".sig" =? -1) &&
              map_has (substring 0 (Z.to_nat (lastIndexOf k ".sig")) k) (jar_store j)).
    + destruct (IH j) as [hs E]. exists hs. now rewrite E.
    + destruct (IH (with_res (DeleteCookieCall k) j)) as [hs E].
      exists (DeleteCookieCall k :: hs). rewrite E.
      unfold with_calls, with_res. simpl. now rewrite <- app_assoc.
Qed.

(** [clear()] empties the store in both revisions. *)
Lemma clear_empties_store (j : CookieJar) :
  (exists j', Mod1.clear j = (Return tt, j') /\ jar_store j' = [])
  /\ (exists j', Mod2.clear j = (Return tt, j') /\ jar_store j' = []).
Proof.
  split.
  - unfold Mod1.clear. run. rewrite Mod1_clear_loop_run. eexists; split; reflexivity.
  - unfold Mod2.clear. run.
    destruct (Mod2_clear_loop_run (map_keys (jar_store j)) j) as [hs E].
    rewrite E. eexists; split; reflexivity.
Qed.

(** A signed [set] on a valid name that has neither entry writes the base
    entry and one shadow entry, with one directive each (first revision). *)
Lemma Mod1_signed_set_fresh (kg : Keygrip) (name v : string) (j : CookieJar) :
  jar_keys j = Some kg ->
  FIELD_CONTENT_REGEXP_test name = true ->
  FIELD_CONTENT_REGEXP_test v = true ->
  map_has name (jar_store j) = false ->
  map_has (name ++ ".sig") (jar_store j) = false ->
  let base := Cookie.mk name (JsString v) (Some false) None "/" true None None None in
  let sg := sign kg ((name ++ ".sig") ++ "=" ++ v) in
  let shadow := Cookie.rename (name ++ ".sig") (JsString sg) base in
  Mod1.set name (JsString v) (Some (CookieOptions.only_signed true)) j
  = (Return tt,
     mkJar (jar_store j ++ [(name, v); ((name ++ ".sig")%string, sg)])%list
       (jar_res j ++ [SetCookieCall base; SetCookieCall shadow])%list
       (jar_secure j) (jar_keys j)).
Proof.
  intros Hk Hn Hv Hb Hs base sg shadow. unfold Mod1.set. simpl.
  rewrite (FIELD_CONTENT_nonempty _ Hv). simpl.
  run. rewrite Hn, Hv. simpl. rewrite andb_false_r. simpl.
  unfold bind. rewrite Mod1_setCookie_writes by (simpl; rewrite Hb; reflexivity).
  simpl. rewrite Hk.
  assert (map_has (name ++ ".sig") (map_set name v (jar_store j)) = false) as Hs'.
  { rewrite map_has_set_neq; [assumption|].
    intros E; symmetry in E; now apply append_sig_neq in E. }
  rewrite Mod1_setCookie_writes by (simpl; rewrite Hs'; reflexivity).
  unfold stored, with_store, with_res. simpl.
  rewrite (map_set_fresh (name ++ ".sig")) by assumption.
  rewrite (map_set_fresh name) by assumption.
  rewrite <- !app_assoc. simpl. now rewrite ?Hk.
Qed.

(** Second revision: [delete(name, {})] on a jar with keys expires the
    cookie and its shadow on the wire, and removes the entry of [name]
    alone from the store. *)
Lemma Mod2_delete_signed_run (ms : string -> MsResult) (Date_now : Z)
  (Date_parse : string -> Date) (kg : Keygrip) (name : string)
  (j : CookieJar) :
  jar_keys j = Some kg ->
  FIELD_CONTENT_REGEXP_test name = true ->
  let c := fun n x => Cookie.mk n (JsString x) None None "/" true None
                        (Some (MaxAgeStr "")) (Some (ExpDate (DateMs 0))) in
  let sg := sign kg ((name ++ ".sig") ++ "=" ++ "") in
  Mod2.delete ms Date_now Date_parse name (Some CookieOptions.empty) j
  = (Return (map_has name (jar_store j)),
     with_store (map_delete name)
       (with_calls [SetCookieCall (c name "");
                    SetCookieCall (c (name ++ ".sig") sg)] j)).
Proof.
  intros Hk Hn c sg. destruct j as [st rs sec ks]. simpl in Hk. subst ks.
  unfold Mod2.delete, Mod2.setCookie, Mod2.parse_sameSite, Mod2.parse_maxAge.
  run. rewrite Hn. simpl. rewrite andb_false_r. simpl.
  unfold with_store, with_calls. simpl. now rewrite <- app_assoc.
Qed.

(** C7.  Base and shadow entries are not mutated together.  For a signed
    [set] on a valid name with neither entry in the store, the first
    revision creates the base entry and one shadow entry, and the second
    revision creates neither and emits four directives.  [delete(name)]
    removes the entry of [name] alone in both revisions: the shadow entry
    stays in the store without its base.  The second revision's
    [delete(name, {})] on a jar with keys expires both cookies on the
    wire and still leaves the shadow entry in the store. *)
Theorem shadow_pair_broken (ms : string -> MsResult) (Date_now : Z)
  (Date_parse : string -> Date) (kg : Keygrip) (name v : string)
  (j : CookieJar) :
  jar_keys j = Some kg ->
  FIELD_CONTENT_REGEXP_test name = true ->
  FIELD_CONTENT_REGEXP_test v = true ->
  map_has name (jar_store j) = false ->
  map_has (name ++ ".sig") (jar_store j) = false ->
  let so := Some (CookieOptions.only_signed true) in
  let sg := sign kg ((name ++ ".sig") ++ "=" ++ v) in
  exists (j1 j2 : CookieJar) (hs : list HeaderCall),
    Mod1.set name (JsString v) so j = (Return tt, j1)
    /\ jar_store j1
       = (jar_store j ++ [(name, v); ((name ++ ".sig")%string, sg)])%list
    /\ Mod2.set ms Date_now Date_parse name (JsString v) so j = (Return tt, j2)
    /\ jar_store j2 = jar_store j
    /\ List.length (jar_res j2) = (List.length (jar_res j) + 4)%nat
    /\ Mod1.delete name j1 = (Return true, deleted name j1)
    /\ Mod2.delete ms Date_now Date_parse name None j1
       = (Return true, deleted name j1)
    /\ jar_res (deleted name j1) = (jar_res j1 ++ [DeleteCookieCall name])%list
    /\ map_has name (jar_store (deleted name j1)) = false
    /\ map_get (name ++ ".sig") (jar_store (deleted name j1)) = Some sg
    /\ Mod2.delete ms Date_now Date_parse name (Some CookieOptions.empty) j1
       = (Return true, with_store (map_delete name) (with_calls hs j1))
    /\ map call_name hs = [name; (name ++ ".sig")%string]
    /\ map_get (name ++ ".sig") (map_delete name (jar_store j1)) = Some sg.
Proof.
  intros Hk Hn Hv Hb Hs so sg.
  pose proof (Mod1_signed_set_fresh kg name v j Hk Hn Hv Hb Hs) as E.
  cbv zeta in E. fold sg in E.
  assert (name <> (name ++ ".sig")%string) as Hne
    by (intros X; symmetry in X; now apply append_sig_neq in X).
  assert (map_get name (jar_store j ++ [(name, v); ((name ++ ".sig")%string, sg)])%list
          = Some v) as Hbase.
  { rewrite map_set_fresh_pair by assumption.
    rewrite map_get_set_neq by (intros X; symmetry in X; contradiction).
    apply map_get_set_eq. }
  assert (map_get (name ++ ".sig")
            (jar_store j ++ [(name, v); ((name ++ ".sig")%string, sg)])%list
          = Some sg) as Hshadow.
  { rewrite map_set_fresh_pair by assumption. apply map_get_set_eq. }
  eexists. eexists. eexists.
  split; [exact E|]. split; [reflexivity|].
  split; [apply (Mod2_signed_set_run ms Date_now Date_parse kg); assumption|].
  split; [reflexivity|].
  split; [simpl; rewrite length_app; reflexivity|].
  split.
  { rewrite Mod1_delete_valid by assumption. simpl.
    now rewrite (map_has_get _ _ _ Hbase). }
  split.
  { rewrite Mod2_delete_valid by assumption. simpl.
    now rewrite (map_has_get _ _ _ Hbase). }
  split; [reflexivity|].
  split; [simpl; apply map_has_delete_eq|].
  split; [simpl; rewrite map_get_delete_neq by assumption; exact Hshadow|].
  split.
  { rewrite (Mod2_delete_signed_run ms Date_now Date_parse kg) by assumption.
    simpl. rewrite (map_has_get _ _ _ Hbase). reflexivity. }
  split; [reflexivity|].
  simpl. rewrite map_get_delete_neq by assumption. exact Hshadow.
Qed.

Lemma shadow_pair_broken_witness :
  let kg := sample_keygrip "k1" [] in
  let j := new_CookieJar [] []
             (Some (mkJarOptions (Some kg) (Some true))) in
  let so := Some (CookieOptions.only_signed true) in
  exists j1 j2 hs,
    Mod1.set "n" (JsString "v") so j = (Return tt, j1)
    /\ jar_store j1 = [("n", "v"); ("n.sig", sign kg "n.sig=v")]
    /\ Mod2.set sample_ms 0 sample_Date_parse "n" (JsString "v") so j
       = (Return tt, j2)
    /\ jar_store j2 = []
    /\ List.length (jar_res j2) = 4%nat
    /\ Mod1.delete "n" j1 = (Return true, deleted "n" j1)
    /\ map_get "n.sig" (jar_store (deleted "n" j1)) = Some (sign kg "n.sig=v")
    /\ Mod2.delete sample_ms 0 sample_Date_parse "n" (Some CookieOptions.empty) j1
       = (Return true, with_store (map_delete "n") (with_calls hs j1))
    /\ map call_name hs = ["n"; "n.sig"]
    /\ map_get "n.sig" (map_delete "n" (jar_store j1)) = Some (sign kg "n.sig=v").
Proof.
  intros kg j so.
  destruct (shadow_pair_broken sample_ms 0 sample_Date_parse kg
              "n" "v" j eq_refl eq_refl eq_refl eq_refl eq_refl)
    as (j1 & j2 & hs & E1 & E2 & E3 & E4 & E5 & E6 & _ & _ & _ & E7 & E8 & E9 & E10).
  exists j1, j2, hs.
  split; [exact E1|]. split; [exact E2|]. split; [exact E3|].
  split; [exact E4|]. split; [exact E5|]. split; [exact E6|].
  split; [exact E7|]. split; [exact E8|]. split; [exact E9 | exact E10].
Defined.

(** The store of a request that carries a cookie and its shadow, after
    [delete]: the shadow is left behind. *)
Example delete_leaves_shadow :
  let j := new_CookieJar [("n", "v"); ("n.sig", "s")] [] None in
  let j' := mkJar [("n.sig", "s")] [DeleteCookieCall "n"] false None in
  Mod1.delete "n" j = (Return true, j')
  /\ Mod2.delete sample_ms 0 sample_Date_parse "n" None j = (Return true, j')
  /\ Mod1.has "n.sig" j' = (Return true, j')
  /\ Mod1.has "n" j' = (Return false, j').
Proof. repeat split. Qed.

(** * C6: the overwrite policy *)

(** First revision: on a name the store has, without [overwrite], a call
    with a non-empty value leaves the jar as it was, or (when it signs and
    the shadow entry is missing) creates the shadow entry and nothing
    else.  The call may still throw. *)
Lemma Mod1_set_present_effect (name v : string)
  (options : option CookieOptions.t) (j : CookieJar) :
  v <> ""%string ->
  map_has name (jar_store j) = true ->
  isTrue (CookieOptions.overwrite (nullish options CookieOptions.empty)) = false ->
  snd (Mod1.set name (JsString v) options j) = j
  \/ (signs options j = true
      /\ map_has (name ++ ".sig") (jar_store j) = false
      /\ exists c, Cookie.name c = (name ++ ".sig")%string
                   /\ snd (Mod1.set name (JsString v) options j) = stored c j).
Proof.
  intros Hv Hp Ho. apply String.eqb_neq in Hv.
  unfold Mod1.set. simpl. rewrite Hv. simpl.
  set (opts := nullish options CookieOptions.empty) in *.
  assert (signs options j
          = nullish (CookieOptions.signed opts)
              (match jar_keys j with Some _ => true | None => false end)) as Esig.
  { unfold signs, opts. now destruct options. }
  unfold bind, throw_if, throw, ret, this_secure, this_keys.
  destruct (negb (FIELD_CONTENT_REGEXP_test name)); [now left|].
  destruct (negb (FIELD_CONTENT_REGEXP_test v)); [now left|].
  destruct (nonEmpty (CookieOptions.path opts) && _); [now left|].
  destruct (nonEmpty (CookieOptions.domain opts) && _); [now left|].
  destruct (sameSite_truthy (CookieOptions.sameSite opts) && _); [now left|].
  destruct (negb (jar_secure j) && _); [now left|].
  rewrite Mod1_setCookie_skips by assumption.
  rewrite <- Esig.
  destruct (signs options j) eqn:E; [|now left].
  destruct (jar_keys j); [|now left].
  destruct (map_has (name ++ ".sig") (jar_store j)) eqn:Hs.
  - rewrite Mod1_setCookie_skips by assumption. now left.
  - rewrite Mod1_setCookie_writes by (simpl; rewrite Hs; apply orb_true_r).
    right. repeat split. eexists. split; [|reflexivity]. reflexivity.
Qed.

(** First revision: with [{ overwrite: true }] the stored value is
    replaced. *)
Lemma Mod1_set_overwrite_replaces (name v : string) (j : CookieJar) :
  FIELD_CONTENT_REGEXP_test name = true ->
  FIELD_CONTENT_REGEXP_test v = true ->
  exists j', Mod1.set name (JsString v)
               (Some (CookieOptions.only_overwrite true)) j = (Return tt, j')
             /\ map_get name (jar_store j') = Some v.
Proof.
  intros Hn Hv. unfold Mod1.set. simpl.
  rewrite (FIELD_CONTENT_nonempty _ Hv). simpl.
  run. rewrite Hn, Hv. simpl. rewrite andb_false_r. simpl.
  destruct (jar_keys j) as [kg|].
  - rewrite Mod1_setCookie_writes by reflexivity.
    eexists; split; [reflexivity|]. simpl.
    rewrite map_get_set_neq by apply append_sig_neq.
    apply map_get_set_eq.
  - eexists; split; [reflexivity|]. simpl. apply map_get_set_eq.
Qed.

(** First revision: on a name the store has, a signing call without
    [overwrite] whose shadow entry is missing keeps the base entry and
    creates the shadow entry, with one directive. *)
Lemma Mod1_set_present_creates_shadow (kg : Keygrip) (name v : string)
  (j : CookieJar) :
  jar_keys j = Some kg ->
  FIELD_CONTENT_REGEXP_test name = true ->
  FIELD_CONTENT_REGEXP_test v = true ->
  map_has name (jar_store j) = true ->
  map_has (name ++ ".sig") (jar_store j) = false ->
  let sg := sign kg ((name ++ ".sig") ++ "=" ++ v) in
  let shadow := Cookie.mk (name ++ ".sig") (JsString sg) (Some false) None "/"
                  true None None None in
  Mod1.set name (JsString v) None j = (Return tt, stored shadow j).
Proof.
  intros Hk Hn Hv Hb Hs sg shadow. unfold Mod1.set. simpl.
  rewrite (FIELD_CONTENT_nonempty _ Hv). simpl.
  run. rewrite Hn, Hv. simpl. rewrite andb_false_r. simpl.
  unfold bind. rewrite Mod1_setCookie_skips by (simpl; auto).
  rewrite Hk. simpl.
  rewrite Mod1_setCookie_writes by (simpl; rewrite Hs; reflexivity).
  reflexivity.
Qed.

(** Second revision: [set(name, v, { overwrite: true })] with valid name
    and value calls the transport and returns; the store is not written. *)
Lemma Mod2_set_overwrite_run (ms : string -> MsResult) (Date_now : Z)
  (Date_parse : string -> Date) (name v : string) (j : CookieJar) :
  FIELD_CONTENT_REGEXP_test name = true ->
  FIELD_CONTENT_REGEXP_test v = true ->
  exists hs,
    hs <> []
    /\ Mod2.set ms Date_now Date_parse name (JsString v)
         (Some (CookieOptions.only_overwrite true)) j
       = (Return tt, with_calls hs j).
Proof.
  intros Hn Hv. unfold Mod2.set. simpl.
  rewrite (FIELD_CONTENT_nonempty _ Hv). simpl.
  unfold andString. simpl. rewrite (FIELD_CONTENT_nonempty _ Hv). simpl.
  unfold bind, super_has, throw_if, this_keys, ret. rewrite Hn, Hv. simpl.
  rewrite andb_false_r. simpl.
  rewrite Mod2_setCookie_plain by reflexivity.
  unfold signs. simpl.
  destruct (jar_keys j) as [kg|] eqn:Hk; simpl.
  - rewrite Hk. rewrite Mod2_setCookie_plain by reflexivity.
    unfold signs. simpl. rewrite Hk.
    eexists (_ :: _ :: _ :: _ :: nil). split; [discriminate|].
    unfold with_calls, with_res. simpl. rewrite <- !app_assoc. simpl.
    now rewrite ?Hk.
  - rewrite Hk.
    eexists (_ :: nil). split; [discriminate|].
    unfold with_calls, with_res. simpl. now rewrite ?Hk.
Qed.

(** C6.  The overwrite policy, on a name the store has, with a name and
    a value that pass the grammar.  Each revision keeps one half of it
    and misses the other.  With [{ overwrite: true }] the first revision
    replaces the stored value by [v]; the second revision calls the
    transport and leaves the stored value as it was.  Without
    [overwrite] the second revision returns at once; the first revision,
    when it signs and the shadow entry is missing, emits a directive for
    "<name>.sig" and stores it. *)
Theorem overwrite_policy_slips (ms : string -> MsResult) (Date_now : Z)
  (Date_parse : string -> Date) (kg : Keygrip) (name v w : string)
  (j : CookieJar) :
  FIELD_CONTENT_REGEXP_test name = true ->
  FIELD_CONTENT_REGEXP_test v = true ->
  map_get name (jar_store j) = Some w ->
  let ow := Some (CookieOptions.only_overwrite true) in
  let unsigned := Some (CookieOptions.only_signed false) in
  (exists j1,
     Mod1.set name (JsString v) ow j = (Return tt, j1)
     /\ map_get name (jar_store j1) = Some v)
  /\ (exists hs,
        let j2 := with_calls hs j in
        hs <> []
        /\ Mod2.set ms Date_now Date_parse name (JsString v) ow j = (Return tt, j2)
        /\ jar_store j2 = jar_store j
        /\ Mod2.get ms Date_now Date_parse name unsigned j2 = (Return (Some w), j2))
  /\ Mod2.set ms Date_now Date_parse name (JsString v) None j = (Return tt, j)
  /\ (jar_keys j = Some kg ->
      map_has (name ++ ".sig") (jar_store j) = false ->
      exists shadow,
        Cookie.name shadow = (name ++ ".sig")%string
        /\ Mod1.set name (JsString v) None j = (Return tt, stored shadow j)
        /\ jar_res (stored shadow j) = (jar_res j ++ [SetCookieCall shadow])%list
        /\ map_has (name ++ ".sig") (jar_store (stored shadow j)) = true).
Proof.
  intros Hn Hv Hg ow unsigned.
  pose proof (map_has_get _ _ _ Hg) as Hp.
  split; [now apply Mod1_set_overwrite_replaces|].
  split; [|split].
  - destruct (Mod2_set_overwrite_run ms Date_now Date_parse name v j Hn Hv)
      as (hs & Hhs & E).
    exists hs. cbv zeta. split; [exact Hhs|]. split; [exact E|].
    split; [reflexivity|].
    unfold Mod2.get. run. now rewrite Hg.
  - apply Mod2_set_present; auto. left. simpl.
    now rewrite (FIELD_CONTENT_nonempty _ Hv).
  - intros Hk Hs. eexists. split; [|split; [|split]].
    2: apply (Mod1_set_present_creates_shadow kg); assumption.
    + reflexivity.
    + reflexivity.
    + simpl. apply map_has_set_eq.
Qed.

Lemma overwrite_policy_slips_witness :
  let kg := sample_keygrip "k1" [] in
  let j := new_CookieJar [("n", "a")] [] None in
  let jk := new_CookieJar [("n", "a")] [] (Some (mkJarOptions (Some kg) None)) in
  let ow := Some (CookieOptions.only_overwrite true) in
  (exists hs,
     hs <> []
     /\ Mod2.set sample_ms 0 sample_Date_parse "n" (JsString "b") ow j
        = (Return tt, with_calls hs j)
     /\ Mod2.get sample_ms 0 sample_Date_parse "n"
          (Some (CookieOptions.only_signed false)) (with_calls hs j)
        = (Return (Some "a"), with_calls hs j))
  /\ (exists shadow,
        Cookie.name shadow = "n.sig"
        /\ Mod1.set "n" (JsString "b") None jk = (Return tt, stored shadow jk)
        /\ map_has "n.sig" (jar_store (stored shadow jk)) = true).
Proof.
  intros kg j jk ow. split.
  - destruct (overwrite_policy_slips sample_ms 0 sample_Date_parse kg
                "n" "b" "a" j eq_refl eq_refl eq_refl)
      as (_ & (hs & H1 & H2 & _ & H3) & _).
    exists hs. split; [exact H1|]. split; [exact H2 | exact H3].
  - destruct (overwrite_policy_slips sample_ms 0 sample_Date_parse kg
                "n" "b" "a" jk eq_refl eq_refl eq_refl)
      as (_ & _ & _ & H).
    destruct (H eq_refl eq_refl) as (shadow & H1 & H2 & _ & H3).
    exists shadow. split; [exact H1|]. split; [exact H2 | exact H3].
Defined.

(** First revision, keys configured, "n" present without its shadow: a
    second [set] keeps "a" and creates the shadow entry. *)
Example overwrite_policy_creates_missing_shadow :
  let kg := sample_keygrip "k1" [] in
  let j := new_CookieJar [("n", "a")] []
             (Some (mkJarOptions (Some kg) None)) in
  let j1 := snd (Mod1.set "n" (JsString "b") None j) in
  jar_store j1 = [("n", "a"); ("n.sig", sample_hmac "k1" "n.sig=b")]
  /\ List.length (jar_res j1) = 1%nat.
Proof. split; reflexivity. Qed.

(** Second revision: [{ overwrite: true }] emits the directive and leaves
    the stored value as it was. *)
Example Mod2_overwrite_keeps_stored_value :
  let j := new_CookieJar [("n", "a")] [] None in
  let j1 := snd (Mod2.set sample_ms 0 sample_Date_parse "n" (JsString "b")
                   (Some (CookieOptions.only_overwrite true)) j) in
  jar_store j1 = [("n", "a")] /\ List.length (jar_res j1) = 1%nat.
Proof. split; reflexivity. Qed.

(** The example of the overwrite policy, first revision, on an empty jar
    without keys: "a" survives a second [set], [overwrite] replaces it. *)
Example overwrite_policy_example :
  let j0 := new_CookieJar [] [] None in
  let j1 := snd (Mod1.set "n" (JsString "a") None j0) in
  let j2 := snd (Mod1.set "n" (JsString "b") None j1) in
  let j3 := snd (Mod1.set "n" (JsString "b") (Some (CookieOptions.only_overwrite true)) j2) in
  map_get "n" (jar_store j1) = Some "a"
  /\ j2 = j1
  /\ map_get "n" (jar_store j3) = Some "b".
Proof. repeat split. Qed.

(** * C2: the unsigned round trip *)

(** First revision, no keys: [set(name, v)] with valid name and value
    writes [v] under a name the store lacks and keeps the stored value of
    a name it has. *)
Lemma Mod1_set_unsigned_run (name v : string) (j : CookieJar) :
  jar_keys j = None ->
  FIELD_CONTENT_REGEXP_test name = true ->
  FIELD_CONTENT_REGEXP_test v = true ->
  let base := Cookie.mk name (JsString v) (Some false) None "/" true None None None in
  Mod1.set name (JsString v) None j
  = (Return tt, if map_has name (jar_store j) then j else stored base j).
Proof.
  intros Hk Hn Hv base. unfold Mod1.set. simpl.
  rewrite (FIELD_CONTENT_nonempty _ Hv). simpl.
  run. rewrite Hn, Hv. simpl. rewrite andb_false_r. simpl.
  unfold bind.
  destruct (map_has name (jar_store j)) eqn:Hp.
  - rewrite Mod1_setCookie_skips by (simpl; auto). now rewrite Hk.
  - rewrite Mod1_setCookie_writes by (simpl; rewrite Hp; reflexivity).
    simpl. now rewrite Hk.
Qed.

Lemma get_unsigned_run (ms : string -> MsResult) (Date_now : Z)
  (Date_parse : string -> Date) (name : string) (j : CookieJar) :
  jar_keys j = None ->
  Mod1.get name None j = (Return (map_get name (jar_store j)), j)
  /\ Mod2.get ms Date_now Date_parse name None j
     = (Return (map_get name (jar_store j)), j).
Proof.
  intros Hk. unfold Mod1.get, Mod2.get. run. now rewrite Hk.
Qed.

(** Second revision, no keys: [set(name, v)] with valid name and value
    on a name the store lacks calls the transport once and returns. *)
Lemma Mod2_set_unsigned_run (ms : string -> MsResult) (Date_now : Z)
  (Date_parse : string -> Date) (name v : string) (j : CookieJar) :
  jar_keys j = None ->
  FIELD_CONTENT_REGEXP_test name = true ->
  FIELD_CONTENT_REGEXP_test v = true ->
  map_has name (jar_store j) = false ->
  let base := Cookie.mk name (JsString v) None None "/" true None None None in
  Mod2.set ms Date_now Date_parse name (JsString v) None j
  = (Return tt, with_res (SetCookieCall base) j).
Proof.
  intros Hk Hn Hv Hp base. unfold Mod2.set. simpl.
  rewrite (FIELD_CONTENT_nonempty _ Hv). simpl.
  unfold andString. simpl. rewrite (FIELD_CONTENT_nonempty _ Hv). simpl.
  unfold bind, super_has, throw_if, this_keys, ret. rewrite Hp, Hn, Hv. simpl.
  rewrite andb_false_r. simpl.
  rewrite Mod2_setCookie_plain by reflexivity.
  unfold signs. simpl. rewrite Hk. simpl. now rewrite Hk.
Qed.

(** C2.  Unsigned round trip, on a jar without keys, for a name the store
    lacks and a name and a value that pass the grammar.  First revision:
    [set(name, v)] emits the cookie and stores [v], and [get(name)] then
    returns [v].  Second revision: [set(name, v)] emits the cookie and
    leaves the store as it was, so [get(name)] returns absent: the value
    is not read back. *)
Theorem unsigned_round_trip_lost (ms : string -> MsResult) (Date_now : Z)
  (Date_parse : string -> Date) (name v : string) (j : CookieJar) :
  jar_keys j = None ->
  FIELD_CONTENT_REGEXP_test name = true ->
  FIELD_CONTENT_REGEXP_test v = true ->
  map_has name (jar_store j) = false ->
  let c1 := Cookie.mk name (JsString v) (Some false) None "/" true None None None in
  let c2 := Cookie.mk name (JsString v) None None "/" true None None None in
  let j1 := stored c1 j in
  let j2 := with_res (SetCookieCall c2) j in
  Mod1.set name (JsString v) None j = (Return tt, j1)
  /\ Mod1.get name None j1 = (Return (Some v), j1)
  /\ Mod2.set ms Date_now Date_parse name (JsString v) None j = (Return tt, j2)
  /\ jar_store j2 = jar_store j
  /\ Mod2.has name j2 = (Return false, j2)
  /\ Mod2.get ms Date_now Date_parse name None j2 = (Return None, j2).
Proof.
  intros Hk Hn Hv Hp c1 c2 j1 j2.
  split; [|split; [|split; [|split; [|split]]]].
  - rewrite Mod1_set_unsigned_run by assumption. now rewrite Hp.
  - destruct (get_unsigned_run ms Date_now Date_parse name j1 Hk) as [E _].
    rewrite E. unfold j1. simpl. now rewrite map_get_set_eq.
  - now apply Mod2_set_unsigned_run.
  - reflexivity.
  - unfold Mod2.has. run. now rewrite Hp.
  - destruct (get_unsigned_run ms Date_now Date_parse name j2 Hk) as [_ E].
    rewrite E. unfold j2. simpl. now rewrite (map_has_false_get _ _ Hp).
Qed.

Lemma unsigned_round_trip_lost_witness :
  let j := new_CookieJar [] [] None in
  let c1 := Cookie.mk "n" (JsString "v") (Some false) None "/" true None None None in
  let c2 := Cookie.mk "n" (JsString "v") None None "/" true None None None in
  let j1 := mkJar [("n", "v")] [SetCookieCall c1] false None in
  let j2 := mkJar [] [SetCookieCall c2] false None in
  Mod1.set "n" (JsString "v") None j = (Return tt, j1)
  /\ Mod1.get "n" None j1 = (Return (Some "v"), j1)
  /\ Mod2.set sample_ms 0 sample_Date_parse "n" (JsString "v") None j
     = (Return tt, j2)
  /\ Mod2.get sample_ms 0 sample_Date_parse "n" None j2 = (Return None, j2).
Proof.
  intros j c1 c2 j1 j2.
  destruct (unsigned_round_trip_lost sample_ms 0 sample_Date_parse "n" "v" j
              eq_refl eq_refl eq_refl eq_refl)
    as (E1 & E2 & E3 & _ & _ & E4).
  split; [exact E1|]. split; [exact E2|]. split; [exact E3 | exact E4].
Defined.

(** On a name the store has, [set] without [overwrite] is held back by
    the overwrite policy in both revisions, and [get] returns the value
    that was there. *)
Example set_on_present_name_keeps_value :
  let j := new_CookieJar [("n", "a")] [] None in
  Mod1.set "n" (JsString "b") None j = (Return tt, j)
  /\ Mod1.get "n" None j = (Return (Some "a"), j)
  /\ Mod2.set sample_ms 0 sample_Date_parse "n" (JsString "b") None j = (Return tt, j)
  /\ Mod2.get sample_ms 0 sample_Date_parse "n" None j = (Return (Some "a"), j).
Proof. repeat split. Qed.

(** * C1: the signed round trip *)

(** C1.  With keys configured, [set(name, v, {signed: true})] followed by
    [get(name, {signed: true})] does not return [v].  First revision:
    [set] renames the cookie to "<name>.sig" before it builds the string
    it signs, so the stored signature is over "<name>.sig=<v>", while
    [get] checks "<name>=<v>"; when no key maps the one to the other,
    [get] returns absent.  Second revision: [set] writes neither entry to
    the store, and [get] returns absent. *)
Theorem signed_round_trip_fails (ms : string -> MsResult) (Date_now : Z)
  (Date_parse : string -> Date) (kg : Keygrip) (name v : string)
  (j : CookieJar) :
  jar_keys j = Some kg ->
  FIELD_CONTENT_REGEXP_test name = true ->
  FIELD_CONTENT_REGEXP_test v = true ->
  map_has name (jar_store j) = false ->
  map_has (name ++ ".sig") (jar_store j) = false ->
  index kg (name ++ "=" ++ v) (sign kg ((name ++ ".sig") ++ "=" ++ v)) = -1 ->
  let so := Some (CookieOptions.only_signed true) in
  (exists j1,
     Mod1.set name (JsString v) so j = (Return tt, j1)
     /\ map_get name (jar_store j1) = Some v
     /\ map_get (name ++ ".sig") (jar_store j1)
        = Some (sign kg ((name ++ ".sig") ++ "=" ++ v))
     /\ fst (Mod1.get name so j1) = Return None)
  /\ (exists j2,
        Mod2.set ms Date_now Date_parse name (JsString v) so j = (Return tt, j2)
        /\ jar_store j2 = jar_store j
        /\ Mod2.get ms Date_now Date_parse name so j2 = (Return None, j2)).
Proof.
  intros Hk Hn Hv Hb Hs Hi so.
  assert (name <> (name ++ ".sig")%string) as Hne
    by (intros X; symmetry in X; now apply append_sig_neq in X).
  split.
  - pose proof (Mod1_signed_set_fresh kg name v j Hk Hn Hv Hb Hs) as E.
    cbv zeta in E.
    set (sg := sign kg ((name ++ ".sig") ++ "=" ++ v)) in *.
    eexists. split; [exact E|].
    assert (map_get name (jar_store j ++ [(name, v); ((name ++ ".sig")%string, sg)])%list
            = Some v) as Hbase.
    { rewrite map_set_fresh_pair by assumption.
      rewrite map_get_set_neq by (intros X; symmetry in X; contradiction).
      apply map_get_set_eq. }
    assert (map_get (name ++ ".sig")
              (jar_store j ++ [(name, v); ((name ++ ".sig")%string, sg)])%list
            = Some sg) as Hshadow.
    { rewrite map_set_fresh_pair by assumption. apply map_get_set_eq. }
    split; [exact Hbase|]. split; [exact Hshadow|].
    unfold Mod1.get. run. rewrite Hk. simpl. simpl in Hbase, Hshadow.
    rewrite Hbase, Hshadow. simpl.
    destruct (sg =? "")%string; simpl; [reflexivity|].
    simpl in Hi. rewrite Hi. simpl.
    unfold bind.
    rewrite Mod1_delete_valid by now apply FIELD_CONTENT_sig_of_valid.
    reflexivity.
  - rewrite (Mod2_signed_set_run ms Date_now Date_parse kg) by assumption.
    eexists. split; [reflexivity|]. split; [reflexivity|].
    unfold Mod2.get. run. rewrite Hk. simpl.
    rewrite (map_has_false_get _ _ Hb), (map_has_false_get _ _ Hs).
    reflexivity.
Qed.

Lemma signed_round_trip_fails_witness :
  let kg := sample_keygrip "k1" [] in
  let j := new_CookieJar [] []
             (Some (mkJarOptions (Some kg) (Some true))) in
  let so := Some (CookieOptions.only_signed true) in
  (exists j1,
     Mod1.set "LastVisit" (JsString "100") so j = (Return tt, j1)
     /\ map_get "LastVisit" (jar_store j1) = Some "100"
     /\ map_get "LastVisit.sig" (jar_store j1) = Some (sign kg "LastVisit.sig=100")
     /\ fst (Mod1.get "LastVisit" so j1) = Return None)
  /\ (exists j2,
        Mod2.set sample_ms 0 sample_Date_parse "LastVisit" (JsString "100") so j
        = (Return tt, j2)
        /\ jar_store j2 = []
        /\ Mod2.get sample_ms 0 sample_Date_parse "LastVisit" so j2
           = (Return None, j2)).
Proof.
  intros kg j so.
  exact (signed_round_trip_fails sample_ms 0 sample_Date_parse kg
           "LastVisit" "100" j eq_refl eq_refl eq_refl eq_refl eq_refl eq_refl).
Defined.

(** * C5: errors and effects *)

Lemma with_res_neq (h : HeaderCall) (j : CookieJar) : with_res h j <> j.
Proof.
  intros E. apply (f_equal (fun x => List.length (jar_res x))) in E.
  simpl in E. rewrite length_app in E. simpl in E. lia.
Qed.

(** C5.  Signing requested on a jar without keys, with a valid name the
    store lacks and a valid value: both revisions emit the directive of
    the base cookie first (the first revision also writes the store
    entry) and only then throw ".keys required for signed cookies".  The
    error leaves the jar changed. *)
Theorem signing_error_after_emission (ms : string -> MsResult) (Date_now : Z)
  (Date_parse : string -> Date) (name v : string) (j : CookieJar) :
  jar_keys j = None ->
  FIELD_CONTENT_REGEXP_test name = true ->
  FIELD_CONTENT_REGEXP_test v = true ->
  map_has name (jar_store j) = false ->
  let so := Some (CookieOptions.only_signed true) in
  let c1 := Cookie.mk name (JsString v) (Some false) None "/" true None None None in
  let c2 := Cookie.mk name (JsString v) None None "/" true None None None in
  Mod1.set name (JsString v) so j
  = (Throw (Error ".keys required for signed cookies"), stored c1 j)
  /\ Mod2.set ms Date_now Date_parse name (JsString v) so j
     = (Throw (Error ".keys required for signed cookies"),
        with_res (SetCookieCall c2) j)
  /\ jar_res (stored c1 j) = (jar_res j ++ [SetCookieCall c1])%list
  /\ map_get name (jar_store (stored c1 j)) = Some v
  /\ stored c1 j <> j
  /\ with_res (SetCookieCall c2) j <> j.
Proof.
  intros Hk Hn Hv Hp so c1 c2. repeat split.
  - unfold Mod1.set. simpl.
    rewrite (FIELD_CONTENT_nonempty _ Hv). simpl.
    run. rewrite Hn, Hv. simpl. rewrite andb_false_r. simpl.
    unfold bind. rewrite Mod1_setCookie_writes by (simpl; rewrite Hp; reflexivity).
    simpl. now rewrite Hk.
  - unfold Mod2.set. simpl.
    rewrite (FIELD_CONTENT_nonempty _ Hv). simpl.
    unfold andString. simpl. rewrite (FIELD_CONTENT_nonempty _ Hv). simpl.
    unfold bind, super_has, throw_if, this_keys, ret. rewrite Hp, Hn, Hv. simpl.
    rewrite andb_false_r. simpl.
    rewrite Mod2_setCookie_plain by reflexivity.
    unfold signs. simpl. now rewrite Hk.
  - simpl. apply map_get_set_eq.
  - intros E. apply (f_equal (fun x => List.length (jar_res x))) in E.
    simpl in E. rewrite length_app in E. simpl in E. lia.
  - apply with_res_neq.
Qed.

Lemma signing_error_after_emission_witness :
  let j := new_CookieJar [] [] None in
  let so := Some (CookieOptions.only_signed true) in
  Mod1.set "n" (JsString "v") so j
  = (Throw (Error ".keys required for signed cookies"),
     mkJar [("n", "v")]
       [SetCookieCall (Cookie.mk "n" (JsString "v") (Some false) None "/" true None None None)]
       false None)
  /\ Mod2.set sample_ms 0 sample_Date_parse "n" (JsString "v") so j
     = (Throw (Error ".keys required for signed cookies"),
        mkJar []
          [SetCookieCall (Cookie.mk "n" (JsString "v") None None "/" true None None None)]
          false None).
Proof.
  intros j so.
  destruct (signing_error_after_emission sample_ms 0 sample_Date_parse
              "n" "v" j eq_refl eq_refl eq_refl eq_refl) as (E1 & E2 & _).
  split; [exact E1 | exact E2].
Defined.

(** * C9: sameSite *)

(** Second revision: a string is never rejected, whatever the table says. *)
Lemma parse_sameSite_string (s : string) (j : CookieJar) :
  Mod2.parse_sameSite (Some (SameSiteStr s)) j
  = (Return (if (s =? "")%string then None else Mod2.SAME_SITE (toLowerCase s)), j).
Proof.
  unfold Mod2.parse_sameSite. simpl. now destruct (s =? "")%string.
Qed.

(** Second revision: [true] is always rejected. *)
Lemma parse_sameSite_true (j : CookieJar) :
  Mod2.parse_sameSite (Some (SameSiteBool true)) j
  = (Throw (TypeError "option sameSite is invalid"), j).
Proof. reflexivity. Qed.

(** C9.  Second revision.  The table maps the key of [true] to Strict,
    but the check after the lookup tests the type of the caller's input
    instead of the looked-up value: [set] with [sameSite: true] throws
    "option sameSite is invalid", and a string outside the table passes
    with no [sameSite] on the cookie.  Strings are case-normalized and
    mapped through the table. *)
Theorem sameSite_true_is_rejected (ms : string -> MsResult) (Date_now : Z)
  (Date_parse : string -> Date) (name v : string) (j : CookieJar) :
  FIELD_CONTENT_REGEXP_test name = true ->
  FIELD_CONTENT_REGEXP_test v = true ->
  map_has name (jar_store j) = false ->
  Mod2.SAME_SITE (toLowerCase (Mod2.String_of_sameSite (SameSiteBool true)))
  = Some Strict
  /\ Mod2.set ms Date_now Date_parse name (JsString v)
       (Some (CookieOptions.only_sameSite (SameSiteBool true))) j
     = (Throw (TypeError "option sameSite is invalid"), j)
  /\ Mod2.SAME_SITE (toLowerCase "bogus") = None
  /\ Mod2.parse_sameSite (Some (SameSiteStr "bogus")) j = (Return None, j)
  /\ Mod2.parse_sameSite (Some (SameSiteStr "STRICT")) j = (Return (Some Strict), j)
  /\ Mod2.parse_sameSite (Some (SameSiteStr "Lax")) j = (Return (Some Lax), j)
  /\ Mod2.parse_sameSite (Some (SameSiteStr "none")) j = (Return (Some NoneAttr), j).
Proof.
  intros Hn Hv Hp. repeat split.
  unfold Mod2.set. simpl.
  rewrite (FIELD_CONTENT_nonempty _ Hv). simpl.
  unfold andString. simpl. rewrite (FIELD_CONTENT_nonempty _ Hv). simpl.
  unfold bind, super_has, throw_if, this_keys, ret. rewrite Hp, Hn, Hv. simpl.
  rewrite andb_false_r. simpl.
  unfold Mod2.setCookie. run. now rewrite andb_false_r.
Qed.

Lemma sameSite_true_is_rejected_witness :
  let j := new_CookieJar [] []
             (Some (mkJarOptions None (Some true))) in
  Mod2.set sample_ms 0 sample_Date_parse "n" (JsString "v")
    (Some (CookieOptions.only_sameSite (SameSiteBool true))) j
  = (Throw (TypeError "option sameSite is invalid"), j).
Proof.
  intros j.
  exact (proj1 (proj2 (sameSite_true_is_rejected sample_ms 0 sample_Date_parse
                         "n" "v" j eq_refl eq_refl eq_refl))).
Defined.

(** Second revision: a string outside the table goes through [set]; the
    cookie handed to the transport has no [sameSite]. *)
Example sameSite_unknown_string_is_accepted :
  let j := new_CookieJar [] []
             (Some (mkJarOptions None (Some true))) in
  Mod2.set sample_ms 0 sample_Date_parse "n" (JsString "v")
    (Some (CookieOptions.only_sameSite (SameSiteStr "bogus"))) j
  = (Return tt,
     mkJar []
       [SetCookieCall (Cookie.mk "n" (JsString "v") None None "/" true None None None)]
       true None).
Proof. reflexivity. Qed.

(** First revision: [true] and the three lowercase names pass, without
    case normalization, and the cookie handed to the transport carries no
    [sameSite] at all. *)
Example Mod1_sameSite_examples :
  let j := new_CookieJar [] []
             (Some (mkJarOptions None (Some true))) in
  let c := Cookie.mk "n" (JsString "v") (Some false) None "/" true None None None in
  Mod1.set "n" (JsString "v")
    (Some (CookieOptions.only_sameSite (SameSiteBool true))) j
  = (Return tt, mkJar [("n", "v")] [SetCookieCall c] true None)
  /\ Mod1.set "n" (JsString "v")
       (Some (CookieOptions.only_sameSite (SameSiteStr "Strict"))) j
     = (Throw (TypeError "option sameSite is invalid"), j).
Proof. split; reflexivity. Qed.

(** ** What does hold of C5: every other error comes before any effect *)

Lemma Mod1_setCookie_returns (c : Cookie.t) (opts : CookieOptions.t) (j : CookieJar) :
  fst (Mod1.setCookie c opts j) = Return tt.
Proof.
  unfold Mod1.setCookie. run.
  now destruct (isTrue (CookieOptions.overwrite opts) || _).
Qed.

(** First revision: an error of [set] other than the missing-keys error
    leaves the jar as it was. *)
Lemma Mod1_set_error_atomic (name : string) (value : JsValue)
  (options : option CookieOptions.t) (j j' : CookieJar) (e : Exn) :
  Mod1.set name value options j = (Throw e, j') ->
  j' = j \/ e = keys_error.
Proof.
  unfold Mod1.set.
  destruct (truthy value); simpl.
  2:{ unfold bind. destruct (FIELD_CONTENT_REGEXP_test name) eqn:E.
      - rewrite Mod1_delete_valid by assumption. discriminate.
      - rewrite Mod1_delete_invalid by assumption. intros [= _ <-]. now left. }
  set (opts := nullish options CookieOptions.empty).
  unfold bind, throw_if, throw, ret, this_secure, this_keys.
  destruct (negb (FIELD_CONTENT_REGEXP_test name)); [intros [= _ <-]; now left|].
  destruct (negb (FIELD_CONTENT_REGEXP_test (toStr value))); [intros [= _ <-]; now left|].
  destruct (nonEmpty (CookieOptions.path opts) && _); [intros [= _ <-]; now left|].
  destruct (nonEmpty (CookieOptions.domain opts) && _); [intros [= _ <-]; now left|].
  destruct (sameSite_truthy (CookieOptions.sameSite opts) && _); [intros [= _ <-]; now left|].
  destruct (negb (jar_secure j) && _); [intros [= _ <-]; now left|].
  match goal with
  | |- context [Mod1.setCookie ?c ?o j] =>
      pose proof (Mod1_setCookie_returns c o j) as R;
      destruct (Mod1.setCookie c o j) as [o1 j1]
  end.
  simpl in R. subst o1.
  destruct (nullish (CookieOptions.signed opts) _); [|discriminate].
  destruct (jar_keys j1).
  - match goal with
    | |- context [Mod1.setCookie ?c ?o j1] =>
        pose proof (Mod1_setCookie_returns c o j1) as R;
        destruct (Mod1.setCookie c o j1) as [o2 j2]
    end.
    simpl in R. subst o2. discriminate.
  - intros [= <- _]. now right.
Qed.

Section Mod2_errors.

Variable ms : string -> MsResult.
Variable Date_now : Z.
Variable Date_parse : string -> Date.

(** Second revision: the private [setCookie] throws before it emits
    anything, except for the missing-keys error; and when it returns, it
    returns again under the same options on the jar it leaves. *)
Lemma Mod2_setCookie_outcomes (name : string) (value : JsValue)
  (opts : CookieOptions.t) (j : CookieJar) :
  match Mod2.setCookie ms Date_now Date_parse name value opts j with
  | (Throw e, j') => j' = j \/ e = keys_error
  | (Return _, j') =>
      jar_store j' = jar_store j
      /\ forall name' value',
           exists j'', Mod2.setCookie ms Date_now Date_parse name' value' opts j'
                       = (Return true, j'')
                       /\ jar_store j'' = jar_store j
  end.
Proof.
  unfold Mod2.setCookie.
  unfold bind, throw_if, throw, ret, this_secure, this_keys, Http.setCookie.
  destruct j as [st rs sec ks]. simpl.
  destruct (negb sec && isTrue (CookieOptions.secure opts)) eqn:E1; [now left|].
  destruct (Mod2.parse_sameSite (CookieOptions.sameSite opts)
              (mkJar st rs sec ks)) as [[ss|e] j1] eqn:E2.
  2:{ unfold Mod2.parse_sameSite in E2.
      destruct (CookieOptions.sameSite opts) as [x|]; [|discriminate].
      destruct (sameSite_truthy (Some x)); [|discriminate].
      unfold bind, throw_if, throw, ret in E2.
      destruct (negb (Mod2.is_string x)); inversion E2; now left. }
  assert (j1 = mkJar st rs sec ks) as ->.
  { unfold Mod2.parse_sameSite in E2.
    destruct (CookieOptions.sameSite opts) as [x|]; [|now inversion E2].
    destruct (sameSite_truthy (Some x)); [|now inversion E2].
    unfold bind, throw_if, throw, ret in E2.
    destruct (negb (Mod2.is_string x)); now inversion E2. }
  assert (forall rs', Mod2.parse_sameSite (CookieOptions.sameSite opts)
                        (mkJar st rs' sec ks) = (Return ss, mkJar st rs' sec ks)) as E2'.
  { intros rs'. unfold Mod2.parse_sameSite in *.
    destruct (CookieOptions.sameSite opts) as [x|]; [|now inversion E2].
    destruct (sameSite_truthy (Some x)); [|now inversion E2].
    unfold bind, throw_if, throw, ret in *.
    destruct (negb (Mod2.is_string x)); now inversion E2. }
  destruct (Mod2.parse_maxAge ms (CookieOptions.maxAge opts)
              (mkJar st rs sec ks)) as [[ma|e] j2] eqn:E3.
  2:{ unfold Mod2.parse_maxAge in E3.
      destruct (CookieOptions.maxAge opts) as [[n|s]|]; try discriminate.
      destruct (negb (s =? "")%string); [|discriminate].
      unfold throw, ret in E3.
      destruct (ms s); inversion E3; now left. }
  assert (j2 = mkJar st rs sec ks) as ->.
  { unfold Mod2.parse_maxAge in E3.
    destruct (CookieOptions.maxAge opts) as [[n|s]|]; try now inversion E3.
    destruct (negb (s =? "")%string); [|now inversion E3].
    unfold throw, ret in E3. destruct (ms s); now inversion E3. }
  assert (forall rs', Mod2.parse_maxAge ms (CookieOptions.maxAge opts)
                        (mkJar st rs' sec ks) = (Return ma, mkJar st rs' sec ks)) as E3'.
  { intros rs'. unfold Mod2.parse_maxAge in *.
    destruct (CookieOptions.maxAge opts) as [[n|s]|]; try now inversion E3.
    destruct (negb (s =? "")%string); [|now inversion E3].
    unfold throw, ret in *. destruct (ms s); now inversion E3. }
  unfold with_res. simpl.
  destruct (nullish (CookieOptions.signed opts)
              (match ks with Some _ => true | None => false end)) eqn:E4.
  - destruct ks as [kg|]; [|now right].
    split; [reflexivity|]. intros name' value'.
    simpl. rewrite E1. rewrite E2'. rewrite E3'. simpl. simpl in E4. rewrite E4.
    eexists; split; reflexivity.
  - split; [reflexivity|]. intros name' value'.
    simpl. rewrite E1. rewrite E2'. rewrite E3'. simpl. simpl in E4. rewrite E4.
    eexists; split; reflexivity.
Qed.

(** Second revision: an error of [set] other than the missing-keys error
    leaves the jar as it was. *)
Lemma Mod2_set_error_atomic (name : string) (value : JsValue)
  (options : option CookieOptions.t) (j j' : CookieJar) (e : Exn) :
  Mod2.set ms Date_now Date_parse name value options j = (Throw e, j') ->
  j' = j \/ e = keys_error.
Proof.
  unfold Mod2.set.
  destruct (negb (truthy value) && _); simpl.
  { unfold bind. destruct (FIELD_CONTENT_REGEXP_test name) eqn:E.
    - rewrite Mod2_delete_valid by assumption. discriminate.
    - rewrite Mod2_delete_invalid by assumption. intros [= _ <-]. now left. }
  set (opts := nullish options CookieOptions.empty).
  unfold bind, throw_if, throw, ret, super_has, this_keys.
  destruct (negb (isTrue (CookieOptions.overwrite opts)) && _); [discriminate|].
  destruct (negb (FIELD_CONTENT_REGEXP_test name)); [intros [= _ <-]; now left|].
  destruct (truthy (andString value) && _); [intros [= _ <-]; now left|].
  destruct (nonEmpty (CookieOptions.path opts) && _); [intros [= _ <-]; now left|].
  destruct (nonEmpty (CookieOptions.domain opts) && _); [intros [= _ <-]; now left|].
  pose proof (Mod2_setCookie_outcomes name (andString value) opts j) as R.
  destruct (Mod2.setCookie ms Date_now Date_parse name (andString value) opts j)
    as [[b|e1] j1].
  2:{ intros [= <- <-]. exact R. }
  destruct R as [_ R].
  destruct (nullish (CookieOptions.signed opts) _); [|discriminate].
  destruct (jar_keys j1) as [kg|].
  - destruct (R (name ++ ".sig")%string
                (JsString (sign kg ((name ++ ".sig") ++ "=" ++ toStr (andString value)))))
      as (j2 & E & _).
    simpl in E. simpl. rewrite E. discriminate.
  - intros [= <- _]. now right.
Qed.

End Mod2_errors.

(** ** C1 for a hash without collisions across data *)

Lemma renamed_data_differs (name v : string) :
  (name ++ "=" ++ v)%string <> ((name ++ ".sig") ++ "=" ++ v)%string.
Proof.
  induction name as [|c name IH]; simpl; [discriminate|].
  intros [= E]. now apply IH.
Qed.

Lemma index_from_no_match (h : string -> string -> string) (ks : list string)
  (data digest : string) (i : Z) :
  (forall k, In k ks -> digest <> h k data) ->
  index_from h ks data digest i = -1.
Proof.
  revert i. induction ks as [|k ks IH]; intros i H; simpl; [reflexivity|].
  destruct (digest =? h k data)%string eqn:E.
  - apply String.eqb_eq in E. exfalso. apply (H k); [now left | exact E].
  - apply IH. intros k' Hk'. apply H. now right.
Qed.

(** When digests of different data never agree, the signature the first
    revision stores is found under no key for the data [get] checks. *)
Lemma index_of_renamed_data (kg : Keygrip) (name v : string) :
  (forall k k' d d', kg_hmac kg k d = kg_hmac kg k' d' -> d = d') ->
  index kg (name ++ "=" ++ v) (sign kg ((name ++ ".sig") ++ "=" ++ v)) = -1.
Proof.
  intros Hinj. unfold index. apply index_from_no_match.
  intros k _ E. unfold sign in E. apply Hinj in E.
  symmetry in E. now apply renamed_data_differs in E.
Qed.

(** * Beyond the claims: what every method keeps *)

Section Steady.

Variable P : HeaderCall -> Prop.

Lemma grows_refl (j : CookieJar) : grows P j j.
Proof.
  repeat split; auto. exists []. split; [now rewrite app_nil_r | constructor].
Qed.

Lemma grows_trans (j1 j2 j3 : CookieJar) :
  grows P j1 j2 -> grows P j2 j3 -> grows P j1 j3.
Proof.
  intros (S1 & K1 & (h1 & R1 & F1) & W1) (S2 & K2 & (h2 & R2 & F2) & W2).
  repeat split; try congruence; auto.
  exists (h1 ++ h2)%list. split.
  - now rewrite R2, R1, app_assoc.
  - apply Forall_app; auto.
Qed.

Lemma steady_ret {A : Type} (a : A) : steady P (ret a).
Proof. intros j. apply grows_refl. Qed.

Lemma steady_throw {A : Type} (e : Exn) : steady P (@throw A e).
Proof. intros j. apply grows_refl. Qed.

Lemma steady_bind {A B : Type} (m : M A) (k : A -> M B) :
  steady P m -> (forall a, steady P (k a)) -> steady P (bind m k).
Proof.
  intros Hm Hk j. unfold bind. specialize (Hm j).
  destruct (m j) as [[a|e] j1]; simpl in *; [|exact Hm].
  eapply grows_trans; [exact Hm | apply Hk].
Qed.

(** A guard passes its condition on to what follows. *)
Lemma steady_guard {B : Type} (b : bool) (e : Exn) (k : M B) :
  (b = false -> steady P k) -> steady P (bind (throw_if b e) (fun _ => k)).
Proof.
  intros Hk. destruct b; unfold throw_if.
  - intros j. apply grows_refl.
  - apply steady_bind; [apply steady_ret | intros _; now apply Hk].
Qed.

Lemma steady_this_keys : steady P this_keys.
Proof. intros j. apply grows_refl. Qed.

Lemma steady_this_secure : steady P this_secure.
Proof. intros j. apply grows_refl. Qed.

Lemma steady_super_get (k : string) : steady P (super_get k).
Proof. intros j. apply grows_refl. Qed.

Lemma steady_super_has (k : string) : steady P (super_has k).
Proof. intros j. apply grows_refl. Qed.

Lemma steady_this_keys_iter : steady P this_keys_iter.
Proof. intros j. apply grows_refl. Qed.

Lemma steady_store (f : Store -> Store) :
  (forall m, store_wf m -> store_wf (f m)) ->
  forall j, grows P j (with_store f j).
Proof.
  intros Hf j. repeat split; simpl; auto.
  exists []. split; [now rewrite app_nil_r | constructor].
Qed.

Lemma steady_super_set (k v : string) : steady P (super_set k v).
Proof. intros j. apply steady_store. intros m. apply map_set_wf. Qed.

Lemma steady_super_delete (k : string) : steady P (super_delete k).
Proof. intros j. apply steady_store. intros m. apply map_delete_wf. Qed.

Lemma steady_super_clear : steady P super_clear.
Proof. intros j. apply steady_store. intros m _. constructor. Qed.

Lemma grows_with_res (h : HeaderCall) (j : CookieJar) :
  P h -> grows P j (with_res h j).
Proof.
  intros Hh. repeat split; simpl; auto.
  exists [h]. split; [reflexivity | now constructor].
Qed.

Lemma steady_Http_setCookie (c : Cookie.t) :
  P (SetCookieCall c) -> steady P (Http.setCookie c).
Proof. intros H j. now apply grows_with_res. Qed.

Lemma steady_Http_deleteCookie (name : string) :
  P (DeleteCookieCall name) -> steady P (Http.deleteCookie name).
Proof. intros H j. now apply grows_with_res. Qed.

End Steady.

Ltac steady_step :=
  match goal with
  | |- steady _ (bind (throw_if _ _) _) => apply steady_guard; intro
  | |- steady _ (bind _ _) => apply steady_bind; [|intro]
  | |- steady _ (ret _) => apply steady_ret
  | |- steady _ (throw _) => apply steady_throw
  | |- steady _ this_keys => apply steady_this_keys
  | |- steady _ this_secure => apply steady_this_secure
  | |- steady _ this_keys_iter => apply steady_this_keys_iter
  | |- steady _ (super_get _) => apply steady_super_get
  | |- steady _ (super_has _) => apply steady_super_has
  | |- steady _ (super_set _ _) => apply steady_super_set
  | |- steady _ (super_delete _) => apply steady_super_delete
  | |- steady _ super_clear => apply steady_super_clear
  | |- steady _ (if ?b then _ else _) => destruct b eqn:?
  | |- steady _ (match ?x with _ => _ end) => destruct x eqn:?
  end.

Lemma negb_false_true (b : bool) : negb b = false -> b = true.
Proof. now destruct b. Qed.

Lemma steady_Mod1_delete (name : string) :
  steady valid_call (Mod1.delete name).
Proof.
  unfold Mod1.delete. repeat steady_step.
  apply steady_Http_deleteCookie. now apply negb_false_true.
Qed.

Lemma steady_Mod1_setCookie (c : Cookie.t) (opts : CookieOptions.t) :
  FIELD_CONTENT_REGEXP_test (Cookie.name c) = true ->
  steady valid_call (Mod1.setCookie c opts).
Proof.
  intros H. unfold Mod1.setCookie. repeat steady_step.
  now apply steady_Http_setCookie.
Qed.

Lemma steady_Mod1_set (name : string) (value : JsValue)
  (options : option CookieOptions.t) :
  steady valid_call (Mod1.set name value options).
Proof.
  unfold Mod1.set. cbv zeta.
  destruct (negb (truthy value)).
  - steady_step; [apply steady_Mod1_delete | steady_step].
  - steady_step. apply negb_false_true in H.
    repeat steady_step;
      try (apply steady_Mod1_setCookie; simpl;
           auto using FIELD_CONTENT_sig_of_valid).
Qed.

Lemma steady_Mod1_get (name : string) (opts : option CookieOptions.t) :
  steady valid_call (Mod1.get name opts).
Proof.
  unfold Mod1.get. cbv zeta.
  repeat steady_step;
    auto using steady_Mod1_delete, steady_Mod1_set.
Qed.

Lemma steady_Mod1_clear : steady (fun _ => True) Mod1.clear.
Proof.
  unfold Mod1.clear. repeat steady_step.
  induction a as [|k ks IH]; simpl; repeat steady_step; auto.
  now apply steady_Http_deleteCookie.
Qed.

Section Steady_Mod2.

Variable ms : string -> MsResult.
Variable Date_now : Z.
Variable Date_parse : string -> Date.

Lemma steady_Mod2_setCookie (name : string) (value : JsValue)
  (opts : CookieOptions.t) :
  FIELD_CONTENT_REGEXP_test name = true ->
  steady valid_call (Mod2.setCookie ms Date_now Date_parse name value opts).
Proof.
  intros H. unfold Mod2.setCookie, Mod2.parse_sameSite, Mod2.parse_maxAge.
  cbv zeta.
  repeat steady_step;
    try (apply steady_Http_setCookie; unfold valid_call; simpl;
         auto using FIELD_CONTENT_sig_of_valid).
Qed.

Lemma steady_Mod2_delete (name : string) (opts : option CookieOptions.t) :
  steady valid_call (Mod2.delete ms Date_now Date_parse name opts).
Proof.
  unfold Mod2.delete. cbv zeta. steady_step. apply negb_false_true in H.
  repeat steady_step; auto using steady_Mod2_setCookie.
  now apply steady_Http_deleteCookie.
Qed.

Lemma steady_Mod2_set (name : string) (value : JsValue)
  (options : option CookieOptions.t) :
  steady valid_call (Mod2.set ms Date_now Date_parse name value options).
Proof.
  unfold Mod2.set. cbv zeta.
  destruct (negb (truthy value) && _).
  - steady_step; [apply steady_Mod2_delete | steady_step].
  - steady_step; [steady_step|].
    steady_step; [steady_step|].
    steady_step. apply negb_false_true in H.
    repeat steady_step;
      auto using steady_Mod2_setCookie, FIELD_CONTENT_sig_of_valid.
Qed.

Lemma steady_Mod2_get (name : string) (opts : option CookieOptions.t) :
  steady valid_call (Mod2.get ms Date_now Date_parse name opts).
Proof.
  unfold Mod2.get. cbv zeta.
  repeat steady_step;
    auto using steady_Mod2_delete, steady_Mod2_set.
Qed.

End Steady_Mod2.

Lemma steady_Mod2_clear : steady (fun _ => True) Mod2.clear.
Proof.
  unfold Mod2.clear. repeat steady_step.
  induction a as [|k ks IH]; simpl; repeat steady_step; auto.
  now apply steady_Http_deleteCookie.
Qed.

(** * Beyond the claims: which entries a method can touch *)

Section Keeps.

Variable R : CookieJar -> CookieJar -> Prop.
Hypothesis R_refl : forall j, R j j.
Hypothesis R_trans : forall j1 j2 j3, R j1 j2 -> R j2 j3 -> R j1 j3.
Hypothesis R_res : forall h j, R j (with_res h j).

Lemma keeps_ret {A : Type} (a : A) : keeps R (ret a).
Proof. intros j. apply R_refl. Qed.

Lemma keeps_throw {A : Type} (e : Exn) : keeps R (@throw A e).
Proof. intros j. apply R_refl. Qed.

Lemma keeps_bind {A B : Type} (m : M A) (k : A -> M B) :
  keeps R m -> (forall a, keeps R (k a)) -> keeps R (bind m k).
Proof.
  intros Hm Hk j. unfold bind. specialize (Hm j).
  destruct (m j) as [[a|e] j1]; simpl in *; [|exact Hm].
  eapply R_trans; [exact Hm | apply Hk].
Qed.

Lemma keeps_throw_if (b : bool) (e : Exn) : keeps R (throw_if b e).
Proof. destruct b; [apply keeps_throw | apply keeps_ret]. Qed.

(** A guard passes its condition on to what follows. *)
Lemma keeps_guard {B : Type} (b : bool) (e : Exn) (k : M B) :
  (b = false -> keeps R k) -> keeps R (bind (throw_if b e) (fun _ => k)).
Proof.
  intros Hk. destruct b; unfold throw_if.
  - intros j. apply R_refl.
  - apply keeps_bind; [apply keeps_ret | intros _; now apply Hk].
Qed.

Lemma keeps_this_keys : keeps R this_keys.
Proof. intros j. apply R_refl. Qed.

Lemma keeps_this_secure : keeps R this_secure.
Proof. intros j. apply R_refl. Qed.

Lemma keeps_super_get (k : string) : keeps R (super_get k).
Proof. intros j. apply R_refl. Qed.

Lemma keeps_super_has (k : string) : keeps R (super_has k).
Proof. intros j. apply R_refl. Qed.

Lemma keeps_Http_setCookie (c : Cookie.t) : keeps R (Http.setCookie c).
Proof. intros j. apply R_res. Qed.

Lemma keeps_Http_deleteCookie (n : string) : keeps R (Http.deleteCookie n).
Proof. intros j. apply R_res. Qed.

End Keeps.

Ltac keeps_step rf tr rs :=
  match goal with
  | |- keeps _ (bind _ _) => apply (keeps_bind _ tr); [|intro]
  | |- keeps _ (ret _) => apply (keeps_ret _ rf)
  | |- keeps _ (throw _) => apply (keeps_throw _ rf)
  | |- keeps _ (throw_if _ _) => apply (keeps_throw_if _ rf)
  | |- keeps _ this_keys => apply (keeps_this_keys _ rf)
  | |- keeps _ this_secure => apply (keeps_this_secure _ rf)
  | |- keeps _ (super_get _) => apply (keeps_super_get _ rf)
  | |- keeps _ (super_has _) => apply (keeps_super_has _ rf)
  | |- keeps _ (Http.setCookie _) => apply (keeps_Http_setCookie _ rs)
  | |- keeps _ (Http.deleteCookie _) => apply (keeps_Http_deleteCookie _ rs)
  | |- keeps _ (if ?b then _ else _) => destruct b eqn:?
  | |- keeps _ (match ?x with _ => _ end) => destruct x eqn:?
  end.

Lemma same_store_refl (j : CookieJar) : same_store j j.
Proof. reflexivity. Qed.

Lemma same_store_trans (j1 j2 j3 : CookieJar) :
  same_store j1 j2 -> same_store j2 j3 -> same_store j1 j3.
Proof. unfold same_store. congruence. Qed.

Lemma same_store_res (h : HeaderCall) (j : CookieJar) :
  same_store j (with_res h j).
Proof. reflexivity. Qed.

Lemma same_outside_refl (K : string -> Prop) (j : CookieJar) :
  same_outside K j j.
Proof. intros k _. reflexivity. Qed.

Lemma same_outside_trans (K : string -> Prop) (j1 j2 j3 : CookieJar) :
  same_outside K j1 j2 -> same_outside K j2 j3 -> same_outside K j1 j3.
Proof. intros H1 H2 k Hk. now rewrite H2, H1. Qed.

Lemma same_outside_res (K : string -> Prop) (h : HeaderCall) (j : CookieJar) :
  same_outside K j (with_res h j).
Proof. intros k _. reflexivity. Qed.

Lemma same_outside_weaken (K K' : string -> Prop) (j j' : CookieJar) :
  (forall k, K k -> K' k) -> same_outside K j j' -> same_outside K' j j'.
Proof. intros HK H k Hk. apply H. intros X. apply Hk, HK, X. Qed.

Lemma same_outside_of_same_store (K : string -> Prop) (j j' : CookieJar) :
  same_store j j' -> same_outside K j j'.
Proof. intros H k _. now rewrite H. Qed.

Lemma keeps_super_set_outside (K : string -> Prop) (k v : string) :
  K k -> keeps (same_outside K) (super_set k v).
Proof.
  intros Hk j k' Hk'. simpl. apply map_get_set_neq. intros ->. contradiction.
Qed.

Lemma keeps_super_delete_outside (K : string -> Prop) (k : string) :
  K k -> keeps (same_outside K) (super_delete k).
Proof.
  intros Hk j k' Hk'. simpl. apply map_get_delete_neq. intros ->. contradiction.
Qed.

Lemma shrinks_refl (j : CookieJar) : shrinks j j.
Proof. intros k v H. exact H. Qed.

Lemma shrinks_trans (j1 j2 j3 : CookieJar) :
  shrinks j1 j2 -> shrinks j2 j3 -> shrinks j1 j3.
Proof. intros H1 H2 k v H. now apply H1, H2. Qed.

Lemma shrinks_res (h : HeaderCall) (j : CookieJar) : shrinks j (with_res h j).
Proof. intros k v H. exact H. Qed.

Lemma map_get_delete_some (n k v : string) (m : Store) :
  map_get k (map_delete n m) = Some v -> map_get k m = Some v.
Proof.
  destruct (String.eqb_spec n k) as [->|Hne].
  - now rewrite map_get_delete_eq.
  - now rewrite map_get_delete_neq.
Qed.

Lemma keeps_super_delete_shrinks (k : string) : keeps shrinks (super_delete k).
Proof. intros j k' v. simpl. apply map_get_delete_some. Qed.

Ltac outside_step K :=
  keeps_step (same_outside_refl K) (same_outside_trans K) (same_outside_res K).

Ltac shrinks_step := keeps_step shrinks_refl shrinks_trans shrinks_res.

Lemma keeps_outside_of_same_store (K : string -> Prop) {A : Type} (m : M A) :
  keeps same_store m -> keeps (same_outside K) m.
Proof. intros H j. apply same_outside_of_same_store, H. Qed.

Lemma keeps_shrinks_of_same_store {A : Type} (m : M A) :
  keeps same_store m -> keeps shrinks m.
Proof. intros H j k v. unfold keeps, same_store in H. now rewrite H. Qed.

Lemma keeps_outside_weaken (K K' : string -> Prop) {A : Type} (m : M A) :
  (forall k, K k -> K' k) -> keeps (same_outside K) m -> keeps (same_outside K') m.
Proof. intros HK H j. eapply same_outside_weaken; [exact HK | apply H]. Qed.

Lemma Mod1_delete_outside (name : string) :
  keeps (same_outside (eq name)) (Mod1.delete name).
Proof.
  unfold Mod1.delete. repeat outside_step (eq name).
  now apply keeps_super_delete_outside.
Qed.

Lemma Mod1_setCookie_outside (c : Cookie.t) (opts : CookieOptions.t) :
  keeps (same_outside (eq (Cookie.name c))) (Mod1.setCookie c opts).
Proof.
  unfold Mod1.setCookie. repeat outside_step (eq (Cookie.name c)).
  now apply keeps_super_set_outside.
Qed.

(** First revision: [set] touches the entries of [name] and of
    "<name>.sig" and no other. *)
Lemma Mod1_set_outside (name : string) (value : JsValue)
  (options : option CookieOptions.t) :
  keeps (same_outside (fun k => k = name \/ k = (name ++ ".sig")%string))
    (Mod1.set name value options).
Proof.
  set (K := fun k => k = name \/ k = (name ++ ".sig")%string).
  unfold Mod1.set. cbv zeta.
  repeat outside_step K.
  - apply (keeps_outside_weaken (eq name)); [|apply Mod1_delete_outside].
    intros ? <-. now left.
  - eapply keeps_outside_weaken; [|apply Mod1_setCookie_outside].
    simpl. intros ? <-. now left.
  - eapply keeps_outside_weaken; [|apply Mod1_setCookie_outside].
    simpl. intros ? <-. now right.
Qed.

(** First revision: with [{ signed: false }], [set] touches the entry of
    [name] and no other. *)
Lemma Mod1_set_unsigned_outside (name : string) (value : JsValue) :
  keeps (same_outside (eq name))
    (Mod1.set name value (Some (CookieOptions.only_signed false))).
Proof.
  unfold Mod1.set. cbv zeta. simpl.
  repeat outside_step (eq name).
  - apply Mod1_delete_outside.
  - apply (Mod1_setCookie_outside
             (Cookie.mk name value (Some false) None "/" true None None None)).
Qed.

Lemma Mod1_get_outside (name : string) (opts : option CookieOptions.t) :
  keeps (same_outside (eq (name ++ ".sig")%string)) (Mod1.get name opts).
Proof.
  unfold Mod1.get. cbv zeta.
  repeat outside_step (eq (name ++ ".sig")%string).
  - apply Mod1_delete_outside.
  - apply Mod1_set_unsigned_outside.
Qed.

Section Keeps_Mod2.

Variable ms : string -> MsResult.
Variable Date_now : Z.
Variable Date_parse : string -> Date.

(** Second revision: the private [setCookie] leaves the store alone. *)
Lemma Mod2_setCookie_same_store (name : string) (value : JsValue)
  (opts : CookieOptions.t) :
  keeps same_store (Mod2.setCookie ms Date_now Date_parse name value opts).
Proof.
  unfold Mod2.setCookie, Mod2.parse_sameSite, Mod2.parse_maxAge. cbv zeta.
  repeat keeps_step same_store_refl same_store_trans same_store_res.
Qed.

Lemma Mod2_delete_outside (name : string) (opts : option CookieOptions.t) :
  keeps (same_outside (eq name)) (Mod2.delete ms Date_now Date_parse name opts).
Proof.
  unfold Mod2.delete. cbv zeta.
  repeat outside_step (eq name);
    try (now apply keeps_super_delete_outside).
  apply keeps_outside_of_same_store, Mod2_setCookie_same_store.
Qed.

Lemma Mod2_set_outside (name : string) (value : JsValue)
  (options : option CookieOptions.t) :
  keeps (same_outside (eq name))
    (Mod2.set ms Date_now Date_parse name value options).
Proof.
  unfold Mod2.set. cbv zeta.
  repeat outside_step (eq name);
    try (apply keeps_outside_of_same_store, Mod2_setCookie_same_store).
  apply Mod2_delete_outside.
Qed.

Lemma Mod2_get_outside (name : string) (opts : option CookieOptions.t) :
  keeps (same_outside (eq (name ++ ".sig")%string))
    (Mod2.get ms Date_now Date_parse name opts).
Proof.
  unfold Mod2.get. cbv zeta.
  repeat outside_step (eq (name ++ ".sig")%string).
  - apply Mod2_delete_outside.
  - apply Mod2_set_outside.
Qed.

Lemma Mod2_delete_shrinks (name : string) (opts : option CookieOptions.t) :
  keeps shrinks (Mod2.delete ms Date_now Date_parse name opts).
Proof.
  unfold Mod2.delete. cbv zeta.
  repeat shrinks_step; try apply keeps_super_delete_shrinks.
  apply keeps_shrinks_of_same_store, Mod2_setCookie_same_store.
Qed.

Lemma Mod2_set_shrinks (name : string) (value : JsValue)
  (options : option CookieOptions.t) :
  keeps shrinks (Mod2.set ms Date_now Date_parse name value options).
Proof.
  unfold Mod2.set. cbv zeta.
  repeat shrinks_step;
    try (apply keeps_shrinks_of_same_store, Mod2_setCookie_same_store).
  apply Mod2_delete_shrinks.
Qed.

Lemma Mod2_get_shrinks (name : string) (opts : option CookieOptions.t) :
  keeps shrinks (Mod2.get ms Date_now Date_parse name opts).
Proof.
  unfold Mod2.get. cbv zeta.
  repeat shrinks_step.
  - apply Mod2_delete_shrinks.
  - apply Mod2_set_shrinks.
Qed.

End Keeps_Mod2.

(** * Beyond the claims: properties of the methods *)

(** ** The constructor *)

Lemma fold_set_fields (cookies : list (string * string)) (j : CookieJar) :
  let j' := fold_left (fun j kv => with_store (map_set (fst kv) (snd kv)) j)
              cookies j in
  jar_store j'
  = fold_left (fun st kv => map_set (fst kv) (snd kv) st) cookies (jar_store j)
  /\ jar_res j' = jar_res j
  /\ jar_secure j' = jar_secure j
  /\ jar_keys j' = jar_keys j.
Proof.
  revert j. induction cookies as [|kv cs IH]; intros j; simpl; [auto|].
  destruct (IH (with_store (map_set (fst kv) (snd kv)) j)) as (E1 & E2 & E3 & E4).
  simpl in *. auto.
Qed.

Lemma fold_set_distinct (cookies : list (string * string)) (st : Store) :
  NoDup (map fst cookies) ->
  (forall k, In k (map fst cookies) -> map_has k st = false) ->
  fold_left (fun st kv => map_set (fst kv) (snd kv) st) cookies st
  = (st ++ cookies)%list.
Proof.
  revert st. induction cookies as [|[k v] cs IH]; intros st Hnd Hfresh; simpl.
  - now rewrite app_nil_r.
  - inversion Hnd as [|? ? Hnin Hnd']; subst.
    rewrite map_set_fresh by (apply Hfresh; now left).
    rewrite <- (map_set_fresh k v) by (apply Hfresh; now left).
    rewrite IH; auto.
    + rewrite map_set_fresh by (apply Hfresh; now left).
      now rewrite <- app_assoc.
    + intros k' Hk'. rewrite map_has_set_neq.
      * apply Hfresh. now right.
      * intros ->. contradiction.
Qed.

Lemma fold_set_wf (cookies : list (string * string)) (st : Store) :
  store_wf st ->
  store_wf (fold_left (fun st kv => map_set (fst kv) (snd kv) st) cookies st).
Proof.
  revert st. induction cookies as [|kv cs IH]; intros st H; simpl; [exact H|].
  apply IH, map_set_wf, H.
Qed.

Lemma map_get_app (k : string) (a b : Store) :
  map_get k (a ++ b)%list
  = match map_get k a with Some v => Some v | None => map_get k b end.
Proof.
  induction a as [|[k' v'] a IH]; simpl; [reflexivity|].
  now destruct (k' =? k)%string.
Qed.

Lemma map_get_set (k k' v : string) (m : Store) :
  map_get k' (map_set k v m)
  = if (k =? k')%string then Some v else map_get k' m.
Proof.
  destruct (String.eqb_spec k k') as [->|Hne].
  - apply map_get_set_eq.
  - now apply map_get_set_neq.
Qed.

Lemma fold_set_lookup (cookies : list (string * string)) (st : Store)
  (k : string) :
  map_get k (fold_left (fun st kv => map_set (fst kv) (snd kv) st) cookies st)
  = match map_get k (rev cookies) with
    | Some v => Some v
    | None => map_get k st
    end.
Proof.
  revert st. induction cookies as [|[k0 v0] cs IH]; intros st; simpl; [reflexivity|].
  rewrite IH, map_get_app. simpl.
  destruct (map_get k (rev cs)); [reflexivity|].
  rewrite map_get_set. now destruct (k0 =? k)%string.
Qed.

Lemma insert_index_perm (n : N) (k : string) (l : list (N * string)) :
  Permutation (map snd (insert_index n k l)) (k :: map snd l).
Proof.
  induction l as [|[m k'] l IH]; simpl; [reflexivity|].
  destruct (n <=? m)%N; simpl; [reflexivity|].
  rewrite IH. apply perm_swap.
Qed.

Lemma Object_keys_perm (o : Store) :
  Permutation (Object_keys o) (map_keys o).
Proof.
  unfold Object_keys. induction (map_keys o) as [|k ks IH]; simpl; [reflexivity|].
  unfold is_plain_name at 1. destruct (array_index k) as [n|]; simpl.
  - rewrite insert_index_perm. simpl. now rewrite IH.
  - rewrite <- Permutation_middle. now rewrite IH.
Qed.

Lemma insert_index_sorted (n : N) (k : string) (l : list (N * string)) :
  Sorted (fun a b => (fst a <= fst b)%N) l ->
  Sorted (fun a b => (fst a <= fst b)%N) (insert_index n k l).
Proof.
  induction l as [|[m k'] l IH]; simpl; intros H.
  - repeat constructor.
  - destruct (N.leb_spec n m).
    + constructor; [exact H|]. constructor. simpl. assumption.
    + inversion H as [|? ? Hs Hh]; subst.
      constructor; [now apply IH|].
      destruct l as [|[m2 k2] l]; simpl.
      * constructor. simpl. lia.
      * destruct (n <=? m2)%N; constructor; simpl.
        -- lia.
        -- inversion Hh; subst. assumption.
Qed.

(** The array-index names come out in ascending order. *)
Lemma index_keys_sorted (ks : list string) :
  Sorted (fun a b => (fst a <= fst b)%N) (index_keys ks).
Proof.
  induction ks as [|k ks IH]; simpl; [constructor|].
  destruct (array_index k); [now apply insert_index_sorted | exact IH].
Qed.

Lemma index_keys_plain (ks : list string) :
  (forall k, In k ks -> array_index k = None) ->
  index_keys ks = [] /\ filter is_plain_name ks = ks.
Proof.
  induction ks as [|k ks IH]; simpl; intros H; [auto|].
  unfold is_plain_name at 1. rewrite (H k) by now left.
  destruct IH as [E1 E2]; [intros k' Hk'; apply H; now right|].
  now rewrite E1, E2.
Qed.

Lemma map_get_tabulate (f : string -> string) (ks : list string) (k : string) :
  map_get k (map (fun x => (x, f x)) ks)
  = if in_dec string_dec k ks then Some (f k) else None.
Proof.
  induction ks as [|k0 ks IH]; [reflexivity|].
  change (map (fun x => (x, f x)) (k0 :: ks))
    with ((k0, f k0) :: map (fun x => (x, f x)) ks).
  simpl map_get.
  destruct (String.eqb_spec k0 k) as [->|Hne].
  - destruct (in_dec string_dec k (k :: ks)) as [H|H]; [reflexivity|].
    exfalso. apply H. now left.
  - rewrite IH.
    destruct (in_dec string_dec k ks) as [H|H];
      destruct (in_dec string_dec k (k0 :: ks)) as [H'|H']; try reflexivity.
    + exfalso. apply H'. now right.
    + destruct H' as [X|X]; contradiction.
Qed.

Lemma Object_entries_lookup (o : Store) (k : string) :
  map_get k (Object_entries o) = map_get k o.
Proof.
  unfold Object_entries. rewrite map_get_tabulate.
  destruct (in_dec string_dec k (Object_keys o)) as [Hin|Hnin].
  - apply (Permutation_in _ (Object_keys_perm o)) in Hin.
    apply map_keys_has in Hin. unfold map_has in Hin.
    now destruct (map_get k o).
  - assert (~ In k (map_keys o)) as H.
    { intros X. apply Hnin.
      apply (Permutation_in _ (Permutation_sym (Object_keys_perm o))), X. }
    rewrite map_keys_has in H. unfold map_has in H.
    now destruct (map_get k o).
Qed.

Lemma Object_entries_rev_lookup (o : Store) (k : string) :
  map_get k (rev (Object_entries o)) = map_get k o.
Proof.
  rewrite <- (Object_entries_lookup o k). unfold Object_entries.
  rewrite <- map_rev, !map_get_tabulate.
  destruct (in_dec string_dec k (rev (Object_keys o))) as [H|H];
    destruct (in_dec string_dec k (Object_keys o)) as [H'|H']; try reflexivity.
  - exfalso. apply H'. apply (proj2 (in_rev _ _)). exact H.
  - exfalso. apply H. apply (proj1 (in_rev _ _)). exact H'.
Qed.

Lemma tabulate_own_values (o : Store) :
  NoDup (map_keys o) ->
  map (fun k => (k, nullish (map_get k o) "")) (map_keys o) = o.
Proof.
  induction o as [|[k v] o IH]; simpl; intros Hnd; [reflexivity|].
  inversion Hnd as [|? ? Hnin Hnd']; subst.
  rewrite String.eqb_refl. simpl. f_equal.
  rewrite <- (IH Hnd') at 2. apply map_ext_in.
  intros k' Hk'. destruct (String.eqb_spec k k') as [->|_]; [contradiction | reflexivity].
Qed.

(** X1.  The constructor emits nothing, takes [#secure] and [#keys] from
    the options, and seeds the store from the object [getCookies]
    returns: keys are unique, every name has the value the object gives
    it, and the names stand in [Object.keys] order, array-index names
    first and ascending, the others in the order of the object.  When no
    name is an array index the store is the object's pairs in their
    order. *)
Theorem constructor_seeds_store (cookies : list (string * string))
  (res : list HeaderCall) (opts : option CookieJarOptions) :
  let j := new_CookieJar cookies res opts in
  jar_res j = res
  /\ jar_secure j = match opts with Some o => isTrue (jo_secure o) | None => false end
  /\ jar_keys j = match opts with Some o => jo_keys o | None => None end
  /\ store_wf (jar_store j)
  /\ (forall k, map_get k (jar_store j) = map_get k cookies)
  /\ (NoDup (map_keys cookies) ->
      map_keys (jar_store j) = Object_keys cookies
      /\ ((forall k, In k (map_keys cookies) -> array_index k = None) ->
          jar_store j = cookies)).
Proof.
  unfold new_CookieJar.
  destruct (fold_set_fields (Object_entries cookies)
              (mkJar [] res
                 (match opts with Some o => isTrue (jo_secure o) | None => false end)
                 (match opts with Some o => jo_keys o | None => None end)))
    as (E1 & E2 & E3 & E4).
  simpl in *. rewrite E1. repeat split; auto.
  - apply fold_set_wf. constructor.
  - intros k. rewrite fold_set_lookup, Object_entries_rev_lookup. simpl.
    now destruct (map_get k cookies).
  - assert (map fst (Object_entries cookies) = Object_keys cookies) as Ek.
    { unfold Object_entries. rewrite map_map. simpl. apply map_id. }
    rewrite fold_set_distinct; simpl; auto.
    rewrite Ek. eapply Permutation_NoDup; [|exact H].
    symmetry. apply Object_keys_perm.
  - intros Hplain.
    assert (map fst (Object_entries cookies) = Object_keys cookies) as Ek.
    { unfold Object_entries. rewrite map_map. simpl. apply map_id. }
    rewrite fold_set_distinct; simpl; auto.
    + unfold Object_entries, Object_keys.
      destruct (index_keys_plain (map_keys cookies) Hplain) as [-> ->]. simpl.
      now apply tabulate_own_values.
    + rewrite Ek. eapply Permutation_NoDup; [|exact H].
      symmetry. apply Object_keys_perm.
Qed.

(** ** The names in the store stay valid *)

Lemma new_CookieJar_lookup (cookies : list (string * string))
  (res : list HeaderCall) (opts : option CookieJarOptions) (k : string) :
  map_get k (jar_store (new_CookieJar cookies res opts)) = map_get k cookies.
Proof.
  unfold new_CookieJar.
  destruct (fold_set_fields (Object_entries cookies)
              (mkJar [] res
                 (match opts with Some o => isTrue (jo_secure o) | None => false end)
                 (match opts with Some o => jo_keys o | None => None end)))
    as (E1 & _).
  rewrite E1, fold_set_lookup, Object_entries_rev_lookup. simpl.
  now destruct (map_get k cookies).
Qed.

(** The constructor takes the names of the request as they are. *)
Lemma constructor_names_valid (cookies : list (string * string))
  (res : list HeaderCall) (opts : option CookieJarOptions) :
  names_valid cookies = true ->
  names_valid (jar_store (new_CookieJar cookies res opts)) = true.
Proof.
  rewrite !names_valid_has. intros H k. unfold map_has.
  rewrite new_CookieJar_lookup. apply H.
Qed.

Lemma keeps_names_refl (j : CookieJar) : keeps_names j j.
Proof. intros H. exact H. Qed.

Lemma keeps_names_trans (j1 j2 j3 : CookieJar) :
  keeps_names j1 j2 -> keeps_names j2 j3 -> keeps_names j1 j3.
Proof. intros H1 H2 H. apply H2, H1, H. Qed.

Lemma keeps_names_res (h : HeaderCall) (j : CookieJar) :
  keeps_names j (with_res h j).
Proof. intros H. exact H. Qed.

Lemma shrinks_keeps_names (j j' : CookieJar) :
  shrinks j j' -> keeps_names j j'.
Proof.
  unfold keeps_names. rewrite !names_valid_has. intros Hs H k Hk.
  apply H. unfold map_has in *.
  destruct (map_get k (jar_store j')) as [v|] eqn:E; [|discriminate].
  now rewrite (Hs k v E).
Qed.

Lemma keeps_super_set_names (k v : string) :
  FIELD_CONTENT_REGEXP_test k = true -> keeps keeps_names (super_set k v).
Proof.
  intros Hk j. unfold keeps_names. simpl. rewrite !names_valid_has.
  intros H k' Hk'. destruct (String.eqb_spec k k') as [<-|Hne]; [exact Hk|].
  apply H. now rewrite map_has_set_neq in Hk'.
Qed.

Lemma keeps_names_of_shrinks {A : Type} (m : M A) :
  keeps shrinks m -> keeps keeps_names m.
Proof. intros H j. apply shrinks_keeps_names, H. Qed.

Ltac names_step :=
  keeps_step keeps_names_refl keeps_names_trans keeps_names_res.

Lemma Mod1_delete_names (name : string) :
  keeps keeps_names (Mod1.delete name).
Proof.
  unfold Mod1.delete. repeat names_step.
  apply keeps_names_of_shrinks, keeps_super_delete_shrinks.
Qed.

Lemma Mod1_setCookie_names (c : Cookie.t) (opts : CookieOptions.t) :
  FIELD_CONTENT_REGEXP_test (Cookie.name c) = true ->
  keeps keeps_names (Mod1.setCookie c opts).
Proof.
  intros H. unfold Mod1.setCookie. repeat names_step.
  now apply keeps_super_set_names.
Qed.

Lemma Mod1_set_names (name : string) (value : JsValue)
  (options : option CookieOptions.t) :
  keeps keeps_names (Mod1.set name value options).
Proof.
  unfold Mod1.set. cbv zeta.
  destruct (negb (truthy value)).
  - names_step; [apply Mod1_delete_names | names_step].
  - apply (keeps_guard _ keeps_names_refl keeps_names_trans).
    intros H. apply negb_false_true in H.
    repeat names_step;
      try (apply Mod1_setCookie_names; simpl;
           auto using FIELD_CONTENT_sig_of_valid).
Qed.

Lemma Mod1_get_names (name : string) (opts : option CookieOptions.t) :
  keeps keeps_names (Mod1.get name opts).
Proof.
  unfold Mod1.get. cbv zeta.
  repeat names_step; auto using Mod1_delete_names, Mod1_set_names.
Qed.

(** Valid names are an invariant of the jar: a method called on a store
    whose names all pass the grammar leaves such a store, whether it
    returns or throws. *)
Theorem names_stay_valid (ms : string -> MsResult) (Date_now : Z)
  (Date_parse : string -> Date) (name : string) (value : JsValue)
  (options : option CookieOptions.t) (j : CookieJar) :
  names_valid (jar_store j) = true ->
  names_valid (jar_store (snd (Mod1.set name value options j))) = true
  /\ names_valid (jar_store (snd (Mod1.get name options j))) = true
  /\ names_valid (jar_store (snd (Mod1.delete name j))) = true
  /\ names_valid (jar_store (snd (Mod1.clear j))) = true
  /\ names_valid (jar_store (snd (Mod2.set ms Date_now Date_parse name value options j))) = true
  /\ names_valid (jar_store (snd (Mod2.get ms Date_now Date_parse name options j))) = true
  /\ names_valid (jar_store (snd (Mod2.delete ms Date_now Date_parse name options j))) = true
  /\ names_valid (jar_store (snd (Mod2.clear j))) = true.
Proof.
  intros H.
  destruct (clear_empties_store j) as ((j1 & E1 & S1) & (j2 & E2 & S2)).
  split; [now apply (Mod1_set_names name value options j)|].
  split; [now apply (Mod1_get_names name options j)|].
  split; [now apply (Mod1_delete_names name j)|].
  split; [now rewrite E1; simpl; rewrite S1|].
  split; [now apply (shrinks_keeps_names _ _
                       (Mod2_set_shrinks ms Date_now Date_parse name value options j))|].
  split; [now apply (shrinks_keeps_names _ _
                       (Mod2_get_shrinks ms Date_now Date_parse name options j))|].
  split; [now apply (shrinks_keeps_names _ _
                       (Mod2_delete_shrinks ms Date_now Date_parse name options j))|].
  now rewrite E2; simpl; rewrite S2.
Qed.

Example names_stay_valid_example :
  let kg := sample_keygrip "k" [] in
  let j := new_CookieJar [("n", "v"); ("n.sig", "forged")] []
             (Some (mkJarOptions (Some kg) None)) in
  names_valid (jar_store j) = true
  /\ names_valid (jar_store (snd (Mod1.set "m" (JsString "w") None j))) = true.
Proof. split; reflexivity. Qed.

(** A stored name outside the grammar, which no request that follows
    RFC 6265 carries, makes [get] throw where [delete] checks the shadow
    name. *)
Example get_on_name_outside_grammar :
  let kg := sample_keygrip "k" [] in
  let j := new_CookieJar [(DEL, "v"); (DEL ++ ".sig", "forged")] []
             (Some (mkJarOptions (Some kg) None)) in
  names_valid (jar_store j) = false
  /\ Mod1.get DEL None j = (Throw (TypeError "argument name is invalid"), j)
  /\ Mod2.get sample_ms 0 sample_Date_parse DEL None j
     = (Throw (TypeError "argument name is invalid"), j).
Proof. repeat split. Qed.

(** ** What every method keeps *)

(** X2.  Keys stay unique: a method called on a store with unique keys
    leaves a store with unique keys, whether it returns or throws. *)
Theorem methods_keep_keys_unique (ms : string -> MsResult) (Date_now : Z)
  (Date_parse : string -> Date) (name : string) (value : JsValue)
  (options : option CookieOptions.t) (j : CookieJar) :
  store_wf (jar_store j) ->
  store_wf (jar_store (snd (Mod1.set name value options j)))
  /\ store_wf (jar_store (snd (Mod1.get name options j)))
  /\ store_wf (jar_store (snd (Mod1.delete name j)))
  /\ store_wf (jar_store (snd (Mod1.clear j)))
  /\ store_wf (jar_store (snd (Mod2.set ms Date_now Date_parse name value options j)))
  /\ store_wf (jar_store (snd (Mod2.get ms Date_now Date_parse name options j)))
  /\ store_wf (jar_store (snd (Mod2.delete ms Date_now Date_parse name options j)))
  /\ store_wf (jar_store (snd (Mod2.clear j))).
Proof.
  intros H. repeat split.
  - now apply (steady_Mod1_set name value options j).
  - now apply (steady_Mod1_get name options j).
  - now apply (steady_Mod1_delete name j).
  - now apply (steady_Mod1_clear j).
  - now apply (steady_Mod2_set ms Date_now Date_parse name value options j).
  - now apply (steady_Mod2_get ms Date_now Date_parse name options j).
  - now apply (steady_Mod2_delete ms Date_now Date_parse name options j).
  - now apply (steady_Mod2_clear j).
Qed.

Lemma methods_keep_keys_unique_witness :
  let kg := sample_keygrip "k2" ["k1"] in
  let j := new_CookieJar [("n", "v"); ("n.sig", sample_hmac "k1" "n=v")] []
             (Some (mkJarOptions (Some kg) None)) in
  store_wf (jar_store (snd (Mod1.set "m" (JsString "w") None j)))
  /\ store_wf (jar_store (snd (Mod2.get sample_ms 0 sample_Date_parse "n" None j))).
Proof.
  intros kg j.
  assert (store_wf (jar_store j)) as Hwf
    by (repeat constructor; simpl; intuition discriminate).
  split.
  - exact (proj1 (methods_keep_keys_unique sample_ms 0 sample_Date_parse
                    "m" (JsString "w") None j Hwf)).
  - destruct (methods_keep_keys_unique sample_ms 0 sample_Date_parse
                "n" JsNull None j Hwf) as (_ & _ & _ & _ & _ & H & _).
    exact H.
Defined.

(** The part of [grows] about the response and the configuration. *)
Lemma grows_appends (P : HeaderCall -> Prop) (j j' : CookieJar) :
  grows P j j' ->
  jar_secure j' = jar_secure j /\ jar_keys j' = jar_keys j
  /\ exists hs, jar_res j' = (jar_res j ++ hs)%list.
Proof.
  intros (S & K & (hs & E & _) & _). repeat split; auto. now exists hs.
Qed.

(** X3.  No method changes [#secure] or [#keys], and no method removes or
    rewrites a call already made on the response: the calls after are the
    calls before followed by the new ones, whether the method returns or
    throws. *)
Theorem methods_only_append (ms : string -> MsResult) (Date_now : Z)
  (Date_parse : string -> Date) (name : string) (value : JsValue)
  (options : option CookieOptions.t) (j : CookieJar) :
  let after (j' : CookieJar) :=
    jar_secure j' = jar_secure j /\ jar_keys j' = jar_keys j
    /\ exists hs, jar_res j' = (jar_res j ++ hs)%list in
  after (snd (Mod1.set name value options j))
  /\ after (snd (Mod1.get name options j))
  /\ after (snd (Mod1.delete name j))
  /\ after (snd (Mod1.clear j))
  /\ after (snd (Mod2.set ms Date_now Date_parse name value options j))
  /\ after (snd (Mod2.get ms Date_now Date_parse name options j))
  /\ after (snd (Mod2.delete ms Date_now Date_parse name options j))
  /\ after (snd (Mod2.clear j)).
Proof.
  cbv zeta.
  split; [eapply grows_appends, (steady_Mod1_set name value options j)|].
  split; [eapply grows_appends, (steady_Mod1_get name options j)|].
  split; [eapply grows_appends, (steady_Mod1_delete name j)|].
  split; [eapply grows_appends, (steady_Mod1_clear j)|].
  split; [eapply grows_appends,
            (steady_Mod2_set ms Date_now Date_parse name value options j)|].
  split; [eapply grows_appends,
            (steady_Mod2_get ms Date_now Date_parse name options j)|].
  split; [eapply grows_appends,
            (steady_Mod2_delete ms Date_now Date_parse name options j)|].
  eapply grows_appends, (steady_Mod2_clear j).
Qed.

Lemma grows_valid_calls (j j' : CookieJar) :
  grows valid_call j j' ->
  exists hs, jar_res j' = (jar_res j ++ hs)%list
             /\ Forall (fun h => FIELD_CONTENT_REGEXP_test (call_name h) = true) hs.
Proof. intros (_ & _ & H & _). exact H. Qed.

(** X4.  Every call that [set], [get] and [delete] make on the response
    carries a cookie name that passes the field-content grammar, whatever
    the arguments and whatever the store holds. *)
Theorem emitted_names_pass_grammar (ms : string -> MsResult) (Date_now : Z)
  (Date_parse : string -> Date) (name : string) (value : JsValue)
  (options : option CookieOptions.t) (j : CookieJar) :
  let after (j' : CookieJar) :=
    exists hs, jar_res j' = (jar_res j ++ hs)%list
               /\ Forall (fun h => FIELD_CONTENT_REGEXP_test (call_name h) = true) hs in
  after (snd (Mod1.set name value options j))
  /\ after (snd (Mod1.get name options j))
  /\ after (snd (Mod1.delete name j))
  /\ after (snd (Mod2.set ms Date_now Date_parse name value options j))
  /\ after (snd (Mod2.get ms Date_now Date_parse name options j))
  /\ after (snd (Mod2.delete ms Date_now Date_parse name options j)).
Proof.
  cbv zeta.
  split; [apply grows_valid_calls, (steady_Mod1_set name value options j)|].
  split; [apply grows_valid_calls, (steady_Mod1_get name options j)|].
  split; [apply grows_valid_calls, (steady_Mod1_delete name j)|].
  split; [apply grows_valid_calls,
            (steady_Mod2_set ms Date_now Date_parse name value options j)|].
  split; [apply grows_valid_calls,
            (steady_Mod2_get ms Date_now Date_parse name options j)|].
  apply grows_valid_calls,
    (steady_Mod2_delete ms Date_now Date_parse name options j).
Qed.

Lemma constructor_seeds_store_witness :
  jar_store (new_CookieJar [("a", "1"); ("b", "2")] [] None)
  = [("a", "1"); ("b", "2")]
  /\ map_keys (jar_store (new_CookieJar [("b", "1"); ("2", "x"); ("1", "y")]
                            [] None))
     = ["1"; "2"; "b"].
Proof.
  split.
  - destruct (constructor_seeds_store [("a", "1"); ("b", "2")] [] None)
      as (_ & _ & _ & _ & _ & H).
    apply H.
    + repeat constructor; simpl; intuition discriminate.
    + simpl. intros k [<-|[<-|[]]]; reflexivity.
  - destruct (constructor_seeds_store [("b", "1"); ("2", "x"); ("1", "y")]
                [] None)
      as (_ & _ & _ & _ & _ & H).
    apply H. repeat constructor; simpl; intuition discriminate.
Defined.

(** A request object with array-index names: they come first, ascending. *)
Example constructor_orders_index_names :
  jar_store (new_CookieJar [("b", "1"); ("2", "x"); ("1", "y")] [] None)
  = [("1", "y"); ("2", "x"); ("b", "1")].
Proof. reflexivity. Qed.

(** ** The validator *)

(** Over the code units 0..255 the class of the regexp leaves out the
    control characters other than tab, and DEL. *)
Lemma field_char_controls (c : ascii) :
  field_char c = true
  <-> ~ (let n := Z.of_N (N_of_ascii c) in (n < 32 /\ n <> 9) \/ n = 127).
Proof.
  unfold field_char. cbv zeta.
  pose proof (N_ascii_bounded c) as Hb.
  rewrite !orb_true_iff, !andb_true_iff, Z.eqb_eq, !Z.leb_le. lia.
Qed.

Lemma all_field_chars_In (s : string) :
  all_field_chars s = true
  <-> forall c, In c (list_ascii_of_string s) -> field_char c = true.
Proof.
  induction s as [|c s IH]; simpl.
  - split; [intros _ c [] | reflexivity].
  - rewrite andb_true_iff, IH. split.
    + intros [H1 H2] c' [<-|Hc]; auto.
    + intros H. split; [apply H; now left | intros c' Hc; apply H; now right].
Qed.

Lemma append_empty (a b : string) :
  ((a ++ b)%string =? "")%string = ((a =? "") && (b =? ""))%string.
Proof. destruct a; [now destruct b | reflexivity]. Qed.

(** X5.  [FIELD_CONTENT_REGEXP] rejects the empty string and every string
    that holds a control character other than tab (a code unit below
    0x20, or DEL, 0x7F), and accepts every other string of code units up
    to 0xFF.  So two accepted strings joined are accepted, every
    non-empty part of an accepted string is accepted, and "<name>.sig"
    is accepted for a non-empty [name] exactly when [name] is. *)
Theorem FIELD_CONTENT_rejects_controls (a b : string) :
  let control (c : ascii) :=
    let n := Z.of_N (N_of_ascii c) in (n < 32 /\ n <> 9) \/ n = 127 in
  let ok := FIELD_CONTENT_REGEXP_test in
  ok "" = false
  /\ (ok a = true
      <-> a <> ""%string
          /\ forall c, In c (list_ascii_of_string a) -> ~ control c)
  /\ (ok a = true -> ok b = true -> ok (a ++ b) = true)
  /\ (ok (a ++ b) = true ->
      (a <> ""%string -> ok a = true) /\ (b <> ""%string -> ok b = true))
  /\ (a <> ""%string -> ok (a ++ ".sig") = ok a).
Proof.
  cbv zeta. unfold FIELD_CONTENT_REGEXP_test.
  split; [reflexivity|].
  split; [|split; [|split]].
  - rewrite andb_true_iff, negb_true_iff, String.eqb_neq, all_field_chars_In.
    split; intros [H1 H2]; (split; [exact H1|]); intros c Hc;
      apply field_char_controls; auto.
  - rewrite all_field_chars_app, append_empty.
    intros [Ha1 Ha2]%andb_true_iff [Hb1 Hb2]%andb_true_iff.
    apply negb_true_iff in Ha1. now rewrite Ha1, Ha2, Hb2.
  - rewrite all_field_chars_app.
    intros [_ [Ha Hb]%andb_true_iff]%andb_true_iff.
    rewrite Ha, Hb, !andb_true_r, !negb_true_iff, !String.eqb_neq. auto.
  - intros Hne. apply String.eqb_neq in Hne.
    rewrite all_field_chars_app, append_empty, Hne. simpl.
    unfold field_char. simpl. now rewrite andb_true_r.
Qed.

Lemma FIELD_CONTENT_rejects_controls_witness :
  FIELD_CONTENT_REGEXP_test ("LastVisit" ++ "=100") = true
  /\ FIELD_CONTENT_REGEXP_test "=100" = true
  /\ FIELD_CONTENT_REGEXP_test ("LastVisit" ++ ".sig")
     = FIELD_CONTENT_REGEXP_test "LastVisit".
Proof.
  destruct (FIELD_CONTENT_rejects_controls "LastVisit" "=100")
    as (_ & _ & Hjoin & Hpart & Hsig).
  split; [exact (Hjoin eq_refl eq_refl)|].
  split.
  - apply (proj2 (Hpart (Hjoin eq_refl eq_refl))). discriminate.
  - apply Hsig. discriminate.
Defined.

(** A line feed is rejected wherever it stands; separators of the cookie
    syntax are not. *)
Example FIELD_CONTENT_examples :
  FIELD_CONTENT_REGEXP_test ("a" ++ String "010"%char "b") = false
  /\ FIELD_CONTENT_REGEXP_test DEL = false
  /\ FIELD_CONTENT_REGEXP_test "a;b=c d" = true
  /\ FIELD_CONTENT_REGEXP_test (String "255"%char "") = true.
Proof. repeat split. Qed.

(** ** Which entries a call can touch *)

(** X6.  [set(name, ...)] and [delete(name)] leave every entry other than
    those of [name] and "<name>.sig" as it was, whether they return or
    throw. *)
Theorem set_touches_only_its_pair (ms : string -> MsResult) (Date_now : Z)
  (Date_parse : string -> Date) (name k : string) (value : JsValue)
  (options : option CookieOptions.t) (j : CookieJar) :
  k <> name ->
  k <> (name ++ ".sig")%string ->
  map_get k (jar_store (snd (Mod1.set name value options j)))
  = map_get k (jar_store j)
  /\ map_get k (jar_store (snd (Mod2.set ms Date_now Date_parse name value options j)))
     = map_get k (jar_store j)
  /\ map_get k (jar_store (snd (Mod1.delete name j))) = map_get k (jar_store j)
  /\ map_get k (jar_store (snd (Mod2.delete ms Date_now Date_parse name options j)))
     = map_get k (jar_store j).
Proof.
  intros H1 H2. repeat split.
  - apply (Mod1_set_outside name value options j). intros [X|X]; contradiction.
  - apply (Mod2_set_outside ms Date_now Date_parse name value options j).
    intros X. now symmetry in X.
  - apply (Mod1_delete_outside name j). intros X. now symmetry in X.
  - apply (Mod2_delete_outside ms Date_now Date_parse name options j).
    intros X. now symmetry in X.
Qed.

Lemma set_touches_only_its_pair_witness :
  let kg := sample_keygrip "k1" [] in
  let j := new_CookieJar [("m", "w")] []
             (Some (mkJarOptions (Some kg) None)) in
  map_get "m" (jar_store (snd (Mod1.set "n" (JsString "v") None j))) = Some "w".
Proof.
  intros kg j.
  refine (proj1 (set_touches_only_its_pair sample_ms 0 sample_Date_parse
                   "n" "m" (JsString "v") None j _ _)); discriminate.
Defined.

(** X7.  [get(name)] leaves every entry other than that of "<name>.sig"
    as it was; in particular it never changes or removes the base entry
    of [name]. *)
Theorem get_touches_only_shadow (ms : string -> MsResult) (Date_now : Z)
  (Date_parse : string -> Date) (name k : string)
  (opts : option CookieOptions.t) (j : CookieJar) :
  k <> (name ++ ".sig")%string ->
  map_get k (jar_store (snd (Mod1.get name opts j))) = map_get k (jar_store j)
  /\ map_get k (jar_store (snd (Mod2.get ms Date_now Date_parse name opts j)))
     = map_get k (jar_store j)
  /\ map_get name (jar_store (snd (Mod1.get name opts j)))
     = map_get name (jar_store j)
  /\ map_get name (jar_store (snd (Mod2.get ms Date_now Date_parse name opts j)))
     = map_get name (jar_store j).
Proof.
  intros H.
  assert (forall k', k' <> (name ++ ".sig")%string ->
            map_get k' (jar_store (snd (Mod1.get name opts j)))
            = map_get k' (jar_store j)) as E1.
  { intros k' Hk'. apply (Mod1_get_outside name opts j).
    intros X. now symmetry in X. }
  assert (forall k', k' <> (name ++ ".sig")%string ->
            map_get k' (jar_store (snd (Mod2.get ms Date_now Date_parse name opts j)))
            = map_get k' (jar_store j)) as E2.
  { intros k' Hk'. apply (Mod2_get_outside ms Date_now Date_parse name opts j).
    intros X. now symmetry in X. }
  assert (name <> (name ++ ".sig")%string) as Hne
    by (intros X; symmetry in X; now apply append_sig_neq in X).
  auto.
Qed.

Lemma get_touches_only_shadow_witness :
  let kg := sample_keygrip "k" [] in
  let j := new_CookieJar [("n", "v"); ("n.sig", "forged")] []
             (Some (mkJarOptions (Some kg) None)) in
  map_get "n" (jar_store (snd (Mod1.get "n" None j))) = Some "v".
Proof.
  intros kg j.
  refine (proj1 (get_touches_only_shadow sample_ms 0 sample_Date_parse
                   "n" "n" None j _)); discriminate.
Defined.

(** X8.  Second revision: no call of [set], [get] or [delete] adds an
    entry to the store or changes the value of one; an entry found after
    the call was there before, with the same value. *)
Theorem Mod2_store_never_gains (ms : string -> MsResult) (Date_now : Z)
  (Date_parse : string -> Date) (name k v : string) (value : JsValue)
  (options : option CookieOptions.t) (j : CookieJar) :
  (map_get k (jar_store (snd (Mod2.set ms Date_now Date_parse name value options j)))
   = Some v -> map_get k (jar_store j) = Some v)
  /\ (map_get k (jar_store (snd (Mod2.get ms Date_now Date_parse name options j)))
      = Some v -> map_get k (jar_store j) = Some v)
  /\ (map_get k (jar_store (snd (Mod2.delete ms Date_now Date_parse name options j)))
      = Some v -> map_get k (jar_store j) = Some v).
Proof.
  repeat split.
  - apply (Mod2_set_shrinks ms Date_now Date_parse name value options j).
  - apply (Mod2_get_shrinks ms Date_now Date_parse name options j).
  - apply (Mod2_delete_shrinks ms Date_now Date_parse name options j).
Qed.

Lemma Mod2_store_never_gains_witness :
  let j := new_CookieJar [("m", "w")] [] None in
  map_get "m" (jar_store j) = Some "w".
Proof.
  intros j.
  apply (proj1 (Mod2_store_never_gains sample_ms 0 sample_Date_parse
                  "n" "m" "w" (JsString "v")
                  (Some (CookieOptions.only_overwrite true)) j)).
  reflexivity.
Defined.

(** ** delete and clear *)

Lemma Mod2_setCookie_returns_true (ms : string -> MsResult) (Date_now : Z)
  (Date_parse : string -> Date) (name : string) (value : JsValue)
  (opts : CookieOptions.t) (j : CookieJar) (b : bool) :
  fst (Mod2.setCookie ms Date_now Date_parse name value opts j) = Return b ->
  b = true.
Proof.
  unfold Mod2.setCookie, Mod2.parse_sameSite, Mod2.parse_maxAge.
  unfold bind, throw_if, throw, ret, this_secure, this_keys, Http.setCookie.
  cbv zeta.
  repeat match goal with
         | |- context [if ?c then _ else _] => destruct c
         | |- context [match ?x with _ => _ end] => destruct x
         end; simpl; congruence.
Qed.

(** X9.  [delete] of a name that passes the grammar: when it returns, it
    returns whether the store held the name, and the store has lost that
    entry; when it throws (second revision, with options), the store is
    as it was.  After it, [has(name)] is false and an unsigned [get]
    returns absent. *)
Theorem delete_removes_the_entry (ms : string -> MsResult) (Date_now : Z)
  (Date_parse : string -> Date) (name : string)
  (opts : option CookieOptions.t) (j : CookieJar) :
  FIELD_CONTENT_REGEXP_test name = true ->
  let r1 := Mod1.delete name j in
  let r2 := Mod2.delete ms Date_now Date_parse name opts j in
  fst r1 = Return (map_has name (jar_store j))
  /\ jar_store (snd r1) = map_delete name (jar_store j)
  /\ match fst r2 with
     | Return b => b = map_has name (jar_store j)
                   /\ jar_store (snd r2) = map_delete name (jar_store j)
     | Throw _ => jar_store (snd r2) = jar_store j
     end
  /\ Mod1.has name (snd r1) = (Return false, snd r1)
  /\ Mod1.get name (Some (CookieOptions.only_signed false)) (snd r1)
     = (Return None, snd r1).
Proof.
  intros Hn r1 r2. unfold r1, r2.
  rewrite Mod1_delete_valid by assumption. simpl.
  repeat split.
  - unfold Mod2.delete. unfold bind at 1. unfold throw_if, ret.
    rewrite Hn. simpl.
    destruct opts as [o|].
    + unfold bind.
      pose proof (Mod2_setCookie_same_store ms Date_now Date_parse name
                    (JsString "")
                    (CookieOptions.expire (MaxAgeStr "") (ExpDate (DateMs 0)) o) j) as Es.
      pose proof (Mod2_setCookie_returns_true ms Date_now Date_parse name
                    (JsString "")
                    (CookieOptions.expire (MaxAgeStr "") (ExpDate (DateMs 0)) o) j) as Et.
      unfold same_store in Es.
      destruct (Mod2.setCookie ms Date_now Date_parse name (JsString "")
                  (CookieOptions.expire (MaxAgeStr "") (ExpDate (DateMs 0)) o) j)
        as [[b|e] j1]; simpl in *; [|exact Es].
      rewrite (Et b eq_refl). simpl. now rewrite Es.
    + simpl. auto.
  - unfold Mod1.has, super_has. simpl. now rewrite map_has_delete_eq.
  - unfold Mod1.get. run. now rewrite map_get_delete_eq.
Qed.

Lemma delete_removes_the_entry_witness :
  let j := new_CookieJar [("n", "v"); ("m", "w")] [] None in
  fst (Mod1.delete "n" j) = Return true
  /\ jar_store (snd (Mod1.delete "n" j)) = [("m", "w")].
Proof.
  intros j.
  destruct (delete_removes_the_entry sample_ms 0 sample_Date_parse "n" None j eq_refl)
    as (E1 & E2 & _).
  split; [exact E1 | exact E2].
Defined.

(** X10.  Second revision, [delete(name, opts)] when it does not sign:
    one cookie goes to the transport, with an empty value, [maxAge] the
    empty string and [expires] the epoch, and with the caller's [secure],
    [domain], [path] (default "/"), [httpOnly] (default true) and mapped
    [sameSite]; whatever [maxAge] and [expires] the caller passed are
    replaced. *)
Theorem Mod2_delete_carries_attributes (ms : string -> MsResult) (Date_now : Z)
  (Date_parse : string -> Date) (name : string) (o : CookieOptions.t)
  (j : CookieJar) :
  FIELD_CONTENT_REGEXP_test name = true ->
  negb (jar_secure j) && isTrue (CookieOptions.secure o) = false ->
  CookieOptions.sameSite o <> Some (SameSiteBool true) ->
  signs (Some o) j = false ->
  let sameSite :=
    match CookieOptions.sameSite o with
    | Some (SameSiteStr s) =>
        if (s =? "")%string then None else Mod2.SAME_SITE (toLowerCase s)
    | _ => None
    end in
  let c := Cookie.mk name (JsString "") (CookieOptions.secure o)
             (CookieOptions.domain o) (nullish (CookieOptions.path o) "/")
             (nullish (CookieOptions.httpOnly o) true) sameSite
             (Some (MaxAgeStr "")) (Some (ExpDate (DateMs 0))) in
  Mod2.delete ms Date_now Date_parse name (Some o) j
  = (Return (map_has name (jar_store j)),
     with_store (map_delete name) (with_res (SetCookieCall c) j)).
Proof.
  intros Hn Hsec Hss Hsig sameSite c. unfold Mod2.delete.
  unfold bind at 1. unfold throw_if, ret. rewrite Hn. simpl.
  unfold bind at 1. unfold Mod2.setCookie. cbv zeta.
  unfold bind at 1. unfold this_secure. simpl.
  unfold bind at 1. unfold throw_if. rewrite Hsec. unfold ret at 1.
  unfold bind at 1.
  assert (Mod2.parse_sameSite (CookieOptions.sameSite o) j = (Return sameSite, j)) as ->.
  { unfold sameSite. destruct (CookieOptions.sameSite o) as [[[|]|s]|]; simpl.
    - contradiction.
    - reflexivity.
    - apply parse_sameSite_string.
    - reflexivity. }
  unfold bind at 1. simpl. unfold ret at 1.
  unfold bind at 1. unfold Http.setCookie.
  unfold bind at 1. unfold this_keys.
  unfold signs in Hsig. simpl in Hsig. simpl. rewrite Hsig.
  reflexivity.
Qed.

Lemma Mod2_delete_carries_attributes_witness :
  let j := new_CookieJar [("n", "v")] [] None in
  let o := CookieOptions.mk None None (Some "/app") (Some "example.com")
             None (Some false) None None (Some (SameSiteStr "LAX")) in
  Mod2.delete sample_ms 0 sample_Date_parse "n" (Some o) j
  = (Return true,
     mkJar []
       [SetCookieCall
          (Cookie.mk "n" (JsString "") None (Some "example.com") "/app" false
             (Some Lax) (Some (MaxAgeStr "")) (Some (ExpDate (DateMs 0))))]
       false None).
Proof.
  intros j o.
  refine (Mod2_delete_carries_attributes sample_ms 0 sample_Date_parse
            "n" o j eq_refl eq_refl _ eq_refl).
  discriminate.
Defined.

(** X11.  First revision, [clear()]: one [deleteCookie] per name of the
    store, in the order of the store, and the store is left empty. *)
Theorem Mod1_clear_deletes_every_name (j : CookieJar) :
  Mod1.clear j
  = (Return tt,
     mkJar [] (jar_res j ++ map DeleteCookieCall (map_keys (jar_store j)))
       (jar_secure j) (jar_keys j)).
Proof.
  unfold Mod1.clear. run. now rewrite Mod1_clear_loop_run.
Qed.

Lemma lastIndexOf_from_sig (name : string) (i acc : Z) :
  lastIndexOf_from ".sig" (name ++ ".sig") i acc
  = i + Z.of_nat (String.length name).
Proof.
  revert i acc. induction name as [|c name IH]; intros i acc.
  - simpl. lia.
  - change (lastIndexOf_from ".sig" (String c name ++ ".sig") i acc)
      with (lastIndexOf_from ".sig" (name ++ ".sig") (i + 1)
              (if String.prefix ".sig" (String c (name ++ ".sig")) then i else acc)).
    rewrite IH. simpl String.length. lia.
Qed.

Lemma substring_prefix (a b : string) :
  substring 0 (String.length a) (a ++ b) = a.
Proof.
  induction a as [|c a IH]; simpl.
  - now destruct b.
  - now rewrite IH.
Qed.

(** The loop of the second revision's [clear()] skips a shadow name
    exactly when the store holds its base name. *)
Lemma clear_skips_shadow (st : Store) (name : string) :
  clear_skips st (name ++ ".sig") = map_has name st.
Proof.
  unfold clear_skips, lastIndexOf. rewrite lastIndexOf_from_sig.
  replace (Z.to_nat (0 + Z.of_nat (String.length name))) with (String.length name)
    by lia.
  rewrite substring_prefix.
  destruct (Z.eqb_spec (0 + Z.of_nat (String.length name)) (-1)); [lia|].
  reflexivity.
Qed.

Lemma Mod2_clear_loop_exact (ks : list string) (j : CookieJar) :
  Mod2.clear_loop ks j
  = (Return tt,
     with_calls (map DeleteCookieCall
                   (filter (fun k => negb (clear_skips (jar_store j) k)) ks)) j).
Proof.
  revert j. induction ks as [|k ks IH]; intros j; simpl.
  - unfold ret, with_calls. rewrite app_nil_r. now destruct j.
  - run. fold (clear_skips (jar_store j) k).
    destruct (clear_skips (jar_store j) k); simpl.
    + apply IH.
    + rewrite IH. unfold with_calls, with_res. simpl.
      now rewrite <- app_assoc.
Qed.

(** X12.  Second revision, [clear()]: the store is left empty, and the
    names that get a [deleteCookie] are the names of the store that do
    not meet the skip test.  "<name>.sig" gets one exactly when the store
    holds it and does not hold [name]: the shadow of a cookie that is in
    the store is never expired on the client. *)
Theorem Mod2_clear_skips_present_shadows (j : CookieJar) :
  exists hs,
    Mod2.clear j
    = (Return tt, mkJar [] (jar_res j ++ hs) (jar_secure j) (jar_keys j))
    /\ (forall k, In (DeleteCookieCall k) hs
                  <-> map_has k (jar_store j) = true
                      /\ clear_skips (jar_store j) k = false)
    /\ (forall name, In (DeleteCookieCall (name ++ ".sig")) hs
                     <-> map_has (name ++ ".sig") (jar_store j) = true
                         /\ map_has name (jar_store j) = false)
    /\ (forall h, In h hs -> exists k, h = DeleteCookieCall k).
Proof.
  set (hs := map DeleteCookieCall
               (filter (fun k => negb (clear_skips (jar_store j) k))
                  (map_keys (jar_store j)))).
  assert (forall k, In (DeleteCookieCall k) hs
                    <-> map_has k (jar_store j) = true
                        /\ clear_skips (jar_store j) k = false) as Hin.
  { intros k. unfold hs. rewrite in_map_iff. split.
    - intros (k' & [= ->] & Hk). apply filter_In in Hk.
      destruct Hk as [Hk Hs]. rewrite map_keys_has in Hk.
      now apply negb_true_iff in Hs.
    - intros [Hk Hs]. exists k. split; [reflexivity|].
      apply filter_In. rewrite map_keys_has. split; [exact Hk|].
      now rewrite Hs. }
  exists hs. split; [|split; [|split]].
  - unfold Mod2.clear. run. now rewrite Mod2_clear_loop_exact.
  - exact Hin.
  - intros name. rewrite Hin, clear_skips_shadow. reflexivity.
  - intros h Hh. unfold hs in Hh. apply in_map_iff in Hh.
    destruct Hh as (k & <- & _). now exists k.
Qed.

(** On a store that holds "n" and "n.sig", the second revision's
    [clear()] asks the transport to expire "n" only. *)
Example Mod2_clear_example :
  let j := new_CookieJar [("n", "v"); ("n.sig", "s"); ("m.sig", "t")] [] None in
  Mod2.clear j
  = (Return tt, mkJar [] [DeleteCookieCall "n"; DeleteCookieCall "m.sig"] false None).
Proof. reflexivity. Qed.

(** ** Errors of set *)

Lemma Mod2_setCookie_insecure (ms : string -> MsResult) (Date_now : Z)
  (Date_parse : string -> Date) (name : string) (value : JsValue)
  (o : CookieOptions.t) (j : CookieJar) :
  jar_secure j = false ->
  isTrue (CookieOptions.secure o) = true ->
  Mod2.setCookie ms Date_now Date_parse name value o j
  = (Throw (Error "Cannot send secure cookie over unencrypted connection"), j).
Proof.
  intros Hj Hs. unfold Mod2.setCookie. cbv zeta.
  unfold bind at 1. unfold this_secure.
  unfold bind at 1. unfold throw_if. now rewrite Hj, Hs.
Qed.

(** X13.  A cookie asked with [secure: true] on a jar whose [#secure] is
    false, once the checks that come first have passed.  The second
    revision's [delete] with options, on a valid name, throws "Cannot
    send secure cookie over unencrypted connection".  So does [set] with
    a valid name and value and no rejected [path] or [domain]: the first
    revision's when [sameSite] is not rejected either, the second
    revision's when the name is not held back by the overwrite policy.
    The jar is left as it was: nothing is emitted, the store is
    unchanged.  On a name held back by the overwrite policy the second
    revision's [set] returns without any check. *)
Theorem secure_cookie_needs_secure_jar (ms : string -> MsResult) (Date_now : Z)
  (Date_parse : string -> Date) (name v : string) (o : CookieOptions.t)
  (j : CookieJar) :
  jar_secure j = false ->
  CookieOptions.secure o = Some true ->
  FIELD_CONTENT_REGEXP_test name = true ->
  let e := Error "Cannot send secure cookie over unencrypted connection" in
  let bad (x : option string) :=
    nonEmpty x && negb (FIELD_CONTENT_REGEXP_test (nullish x "")) in
  let bad_sameSite :=
    sameSite_truthy (CookieOptions.sameSite o) &&
    negb (match CookieOptions.sameSite o with
          | Some x => Mod1.SAME_SITE_includes x
          | None => false
          end) in
  let held_back :=
    negb (isTrue (CookieOptions.overwrite o)) && map_has name (jar_store j) in
  Mod2.delete ms Date_now Date_parse name (Some o) j = (Throw e, j)
  /\ (FIELD_CONTENT_REGEXP_test v = true ->
      bad (CookieOptions.path o) = false ->
      bad (CookieOptions.domain o) = false ->
      (bad_sameSite = false ->
       Mod1.set name (JsString v) (Some o) j = (Throw e, j))
      /\ (held_back = false ->
          Mod2.set ms Date_now Date_parse name (JsString v) (Some o) j
          = (Throw e, j))
      /\ (held_back = true ->
          Mod2.set ms Date_now Date_parse name (JsString v) (Some o) j
          = (Return tt, j))).
Proof.
  intros Hj Hs Hn e bad bad_sameSite held_back.
  split.
  - unfold Mod2.delete. unfold bind at 1. unfold throw_if, ret. rewrite Hn. simpl.
    unfold bind.
    rewrite Mod2_setCookie_insecure; [reflexivity | assumption | simpl; now rewrite Hs].
  - intros Hv Hp Hd.
    pose proof (FIELD_CONTENT_nonempty _ Hv) as Hne.
    split; [|split].
    + intros Hss. unfold Mod1.set. simpl. rewrite Hne. simpl.
      unfold bind, throw_if, throw, ret, this_secure. rewrite Hn, Hv. simpl.
      fold (bad (CookieOptions.path o)). rewrite Hp.
      fold (bad (CookieOptions.domain o)). rewrite Hd.
      fold bad_sameSite. rewrite Hss.
      now rewrite Hj, Hs.
    + intros Hov. unfold Mod2.set. simpl. rewrite Hne. simpl.
      unfold andString. simpl. rewrite Hne. simpl.
      unfold bind at 1. unfold super_has. fold held_back. rewrite Hov.
      unfold bind, throw_if, throw, ret. rewrite Hn, Hv. simpl.
      fold (bad (CookieOptions.path o)). rewrite Hp.
      fold (bad (CookieOptions.domain o)). rewrite Hd.
      rewrite andb_false_r. cbv beta iota.
      rewrite Mod2_setCookie_insecure; [reflexivity | assumption | now rewrite Hs].
    + intros Hov. unfold held_back in Hov. apply andb_true_iff in Hov.
      destruct Hov as [Ho Hh]. apply negb_true_iff in Ho.
      apply Mod2_set_present; [right; discriminate | exact Ho | exact Hh].
Qed.

Lemma secure_cookie_needs_secure_jar_witness :
  let j := new_CookieJar [("m", "w")] [] (Some (mkJarOptions None (Some false))) in
  let o := CookieOptions.mk None None (Some "/app") None (Some true) None None
             None (Some (SameSiteStr "lax")) in
  let e := Error "Cannot send secure cookie over unencrypted connection" in
  Mod1.set "n" (JsString "v") (Some o) j = (Throw e, j)
  /\ Mod2.set sample_ms 0 sample_Date_parse "n" (JsString "v") (Some o) j
     = (Throw e, j)
  /\ Mod2.set sample_ms 0 sample_Date_parse "m" (JsString "v") (Some o) j
     = (Return tt, j)
  /\ Mod2.delete sample_ms 0 sample_Date_parse "m" (Some o) j = (Throw e, j).
Proof.
  intros j o e.
  destruct (secure_cookie_needs_secure_jar sample_ms 0 sample_Date_parse
              "n" "v" o j eq_refl eq_refl eq_refl) as (_ & Hn).
  destruct (Hn eq_refl eq_refl eq_refl) as (H1 & H2 & _).
  destruct (secure_cookie_needs_secure_jar sample_ms 0 sample_Date_parse
              "m" "v" o j eq_refl eq_refl eq_refl) as (Hd & Hm).
  destruct (Hm eq_refl eq_refl eq_refl) as (_ & _ & H3).
  split; [exact (H1 eq_refl)|].
  split; [exact (H2 eq_refl)|].
  split; [exact (H3 eq_refl) | exact Hd].
Defined.

(** X14.  A name that fails the grammar: [delete] and the first
    revision's [set] throw "argument name is invalid" and leave the jar
    as it was, whatever the value and the options; so does the second
    revision's [set], unless the store holds the name and [overwrite] is
    not set, in which case it returns without checking the name. *)
Theorem invalid_name_is_rejected (ms : string -> MsResult) (Date_now : Z)
  (Date_parse : string -> Date) (name : string) (value : JsValue)
  (options : option CookieOptions.t) (j : CookieJar) :
  FIELD_CONTENT_REGEXP_test name = false ->
  let e := TypeError "argument name is invalid" in
  let guard :=
    negb (isTrue (CookieOptions.overwrite (nullish options CookieOptions.empty)))
    && map_has name (jar_store j) in
  Mod1.set name value options j = (Throw e, j)
  /\ Mod1.delete name j = (Throw e, j)
  /\ Mod2.delete ms Date_now Date_parse name options j = (Throw e, j)
  /\ (guard = false ->
      Mod2.set ms Date_now Date_parse name value options j = (Throw e, j))
  /\ (guard = true -> truthy value = true \/ options <> None ->
      Mod2.set ms Date_now Date_parse name value options j = (Return tt, j)).
Proof.
  intros Hn e guard. repeat split.
  - unfold Mod1.set. destruct (truthy value); simpl.
    + run. now rewrite Hn.
    + unfold bind. now rewrite Mod1_delete_invalid.
  - now apply Mod1_delete_invalid.
  - now apply Mod2_delete_invalid.
  - intros Hg. unfold Mod2.set.
    destruct (negb (truthy value) && _).
    + unfold bind. now rewrite Mod2_delete_invalid.
    + cbv zeta. unfold bind at 1. unfold super_has. fold guard. rewrite Hg.
      run. now rewrite Hn.
  - intros Hg Hv. unfold guard in Hg. apply andb_true_iff in Hg.
    destruct Hg as [Ho Hp]. apply Mod2_set_present; auto.
    now apply negb_true_iff in Ho.
Qed.

Lemma invalid_name_is_rejected_witness :
  let j := new_CookieJar [] [] None in
  let bad := ("bad" ++ String "010"%char "name")%string in
  Mod1.set bad (JsString "v") None j
  = (Throw (TypeError "argument name is invalid"), j)
  /\ Mod2.set sample_ms 0 sample_Date_parse bad (JsString "v") None j
     = (Throw (TypeError "argument name is invalid"), j).
Proof.
  intros j bad.
  destruct (invalid_name_is_rejected sample_ms 0 sample_Date_parse bad
              (JsString "v") None j eq_refl) as (E1 & _ & _ & E2 & _).
  split; [exact E1 | exact (E2 eq_refl)].
Defined.

(** X15.  With a valid name: a non-empty value that fails the grammar
    makes [set] throw "argument value is invalid"; with a valid value, a
    non-empty [path] that fails it makes [set] throw "option path is
    invalid"; with those valid, a non-empty [domain] that fails it makes
    [set] throw "option domain is invalid".  The jar is left as it was.
    (Second revision: on a name that is not held back by the overwrite
    policy.) *)
Theorem invalid_argument_is_rejected (ms : string -> MsResult) (Date_now : Z)
  (Date_parse : string -> Date) (name v : string) (o : CookieOptions.t)
  (j : CookieJar) :
  FIELD_CONTENT_REGEXP_test name = true ->
  v <> ""%string ->
  negb (isTrue (CookieOptions.overwrite o)) && map_has name (jar_store j) = false ->
  let bad (x : option string) := nonEmpty x && negb (FIELD_CONTENT_REGEXP_test (nullish x "")) in
  let both (e : Exn) :=
    Mod1.set name (JsString v) (Some o) j = (Throw e, j)
    /\ Mod2.set ms Date_now Date_parse name (JsString v) (Some o) j = (Throw e, j) in
  (FIELD_CONTENT_REGEXP_test v = false ->
   both (TypeError "argument value is invalid"))
  /\ (FIELD_CONTENT_REGEXP_test v = true -> bad (CookieOptions.path o) = true ->
      both (TypeError "option path is invalid"))
  /\ (FIELD_CONTENT_REGEXP_test v = true -> bad (CookieOptions.path o) = false ->
      bad (CookieOptions.domain o) = true ->
      both (TypeError "option domain is invalid")).
Proof.
  intros Hn Hne Hov bad both. apply String.eqb_neq in Hne.
  assert (forall e,
            (if negb (FIELD_CONTENT_REGEXP_test v) then Some (TypeError "argument value is invalid")
             else if bad (CookieOptions.path o) then Some (TypeError "option path is invalid")
             else if bad (CookieOptions.domain o) then Some (TypeError "option domain is invalid")
             else None) = Some e -> both e) as H.
  { intros e He. unfold both. split.
    - unfold Mod1.set. simpl. rewrite Hne. simpl.
      unfold bind, throw_if, throw, ret. rewrite Hn. simpl.
      destruct (negb (FIELD_CONTENT_REGEXP_test v)); [now inversion He|].
      fold (bad (CookieOptions.path o)).
      destruct (bad (CookieOptions.path o)); [now inversion He|].
      fold (bad (CookieOptions.domain o)).
      destruct (bad (CookieOptions.domain o)); [now inversion He | discriminate He].
    - unfold Mod2.set. simpl. rewrite Hne. simpl.
      unfold andString. simpl. rewrite Hne. simpl.
      unfold bind at 1. unfold super_has. rewrite Hov.
      unfold bind, throw_if, throw, ret. rewrite Hn. simpl. rewrite ?Hne. simpl.
      destruct (negb (FIELD_CONTENT_REGEXP_test v)); [now inversion He|].
      fold (bad (CookieOptions.path o)).
      destruct (bad (CookieOptions.path o)); [now inversion He|].
      fold (bad (CookieOptions.domain o)).
      destruct (bad (CookieOptions.domain o)); [now inversion He | discriminate He]. }
  split; [|split].
  - intros Hv. apply H. now rewrite Hv.
  - intros Hv Hp. apply H. now rewrite Hv, Hp.
  - intros Hv Hp Hd. apply H. now rewrite Hv, Hp, Hd.
Qed.

Lemma invalid_argument_is_rejected_witness :
  let j := new_CookieJar [] [] None in
  let o := CookieOptions.mk None None (Some DEL) None None None None None None in
  Mod1.set "n" (JsString "v") (Some o) j
  = (Throw (TypeError "option path is invalid"), j)
  /\ Mod2.set sample_ms 0 sample_Date_parse "n" (JsString "v") (Some o) j
     = (Throw (TypeError "option path is invalid"), j).
Proof.
  intros j o.
  assert ("v"%string <> ""%string) as Hne by discriminate.
  destruct (invalid_argument_is_rejected sample_ms 0 sample_Date_parse
              "n" "v" o j eq_refl Hne eq_refl) as (_ & E & _).
  exact (E eq_refl eq_refl).
Defined.

(** ** Reading with signatures *)

Lemma index_of_own_signature (kg : Keygrip) (data : string) :
  index kg data (sign kg data) = 0.
Proof. unfold index, sign, kg_keys. simpl. now rewrite String.eqb_refl. Qed.

(** X16.  When signing applies and the shadow entry holds the current
    key's signature of "<name>=<value>" for the stored value, [get]
    returns the stored value and leaves the jar as it was. *)
Theorem get_accepts_current_signature (ms : string -> MsResult) (Date_now : Z)
  (Date_parse : string -> Date) (name : string) (kg : Keygrip)
  (opts : option CookieOptions.t) (j : CookieJar) :
  signs opts j = true ->
  jar_keys j = Some kg ->
  let data := (name ++ "=" ++ toStr (ofLookup (map_get name (jar_store j))))%string in
  map_get (name ++ ".sig") (jar_store j) = Some (sign kg data) ->
  sign kg data <> ""%string ->
  Mod1.get name opts j = (Return (map_get name (jar_store j)), j)
  /\ Mod2.get ms Date_now Date_parse name opts j
     = (Return (map_get name (jar_store j)), j).
Proof.
  intros Hs Hk data Hg Hne. apply String.eqb_neq in Hne.
  pose proof (index_of_own_signature kg data) as Hi.
  unfold signs in Hs. unfold data in *. simpl in Hi, Hg, Hne.
  split.
  - unfold Mod1.get. run. rewrite Hk in *. rewrite Hs. simpl.
    rewrite Hg. simpl. rewrite Hne. simpl. now rewrite Hi.
  - unfold Mod2.get. run. rewrite Hk in *. rewrite Hs.
    rewrite Hg. simpl. rewrite Hne. simpl. now rewrite Hi.
Qed.

Lemma get_accepts_current_signature_witness :
  let kg := sample_keygrip "k1" [] in
  let j := new_CookieJar [("n", "v"); ("n.sig", sample_hmac "k1" "n=v")] []
             (Some (mkJarOptions (Some kg) None)) in
  Mod1.get "n" None j = (Return (Some "v"), j)
  /\ Mod2.get sample_ms 0 sample_Date_parse "n" None j = (Return (Some "v"), j).
Proof.
  intros kg j.
  refine (get_accepts_current_signature sample_ms 0 sample_Date_parse
            "n" kg None j eq_refl eq_refl eq_refl _).
  discriminate.
Defined.

(** X17.  When signing applies and the store has no shadow entry for the
    name, or an empty one, nothing is verified and the jar is left as it
    was: the first revision returns absent, the second revision returns
    the stored value. *)
Theorem get_without_shadow (ms : string -> MsResult) (Date_now : Z)
  (Date_parse : string -> Date) (name : string)
  (opts : option CookieOptions.t) (j : CookieJar) :
  signs opts j = true ->
  nonEmpty (map_get (name ++ ".sig") (jar_store j)) = false ->
  Mod1.get name opts j = (Return None, j)
  /\ Mod2.get ms Date_now Date_parse name opts j
     = (Return (map_get name (jar_store j)), j).
Proof.
  intros Hs Hg. unfold signs in Hs. split.
  - unfold Mod1.get. run. rewrite Hs. simpl. now rewrite Hg.
  - unfold Mod2.get. run. rewrite Hs. now rewrite Hg.
Qed.

Lemma get_without_shadow_witness :
  let kg := sample_keygrip "k1" [] in
  let j := new_CookieJar [("n", "v")] [] (Some (mkJarOptions (Some kg) None)) in
  Mod1.get "n" None j = (Return None, j)
  /\ Mod2.get sample_ms 0 sample_Date_parse "n" None j = (Return (Some "v"), j).
Proof.
  intros kg j.
  exact (get_without_shadow sample_ms 0 sample_Date_parse "n" None j
           eq_refl eq_refl).
Defined.

(** X18.  [get] with [signed: true] on a jar without keys throws "Keys
    required for signed cookies" when the store holds a non-empty shadow
    entry for the name, and leaves the jar as it was. *)
Theorem get_signed_needs_keys (ms : string -> MsResult) (Date_now : Z)
  (Date_parse : string -> Date) (name sg : string)
  (opts : option CookieOptions.t) (j : CookieJar) :
  signs opts j = true ->
  jar_keys j = None ->
  map_get (name ++ ".sig") (jar_store j) = Some sg ->
  sg <> ""%string ->
  Mod1.get name opts j = (Throw (Error "Keys required for signed cookies"), j)
  /\ Mod2.get ms Date_now Date_parse name opts j
     = (Throw (Error "Keys required for signed cookies"), j).
Proof.
  intros Hs Hk Hg Hne. apply String.eqb_neq in Hne. unfold signs in Hs. split.
  - unfold Mod1.get. run. rewrite Hk in *. rewrite Hs. simpl.
    rewrite Hg. simpl. now rewrite Hne.
  - unfold Mod2.get. run. rewrite Hk in *. rewrite Hs.
    rewrite Hg. simpl. now rewrite Hne.
Qed.

Lemma get_signed_needs_keys_witness :
  let j := new_CookieJar [("n", "v"); ("n.sig", "s")] [] None in
  Mod1.get "n" (Some (CookieOptions.only_signed true)) j
  = (Throw (Error "Keys required for signed cookies"), j).
Proof.
  intros j.
  refine (proj1 (get_signed_needs_keys sample_ms 0 sample_Date_parse "n" "s"
                   (Some (CookieOptions.only_signed true)) j
                   eq_refl eq_refl eq_refl _)).
  discriminate.
Defined.

(** ** Writing *)

Lemma map_delete_absent (k : string) (m : Store) :
  map_has k m = false -> map_delete k m = m.
Proof.
  unfold map_has. induction m as [|[k' v'] m IH]; simpl; [reflexivity|].
  destruct (k' =? k)%string; [discriminate|].
  intros H. now rewrite IH.
Qed.

Lemma map_delete_app (k : string) (a b : Store) :
  map_delete k (a ++ b)%list = (map_delete k a ++ map_delete k b)%list.
Proof.
  induction a as [|[k' v'] a IH]; simpl; [reflexivity|].
  destruct (k' =? k)%string; simpl; now rewrite IH.
Qed.

(** X19.  First revision, no keys: [set(name, v)] on a valid name the
    store lacks, followed by [delete(name)], leaves the store exactly as
    it was before the two calls; the response has gained the cookie and
    then its expiry. *)
Theorem set_then_delete_restores_store (name v : string) (j : CookieJar) :
  jar_keys j = None ->
  FIELD_CONTENT_REGEXP_test name = true ->
  FIELD_CONTENT_REGEXP_test v = true ->
  map_has name (jar_store j) = false ->
  exists j1 j2 c,
    Mod1.set name (JsString v) None j = (Return tt, j1)
    /\ Mod1.has name j1 = (Return true, j1)
    /\ Mod1.delete name j1 = (Return true, j2)
    /\ jar_store j2 = jar_store j
    /\ jar_res j2 = (jar_res j ++ [SetCookieCall c; DeleteCookieCall name])%list
    /\ Cookie.name c = name /\ Cookie.value c = JsString v.
Proof.
  intros Hk Hn Hv Hp.
  pose proof (Mod1_set_unsigned_run name v j Hk Hn Hv) as E.
  cbv zeta in E. rewrite Hp in E.
  eexists. eexists. eexists. split; [exact E|].
  assert (map_has name (map_set name v (jar_store j)) = true) as Hh
    by apply map_has_set_eq.
  split; [|split; [|split; [|split; [|split]]]].
  - unfold Mod1.has, super_has. simpl. now rewrite Hh.
  - rewrite Mod1_delete_valid by assumption. simpl. rewrite Hh. reflexivity.
  - simpl. rewrite map_set_fresh by assumption.
    rewrite map_delete_app, map_delete_absent by assumption.
    simpl. rewrite String.eqb_refl. apply app_nil_r.
  - simpl. now rewrite <- app_assoc.
  - reflexivity.
  - reflexivity.
Qed.

Lemma set_then_delete_restores_store_witness :
  let j := new_CookieJar [("m", "w")] [] None in
  exists j1 j2 c,
    Mod1.set "n" (JsString "v") None j = (Return tt, j1)
    /\ Mod1.has "n" j1 = (Return true, j1)
    /\ Mod1.delete "n" j1 = (Return true, j2)
    /\ jar_store j2 = [("m", "w")]
    /\ jar_res j2 = [SetCookieCall c; DeleteCookieCall "n"]
    /\ Cookie.name c = "n"%string /\ Cookie.value c = JsString "v".
Proof.
  intros j.
  exact (set_then_delete_restores_store "n" "v" j eq_refl eq_refl eq_refl eq_refl).
Defined.

(** X20.  First revision: a [set] with a non-empty value that returns
    leaves the name in the store, and when it signed it leaves
    "<name>.sig" in the store too: after a successful signed [set] the
    base entry never stands without a shadow entry. *)
Theorem Mod1_set_leaves_the_pair (name v : string)
  (options : option CookieOptions.t) (j j' : CookieJar) :
  v <> ""%string ->
  Mod1.set name (JsString v) options j = (Return tt, j') ->
  map_has name (jar_store j') = true
  /\ (signs options j = true -> map_has (name ++ ".sig") (jar_store j') = true).
Proof.
  intros Hv. apply String.eqb_neq in Hv.
  unfold Mod1.set. simpl. rewrite Hv. simpl.
  set (opts := nullish options CookieOptions.empty).
  assert (signs options j
          = nullish (CookieOptions.signed opts)
              (match jar_keys j with Some _ => true | None => false end)) as Esig.
  { unfold signs, opts. now destruct options. }
  unfold bind, throw_if, throw, ret, this_secure, this_keys.
  destruct (negb (FIELD_CONTENT_REGEXP_test name)); [discriminate|].
  destruct (negb (FIELD_CONTENT_REGEXP_test v)); [discriminate|].
  destruct (nonEmpty (CookieOptions.path opts) && _); [discriminate|].
  destruct (nonEmpty (CookieOptions.domain opts) && _); [discriminate|].
  destruct (sameSite_truthy (CookieOptions.sameSite opts) && _); [discriminate|].
  destruct (negb (jar_secure j) && _); [discriminate|].
  set (base := Cookie.mk name (JsString v) _ _ _ _ _ _ _).
  assert (exists j1, Mod1.setCookie base opts j = (Return tt, j1)
                     /\ map_has name (jar_store j1) = true
                     /\ jar_keys j1 = jar_keys j) as (j1 & E1 & H1 & K1).
  { unfold Mod1.setCookie, bind, super_has, Http.setCookie, super_set, ret. simpl.
    destruct (isTrue (CookieOptions.overwrite opts) || negb (map_has name (jar_store j))) eqn:E.
    - eexists. split; [reflexivity|]. simpl. split; [apply map_has_set_eq | reflexivity].
    - eexists. split; [reflexivity|]. split; [|reflexivity].
      apply orb_false_iff in E. destruct E as [_ E].
      now apply negb_false_iff in E. }
  rewrite E1. rewrite K1, <- Esig.
  destruct (signs options j).
  - destruct (jar_keys j) as [kg|]; [|discriminate].
    set (shadow := Cookie.rename _ _ base).
    unfold Mod1.setCookie, bind, super_has, Http.setCookie, super_set, ret. simpl.
    destruct (isTrue (CookieOptions.overwrite opts)
              || negb (map_has (name ++ ".sig") (jar_store j1))) eqn:E;
      intros [= <-]; simpl.
    + split; [|intros _; apply map_has_set_eq].
      rewrite map_has_set_neq by apply append_sig_neq. exact H1.
    + split; [exact H1|]. intros _.
      apply orb_false_iff in E. destruct E as [_ E].
      now apply negb_false_iff in E.
  - intros [= <-]. split; [exact H1 | discriminate].
Qed.

Lemma Mod1_set_leaves_the_pair_witness :
  let kg := sample_keygrip "k1" [] in
  let j := new_CookieJar [("n", "a")] [] (Some (mkJarOptions (Some kg) None)) in
  map_has "n" (jar_store (snd (Mod1.set "n" (JsString "b") None j))) = true
  /\ map_has "n.sig" (jar_store (snd (Mod1.set "n" (JsString "b") None j))) = true.
Proof.
  intros kg j.
  assert ("b"%string <> ""%string) as Hne by discriminate.
  destruct (Mod1_set_leaves_the_pair "n" "b" None j
              (snd (Mod1.set "n" (JsString "b") None j)) Hne eq_refl) as [H1 H2].
  split; [exact H1 | exact (H2 eq_refl)].
Defined.

(** X21.  First revision: a [set] that passes every check, does not sign,
    and is not held back by the overwrite policy hands the transport one
    cookie and stores the value.  The cookie carries [secure] as a
    boolean, [path] (default "/"; an empty string is kept), [httpOnly]
    (default true) and [maxAge]; the [domain], [sameSite] and [expires]
    options never reach the transport. *)
Theorem Mod1_set_emits_one_cookie (name v : string) (o : CookieOptions.t)
  (j : CookieJar) :
  FIELD_CONTENT_REGEXP_test name = true ->
  FIELD_CONTENT_REGEXP_test v = true ->
  nonEmpty (CookieOptions.path o)
  && negb (FIELD_CONTENT_REGEXP_test (nullish (CookieOptions.path o) "")) = false ->
  nonEmpty (CookieOptions.domain o)
  && negb (FIELD_CONTENT_REGEXP_test (nullish (CookieOptions.domain o) "")) = false ->
  sameSite_truthy (CookieOptions.sameSite o)
  && negb (match CookieOptions.sameSite o with
           | Some x => Mod1.SAME_SITE_includes x
           | None => false
           end) = false ->
  negb (jar_secure j) && isTrue (CookieOptions.secure o) = false ->
  isTrue (CookieOptions.overwrite o) || negb (map_has name (jar_store j)) = true ->
  signs (Some o) j = false ->
  let c := Cookie.mk name (JsString v) (Some (isTrue (CookieOptions.secure o)))
             None (nullish (CookieOptions.path o) "/")
             (nullish (CookieOptions.httpOnly o) true) None
             (CookieOptions.maxAge o) None in
  Mod1.set name (JsString v) (Some o) j = (Return tt, stored c j)
  /\ map_get name (jar_store (stored c j)) = Some v
  /\ jar_res (stored c j) = (jar_res j ++ [SetCookieCall c])%list.
Proof.
  intros Hn Hv Hp Hd Hss Hsec Hov Hsig c.
  split; [|split; [apply map_get_set_eq | reflexivity]].
  unfold Mod1.set. simpl. rewrite (FIELD_CONTENT_nonempty _ Hv). simpl.
  unfold bind at 1. unfold throw_if. rewrite Hn. simpl. unfold ret at 1.
  unfold bind at 1. rewrite Hv. simpl. unfold ret at 1.
  unfold bind at 1. rewrite Hp. unfold ret at 1.
  unfold bind at 1. rewrite Hd. unfold ret at 1.
  unfold bind at 1. rewrite Hss. unfold ret at 1.
  unfold bind at 1. unfold this_secure.
  unfold bind at 1. rewrite Hsec. unfold ret at 1.
  unfold bind at 1. rewrite Mod1_setCookie_writes by exact Hov.
  unfold bind at 1. unfold this_keys. simpl.
  unfold signs in Hsig. simpl in Hsig. rewrite Hsig. reflexivity.
Qed.

Lemma Mod1_set_emits_one_cookie_witness :
  let j := new_CookieJar [] [] None in
  let o := CookieOptions.mk (Some (MaxAgeNum 60)) (Some (ExpNum 5)) (Some "")
             (Some "example.com") None None None None
             (Some (SameSiteStr "lax")) in
  Mod1.set "n" (JsString "v") (Some o) j
  = (Return tt,
     mkJar [("n", "v")]
       [SetCookieCall
          (Cookie.mk "n" (JsString "v") (Some false) None "" true None
             (Some (MaxAgeNum 60)) None)]
       false None).
Proof.
  intros j o.
  exact (proj1 (Mod1_set_emits_one_cookie "n" "v" o j eq_refl eq_refl eq_refl
                  eq_refl eq_refl eq_refl eq_refl eq_refl)).
Defined.

(** X22.  First revision, keys configured: [set(name, v, {overwrite:
    true})] with valid name and value rewrites both entries whatever the
    store held: the base entry gets [v], the shadow entry gets a
    signature made with the current key, and two cookies go to the
    transport, the base one first. *)
Theorem Mod1_overwrite_rewrites_the_pair (kg : Keygrip) (name v : string)
  (j : CookieJar) :
  jar_keys j = Some kg ->
  FIELD_CONTENT_REGEXP_test name = true ->
  FIELD_CONTENT_REGEXP_test v = true ->
  exists j' c1 c2 data,
    Mod1.set name (JsString v) (Some (CookieOptions.only_overwrite true)) j
    = (Return tt, j')
    /\ map_get name (jar_store j') = Some v
    /\ map_get (name ++ ".sig") (jar_store j') = Some (sign kg data)
    /\ jar_res j' = (jar_res j ++ [SetCookieCall c1; SetCookieCall c2])%list
    /\ Cookie.name c1 = name /\ Cookie.value c1 = JsString v
    /\ Cookie.name c2 = (name ++ ".sig")%string
    /\ Cookie.value c2 = JsString (sign kg data).
Proof.
  intros Hk Hn Hv.
  unfold Mod1.set. simpl. rewrite (FIELD_CONTENT_nonempty _ Hv). simpl.
  run. rewrite Hn, Hv. simpl. rewrite andb_false_r. simpl. rewrite Hk.
  rewrite Mod1_setCookie_writes by reflexivity.
  eexists.
  exists (Cookie.mk name (JsString v) (Some false) None "/" true None None None).
  exists (Cookie.mk (name ++ ".sig")
            (JsString (sign kg ((name ++ ".sig") ++ "=" ++ v)))
            (Some false) None "/" true None None None).
  exists ((name ++ ".sig") ++ "=" ++ v)%string.
  split; [reflexivity|]. simpl.
  split; [|split; [|split; [|repeat split]]].
  - rewrite map_get_set_neq by apply append_sig_neq. apply map_get_set_eq.
  - apply map_get_set_eq.
  - now rewrite <- app_assoc.
Qed.

Lemma Mod1_overwrite_rewrites_the_pair_witness :
  let kg := sample_keygrip "k2" ["k1"] in
  let j := new_CookieJar [("n", "a"); ("n.sig", "old")] []
             (Some (mkJarOptions (Some kg) None)) in
  exists j' c1 c2 data,
    Mod1.set "n" (JsString "b") (Some (CookieOptions.only_overwrite true)) j
    = (Return tt, j')
    /\ map_get "n" (jar_store j') = Some "b"
    /\ map_get "n.sig" (jar_store j') = Some (sign kg data)
    /\ jar_res j' = [SetCookieCall c1; SetCookieCall c2]
    /\ Cookie.name c1 = "n"%string /\ Cookie.value c1 = JsString "b"
    /\ Cookie.name c2 = "n.sig"%string
    /\ Cookie.value c2 = JsString (sign kg data).
Proof.
  intros kg j.
  exact (Mod1_overwrite_rewrites_the_pair kg "n" "b" j eq_refl eq_refl eq_refl).
Defined.

(** ** Attributes of the second revision *)

Lemma to_int32_range (z : Z) :
  - 2 ^ 31 <= to_int32 z < 2 ^ 31
  /\ (- 2 ^ 31 <= z < 2 ^ 31 -> to_int32 z = z).
Proof.
  unfold to_int32. split.
  - pose proof (Z.mod_pos_bound (z + 2 ^ 31) (2 ^ 32) ltac:(lia)). lia.
  - intros H. rewrite Z.mod_small by lia. lia.
Qed.

(** Rounding at a scale [D] finer than half the divisor keeps the whole
    part of the quotient. *)
Lemma round_keeps_whole_part (a b D : Z) :
  0 <= a -> 0 < b -> 0 < D -> b < 2 * D ->
  round_nearest_even (a * D) b / D = a / b.
Proof.
  intros Ha Hb HD Hfine.
  pose proof (Z.div_mod a b ltac:(lia)) as Ea.
  pose proof (Z.mod_pos_bound a b Hb) as Ra.
  pose proof (Z.div_mod (a * D) b ltac:(lia)) as Eq.
  pose proof (Z.mod_pos_bound (a * D) b Hb) as Rq.
  set (K := a / b) in *. set (r0 := a mod b) in *.
  assert (K * D <= a * D / b) as Hlo.
  { apply Z.div_le_lower_bound; [lia|]. nia. }
  assert (a * D / b < (K + 1) * D) as Hhi.
  { apply Z.div_lt_upper_bound; [lia|]. nia. }
  assert (K * D <= round_nearest_even (a * D) b < (K + 1) * D) as Hm.
  { unfold round_nearest_even.
    set (q := a * D / b) in *. set (r := (a * D) mod b) in *.
    destruct ((b <? 2 * r) || ((b =? 2 * r) && Z.odd q)) eqn:E; [|lia].
    split; [lia|].
    assert (b <= 2 * r) as Hr.
    { apply orb_true_iff in E. destruct E as [E|E].
      - apply Z.ltb_lt in E. lia.
      - apply andb_true_iff in E. destruct E as [E _]. apply Z.eqb_eq in E. lia. }
    destruct (Z.eq_dec q ((K + 1) * D - 1)) as [Eqq|]; [|lia].
    exfalso. nia. }
  symmetry. apply (Z.div_unique _ D K (round_nearest_even (a * D) b - K * D)); lia.
Qed.

Lemma quotient_exponent_fine (a b : Z) :
  0 < a < 2 ^ 53 -> 2 <= b ->
  let e := quotient_exponent a b in
  e < 0 /\ b < 2 * 2 ^ (- e).
Proof.
  intros Ha Hb. cbv zeta.
  assert (Z.log2 a < 53) as La by (apply Z.log2_lt_pow2; lia).
  assert (1 <= Z.log2 b) as Lb.
  { change 1 with (Z.log2 2). apply Z.log2_le_mono. lia. }
  pose proof (Z.log2_spec b ltac:(lia)) as [_ Sb].
  rewrite Z.pow_succ_r in Sb by apply Z.log2_nonneg.
  assert (forall e, e <= Z.log2 a - Z.log2 b - 52 -> e < 0 /\ b < 2 * 2 ^ (- e)) as H.
  { intros e He. split; [lia|].
    assert (2 ^ Z.log2 b <= 2 ^ (- e)) by (apply Z.pow_le_mono_r; lia).
    lia. }
  unfold quotient_exponent.
  destruct (scaled a b (Z.log2 a - Z.log2 b - 52)) as [n d].
  destruct (n / d <? 2 ^ 52); apply H; lia.
Qed.

Lemma whole_part_double_div (a b : Z) :
  0 < a < 2 ^ 53 -> 2 <= b -> whole_part (double_div a b) = a / b.
Proof.
  intros Ha Hb.
  destruct (quotient_exponent_fine a b Ha Hb) as [He Hf].
  assert ((0 <=? quotient_exponent a b) = false) as E by (apply Z.leb_gt; lia).
  unfold double_div, scaled, whole_part. rewrite E. cbv iota. rewrite E.
  apply round_keeps_whole_part; lia.
Qed.

Lemma whole_of_ratio_quot (n d : Z) :
  Z.abs n < 2 ^ 53 -> 2 <= d -> whole_of_ratio n d = Z.quot n d.
Proof.
  intros Hn Hd. unfold whole_of_ratio.
  destruct (Z.eqb_spec n 0) as [->|Hnz]; [now rewrite Z.quot_0_l by lia|].
  rewrite whole_part_double_div by lia.
  destruct (Z.lt_trichotomy n 0) as [Hneg|[E|Hpos]]; [|contradiction|].
  - rewrite Z.sgn_neg, Z.abs_neq by lia.
    assert (Z.quot n d = - Z.quot (- n) d) as ->
      by (rewrite Z.quot_opp_l by lia; lia).
    rewrite Z.quot_div_nonneg by lia. lia.
  - rewrite Z.sgn_pos, Z.abs_eq by lia.
    rewrite Z.quot_div_nonneg by lia. lia.
Qed.

Lemma quot_small (n d b : Z) :
  0 < d -> 0 < b -> Z.abs n < b * d -> - b < Z.quot n d < b.
Proof.
  intros Hd Hb Hn.
  destruct (Z.le_gt_cases 0 n) as [Hpos|Hneg].
  - pose proof (Z.quot_pos n d Hpos Hd).
    pose proof (Z.quot_lt_upper_bound n d b Hpos Hd ltac:(lia)). lia.
  - rewrite <- (Z.opp_involutive n), Z.quot_opp_l by lia.
    pose proof (Z.quot_pos (- n) d ltac:(lia) Hd).
    pose proof (Z.quot_lt_upper_bound (- n) d b ltac:(lia) Hd ltac:(lia)). lia.
Qed.

(** The result of [9007199254740993024 / 1000] is rounded up before it is
    cut and wrapped: the exact quotient would give 1. *)
Example seconds_of_ms_rounds_first :
  seconds_of_ms 9007199254740993024 1 = 2
  /\ to_int32 (Z.quot 9007199254740993024 1000) = 1.
Proof. split; reflexivity. Qed.

(** X23.  Second revision, [maxAge] given as a duration string.  When
    [ms] yields a number [res], [set] emits one cookie whose [maxAge] is
    [(res / 1000) | 0]: the quotient of the double division, cut toward
    zero and wrapped to 32 bits.  That is always a 32-bit integer.  For
    [res = n / d] with [n] below 2^53 in size, which covers every whole
    number below 2^53 and every double that is not whole, it is the
    exact quotient cut toward zero and wrapped, and the exact quotient
    cut toward zero itself when [res] is below 2^31 * 1000 in size.
    When [ms] yields nothing or NaN, [set] throws "maxAge string invalid"
    and leaves the jar as it was. *)
Theorem Mod2_maxAge_string (ms : string -> MsResult) (Date_now : Z)
  (Date_parse : string -> Date) (name v s : string) (j : CookieJar) :
  jar_keys j = None ->
  FIELD_CONTENT_REGEXP_test name = true ->
  FIELD_CONTENT_REGEXP_test v = true ->
  map_has name (jar_store j) = false ->
  s <> ""%string ->
  let o := CookieOptions.mk (Some (MaxAgeStr s)) None None None None None
             None None None in
  let c (n : Z) := Cookie.mk name (JsString v) None None "/" true None
                     (Some (MaxAgeNum n)) None in
  Mod2.set ms Date_now Date_parse name (JsString v) (Some o) j
  = match ms s with
    | MsNum res =>
        (Return tt, with_res (SetCookieCall (c (seconds_of_ms res 1))) j)
    | MsFraction n k =>
        (Return tt,
         with_res (SetCookieCall (c (seconds_of_ms n (2 ^ Z.pos k)))) j)
    | _ => (Throw (TypeError "maxAge string invalid"), j)
    end
  /\ (forall n d, - 2 ^ 31 <= seconds_of_ms n d < 2 ^ 31)
  /\ (forall n d, 0 < d -> Z.abs n < 2 ^ 53 ->
                  seconds_of_ms n d = to_int32 (Z.quot n (1000 * d)))
  /\ (forall n d, 0 < d -> Z.abs n < 2 ^ 53 -> Z.abs n < 2 ^ 31 * (1000 * d) ->
                  seconds_of_ms n d = Z.quot n (1000 * d)).
Proof.
  intros Hk Hn Hv Hp Hs o c. apply String.eqb_neq in Hs.
  split; [|split; [|split]].
  - pose proof (FIELD_CONTENT_nonempty _ Hv) as Hne.
    destruct j as [st rs sec ks]. simpl in Hk, Hp. subst ks.
    unfold Mod2.set, Mod2.setCookie, Mod2.parse_sameSite, Mod2.parse_maxAge,
      andString.
    run. rewrite Hne. simpl. rewrite Hne, Hp, Hn, Hv. simpl.
    rewrite !andb_false_r. simpl. rewrite Hs. simpl.
    destruct (ms s) as [res|n k| |]; reflexivity.
  - intros n d. apply to_int32_range.
  - intros n d Hd Hb. unfold seconds_of_ms.
    rewrite whole_of_ratio_quot by lia. reflexivity.
  - intros n d Hd Hb Hsmall. unfold seconds_of_ms.
    rewrite whole_of_ratio_quot by lia.
    apply to_int32_range.
    pose proof (quot_small n (1000 * d) (2 ^ 31) ltac:(lia) ltac:(lia) Hsmall).
    lia.
Qed.

Lemma Mod2_maxAge_string_witness :
  let j := new_CookieJar [] [] None in
  let o (s : string) :=
    CookieOptions.mk (Some (MaxAgeStr s)) None None None None None None None
      None in
  let c (n : Z) := Cookie.mk "n" (JsString "v") None None "/" true None
                     (Some (MaxAgeNum n)) None in
  Mod2.set sample_ms 0 sample_Date_parse "n" (JsString "v") (Some (o "1s")) j
  = (Return tt, mkJar [] [SetCookieCall (c 1)] false None)
  /\ Mod2.set sample_ms 0 sample_Date_parse "n" (JsString "v")
       (Some (o "2500.5")) j
     = (Return tt, mkJar [] [SetCookieCall (c 2)] false None).
Proof.
  intros j o c. split.
  - refine (proj1 (Mod2_maxAge_string sample_ms 0 sample_Date_parse "n" "v"
                     "1s" j eq_refl eq_refl eq_refl eq_refl _)).
    discriminate.
  - refine (proj1 (Mod2_maxAge_string sample_ms 0 sample_Date_parse "n" "v"
                     "2500.5" j eq_refl eq_refl eq_refl eq_refl _)).
    discriminate.
Defined.

(** X24.  Second revision, [expires]: a [Date] is kept, a non-zero number
    becomes the [Date] of that time, a duration string becomes the [Date]
    of now plus the duration, and a string [ms] does not know is handed to
    the [Date] parser; zero is passed on as the number it is.  No value of
    [expires] makes [set] throw. *)
Theorem Mod2_expires_resolution (ms : string -> MsResult) (Date_now : Z)
  (Date_parse : string -> Date) (name v : string) (e : Expires)
  (j : CookieJar) :
  jar_keys j = None ->
  FIELD_CONTENT_REGEXP_test name = true ->
  FIELD_CONTENT_REGEXP_test v = true ->
  map_has name (jar_store j) = false ->
  let o := CookieOptions.mk None (Some e) None None None None None None None in
  let c (x : Expires) := Cookie.mk name (JsString v) None None "/" true None
                           None (Some x) in
  let limit := 8640000000000000 in
  exists x,
    Mod2.set ms Date_now Date_parse name (JsString v) (Some o) j
    = (Return tt, with_res (SetCookieCall (c x)) j)
    /\ (forall d, e = ExpDate d -> x = ExpDate d)
    /\ (e = ExpNum 0 -> x = ExpNum 0)
    /\ (forall n, e = ExpNum n -> n <> 0 -> Z.abs n <= limit ->
                  x = ExpDate (DateMs n))
    /\ (forall s t, e = ExpStr s -> s <> ""%string -> ms s = MsNum t ->
                    Z.abs (Date_now + t) <= limit ->
                    x = ExpDate (DateMs (Date_now + t)))
    /\ (forall s, e = ExpStr s -> s <> ""%string -> ms s = MsUndefined ->
                  x = ExpDate (Date_parse s)).
Proof.
  intros Hk Hn Hv Hp o c limit.
  pose proof (FIELD_CONTENT_nonempty _ Hv) as Hne.
  exists (match Mod2.parse_expires ms Date_now Date_parse (Some e) with
          | Some x => x
          | None => e
          end).
  assert (Mod2.parse_expires ms Date_now Date_parse (Some e)
          = Some (match Mod2.parse_expires ms Date_now Date_parse (Some e) with
                  | Some x => x
                  | None => e
                  end)) as Ex.
  { simpl. destruct e as [d|n|s]; simpl.
    - reflexivity.
    - now destruct (n =? 0).
    - destruct (s =? "")%string; [reflexivity|]. now destruct (ms s). }
  split; [|split; [|split; [|split; [|split]]]].
  - destruct j as [st rs sec ks]. simpl in Hk, Hp. subst ks.
    unfold Mod2.set, Mod2.setCookie, Mod2.parse_sameSite, Mod2.parse_maxAge,
      andString.
    run. rewrite Hne. simpl. rewrite Hne, Hp, Hn, Hv. simpl.
    rewrite !andb_false_r. simpl.
    simpl in Ex. unfold c. now rewrite <- Ex.
  - intros d ->. reflexivity.
  - intros ->. reflexivity.
  - intros n -> Hnz Hb. simpl.
    destruct (Z.eqb_spec n 0); [contradiction|].
    unfold Date_of_number. fold limit.
    destruct (Z.leb_spec (Z.abs n) limit); [reflexivity | lia].
  - intros s t -> Hs Hms Hb. simpl.
    apply String.eqb_neq in Hs. rewrite Hs, Hms.
    unfold Date_of_number. fold limit.
    destruct (Z.leb_spec (Z.abs (Date_now + t)) limit); [reflexivity | lia].
  - intros s -> Hs Hms. simpl.
    apply String.eqb_neq in Hs. now rewrite Hs, Hms.
Qed.

Lemma Mod2_expires_resolution_witness :
  let j := new_CookieJar [] [] None in
  let o := CookieOptions.mk None (Some (ExpStr "1s")) None None None None None
             None None in
  exists x,
    Mod2.set sample_ms 500 sample_Date_parse "n" (JsString "v") (Some o) j
    = (Return tt,
       with_res (SetCookieCall
                   (Cookie.mk "n" (JsString "v") None None "/" true None None
                      (Some x))) j)
    /\ x = ExpDate (DateMs 1500).
Proof.
  intros j o.
  destruct (Mod2_expires_resolution sample_ms 500 sample_Date_parse "n" "v"
              (ExpStr "1s") j eq_refl eq_refl eq_refl eq_refl)
    as (x & E & _ & _ & _ & H & _).
  exists x. split; [exact E|].
  apply (H "1s"%string 1000); try reflexivity.
  - discriminate.
  - simpl. lia.
Defined.
